(** * The Uno game engine of [src/uno.js], embedded in Rocq.

    The development follows the source file from top to bottom: the two
    enumerations ([Color], [CardFace]), the [Card] objects, the state that the
    [Game] constructor closes over, and then the inner functions of [Game]
    ([nextTurn], [drawCards], [drawAndSkip], [playCard], [parseToCard],
    [checkCard], [callUno], [endGame], [startGame], [addPlayer], [addNPCs],
    [removeNPCs], [removePlayer]) and the deck literal [getHand].

    Conventions of the embedding.
    - JavaScript numbers that the engine uses are small integers; they are
      [Z], and [&] is [Z.land].  An index into an array is a [Z] as well,
      because the source stores [-1] in [turn] and [previousTurn].
    - Arrays are lists; [a[i]] is [item a i] below, [None] standing for
      [undefined].  Reading a property of [undefined] raises a [TypeError]:
      the functions return a [Result] that is either [Ok] or [Threw], both
      with the state as the exception leaves it.
    - [Math.random()] reads the next sample of the [entropy] the state
      carries, so every theorem holds for every sequence of samples.
    - Messages sent to Discord channels and timers set with [setTimeout] are
      appended to the [effects] of the state; channel management is left
      out.
    - What happens to a game is a sequence of events: a message that a
      collector gets, or a timer that fires.  [reachable] lets any event come
      at any time, [orderly] lets a timer fire only while the game is as it
      was when the timer was set, and [replay] lets a timer fire only once
      it has been set.
    - The text of a message is first taken as the matches of the two
      regular expressions ([Text]); the strings themselves, [formatCard],
      [Card.toString] and the matching come with the names of the cards,
      in the part on more of the engine. *)

From stdpp Require Import base tactics option list numbers strings sets.
From stdpp Require Import sorting.
From Stdlib Require Import ZArith Lia Ascii.

Local Open Scope Z_scope.

(** ** Enumerations *)

Module Color.
Definition NONE : Z := 0.
Definition RED : Z := 1.
Definition BLUE : Z := 2.
Definition GREEN : Z := 3.
Definition YELLOW : Z := 4.
End Color.

Module CardFace.
Definition EFFECT_MASK : Z := 0xFF000.
Definition BASE_MASK : Z := 0x00FFF.
Definition WILD_EFFECT : Z := 0x01000.
Definition SKIP_EFFECT : Z := 0x02000.
Definition REVERSE_EFFECT : Z := 0x04000.
Definition DRAW_TWO_EFFECT : Z := 0x08000.
Definition DRAW_FOUR_EFFECT : Z := 0x10000.
Definition SKIP : Z := 0x02010.
Definition DRAW_TWO : Z := 0x0A020.
Definition REVERSE : Z := 0x04030.
Definition WILD : Z := 0x01040.
Definition DRAW_FOUR : Z := 0x13050.
Definition ZERO : Z := 0x0.
Definition ONE : Z := 0x1.
Definition TWO : Z := 0x2.
Definition THREE : Z := 0x3.
Definition FOUR : Z := 0x4.
Definition FIVE : Z := 0x5.
Definition SIX : Z := 0x6.
Definition SEVEN : Z := 0x7.
Definition EIGHT : Z := 0x8.
Definition NINE : Z := 0x9.
End CardFace.

(** [colorPairs = Object.entries(self.Color)], in insertion order. *)
Definition colorPairs : list (string * Z) :=
  [("NONE", Color.NONE); ("RED", Color.RED); ("BLUE", Color.BLUE);
   ("GREEN", Color.GREEN); ("YELLOW", Color.YELLOW)]%string.

(** [cardFacePairs]: the entries of [self.CardFace] whose key ends neither in
    [_EFFECT] nor in [_MASK].  [Object.entries] lists the integer-like keys
    first, in ascending order, then the others in insertion order. *)
Definition cardFacePairs : list (string * Z) :=
  [("0", CardFace.ZERO); ("1", CardFace.ONE); ("2", CardFace.TWO);
   ("3", CardFace.THREE); ("4", CardFace.FOUR); ("5", CardFace.FIVE);
   ("6", CardFace.SIX); ("7", CardFace.SEVEN); ("8", CardFace.EIGHT);
   ("9", CardFace.NINE);
   ("SKIP", CardFace.SKIP); ("DRAW_TWO", CardFace.DRAW_TWO);
   ("DRAW_2", CardFace.DRAW_TWO); ("REVERSE", CardFace.REVERSE);
   ("WILD", CardFace.WILD); ("DRAW_FOUR", CardFace.DRAW_FOUR);
   ("DRAW_4", CardFace.DRAW_FOUR);
   ("ZERO", CardFace.ZERO); ("ONE", CardFace.ONE); ("TWO", CardFace.TWO);
   ("THREE", CardFace.THREE); ("FOUR", CardFace.FOUR);
   ("FIVE", CardFace.FIVE); ("SIX", CardFace.SIX); ("SEVEN", CardFace.SEVEN);
   ("EIGHT", CardFace.EIGHT); ("NINE", CardFace.NINE)]%string.

(** Truthiness of a JavaScript number used as a condition. *)
Definition truthy (n : Z) : bool := negb (n =? 0).

(** [face & self.CardFace.X_EFFECT] used as a condition. *)
Definition hasEffect (f effect : Z) : bool := truthy (Z.land f effect).

(** ** Cards *)

(** A [Card] object.  [cid] is the identity of the object (two cards of the
    deck with the same face and colour are different objects); [face] and
    [color] are its two public fields, [color] being assigned to when a wild
    card is played or drawn. *)
Record Card := mkCard { cid : nat; face : Z; color : Z }.

Global Instance Card_eq_dec : EqDecision Card.
Proof. solve_decision. Defined.

Definition setColor (c : Z) (k : Card) : Card :=
  {| cid := cid k; face := face k; color := c |}.

Definition isWild (k : Card) : bool := hasEffect (face k) CardFace.WILD_EFFECT.

(** ** The deck literal *)

Module Deck.
Import Color CardFace.

(** The array literal of [getHand], entry by entry. *)
Definition literal : list (Z * Z) :=
  [ (ZERO, RED); (ZERO, GREEN);
    (ZERO, YELLOW); (ZERO, BLUE);
    (ONE, RED); (ONE, RED);
    (ONE, GREEN); (ONE, GREEN);
    (ONE, YELLOW); (ONE, YELLOW);
    (ONE, BLUE); (ONE, BLUE);
    (TWO, RED); (TWO, RED);
    (TWO, GREEN); (TWO, GREEN);
    (TWO, YELLOW); (TWO, YELLOW);
    (TWO, BLUE); (TWO, BLUE);
    (THREE, RED); (THREE, RED);
    (THREE, GREEN); (THREE, GREEN);
    (THREE, YELLOW); (THREE, YELLOW);
    (THREE, BLUE); (THREE, BLUE);
    (FOUR, RED); (FOUR, RED);
    (FOUR, GREEN); (FOUR, GREEN);
    (FOUR, YELLOW); (FOUR, YELLOW);
    (FOUR, BLUE); (FOUR, BLUE);
    (FIVE, RED); (FIVE, RED);
    (FIVE, GREEN); (FIVE, GREEN);
    (FIVE, YELLOW); (FIVE, YELLOW);
    (FIVE, BLUE); (FIVE, BLUE);
    (SIX, RED); (SIX, RED);
    (SIX, GREEN); (SIX, GREEN);
    (SIX, YELLOW); (SIX, YELLOW);
    (SIX, BLUE); (SIX, BLUE);
    (SEVEN, RED); (SEVEN, RED);
    (SEVEN, GREEN); (SEVEN, GREEN);
    (SEVEN, YELLOW); (SEVEN, YELLOW);
    (SEVEN, BLUE); (SEVEN, BLUE);
    (EIGHT, RED); (EIGHT, RED);
    (EIGHT, GREEN); (EIGHT, GREEN);
    (EIGHT, YELLOW); (EIGHT, YELLOW);
    (EIGHT, BLUE); (EIGHT, BLUE);
    (NINE, RED); (NINE, RED);
    (NINE, GREEN); (NINE, GREEN);
    (NINE, YELLOW); (NINE, YELLOW);
    (NINE, BLUE); (NINE, BLUE);
    (DRAW_TWO, RED); (DRAW_TWO, RED);
    (DRAW_TWO, GREEN); (DRAW_TWO, GREEN);
    (DRAW_TWO, YELLOW); (DRAW_TWO, YELLOW);
    (DRAW_TWO, BLUE); (DRAW_TWO, BLUE);
    (SKIP, RED); (SKIP, RED);
    (SKIP, GREEN); (SKIP, GREEN);
    (SKIP, YELLOW); (SKIP, YELLOW);
    (SKIP, BLUE); (SKIP, BLUE);
    (REVERSE, RED); (REVERSE, RED);
    (REVERSE, GREEN); (REVERSE, GREEN);
    (REVERSE, YELLOW); (REVERSE, YELLOW);
    (REVERSE, BLUE); (REVERSE, BLUE);
    (WILD, NONE); (WILD, NONE);
    (WILD, NONE); (WILD, NONE);
    (DRAW_FOUR, NONE); (DRAW_FOUR, NONE);
    (DRAW_FOUR, NONE); (DRAW_FOUR, NONE) ].
End Deck.

(** [getHand()]: every entry of the literal is a fresh [Card] object; the
    objects are numbered in the order in which [new self.Card] creates them. *)
Definition getHand : list Card :=
  imap (λ i fc, mkCard i (fst fc) (snd fc)) Deck.literal.

(** The number of cards of a sequence that show face [f] in colour [c]. *)
Definition countCard (f c : Z) (l : list Card) : nat :=
  length (filter (λ k, face k = f ∧ color k = c) l).

(** The canonical deck, from the words of the specification: per colour one
    0 and two each of 1 to 9, Skip, Reverse and DrawTwo; four colourless Wild
    and four colourless WildDrawFour. *)
Module Canonical.
Import Color CardFace.
Definition colours : list Z := [RED; BLUE; GREEN; YELLOW].
Definition paired : list Z :=
  [ONE; TWO; THREE; FOUR; FIVE; SIX; SEVEN; EIGHT; NINE;
   SKIP; REVERSE; DRAW_TWO].
Definition wilds : list Z := [WILD; DRAW_FOUR].
Definition copies (f c : Z) : nat :=
  if bool_decide (c ∈ colours) then
    if bool_decide (f = ZERO) then 1%nat
    else if bool_decide (f ∈ paired) then 2%nat else 0%nat
  else if bool_decide (c = NONE) then
    if bool_decide (f ∈ wilds) then 4%nat else 0%nat
  else 0%nat.
End Canonical.

(** ** [checkCard] *)

(** [checkCard(card, card2)] with both arguments given. *)
Definition checkCard (card card2 : Card) : bool :=
  if hasEffect (face card) CardFace.WILD_EFFECT then true
  else
    let cardFace := Z.land (face card) CardFace.BASE_MASK in
    let card2Face := Z.land (face card2) CardFace.BASE_MASK in
    (cardFace =? card2Face) || (color card =? color card2).

(** The test that [playCard] applies to the card parsed from a human
    player's text:
    [(parsed.face == topCard.face) ||
     (parsed.face & WILD_EFFECT || parsed.color == topCard.color)]. *)
Definition playable (parsed top : Card) : bool :=
  (face parsed =? face top)
  || (hasEffect (face parsed) CardFace.WILD_EFFECT
      || (color parsed =? color top)).

(** The numbers that are card faces: the values of [cardFacePairs]. *)
Definition isCardFace (f : Z) : Prop := f ∈ (cardFacePairs.*2).

(** ** Players *)

(** A member of the guild as [addPlayer] sees it: [p.id], the name
    [p.nickname || p.user.username], and [p.user.bot]. *)
Record Member := mkMember { memberId : string; memberName : string; memberBot : bool }.

(** A [Player] or an [NPC] object.  [npc] tells the two constructors apart;
    [probCallUno] is in percent (the default is 0.5, that is 50) and
    [delayCallUno] in milliseconds. *)
Record Player := mkPlayer {
  id : string;
  name : string;
  mention : string;
  npc : bool;
  bot : bool;
  hand : list Card;
  calledUno : bool;
  probCallUno : nat;
  delayCallUno : nat
}.

Definition setHand (h : list Card) (p : Player) : Player :=
  {| id := id p; name := name p; mention := mention p; npc := npc p;
     bot := bot p; hand := h; calledUno := calledUno p;
     probCallUno := probCallUno p; delayCallUno := delayCallUno p |}.

Definition setCalledUno (b : bool) (p : Player) : Player :=
  {| id := id p; name := name p; mention := mention p; npc := npc p;
     bot := bot p; hand := hand p; calledUno := b;
     probCallUno := probCallUno p; delayCallUno := delayCallUno p |}.

(** [new self.Player(member, game)]. *)
Definition newPlayer (m : Member) : Player :=
  {| id := memberId m; name := memberName m;
     mention := ("<@" +:+ memberId m +:+ ">")%string;
     npc := false; bot := false; hand := []; calledUno := false;
     probCallUno := 0; delayCallUno := 0 |}.

(** [new self.NPC(name, game, options)], [options] giving at most [id] and
    [bot]. *)
Definition newNPC (nm : string) (options : option (string * bool)) : Player :=
  {| id := match options with
           | Some (i, _) => i
           | None => ("NPC" +:+ nm)%string
           end;
     name := nm;
     mention := ("`" +:+ nm +:+ "`")%string;
     npc := true;
     bot := match options with Some (_, b) => b | None => false end;
     hand := []; calledUno := false;
     probCallUno := 50; delayCallUno := 3000 |}.

(** ** What the engine sends out *)

Inductive Callback :=
| CbPlayCard            (* setTimeout(playCard, npcDelay) *)
| CbCallUno (i : string) (* setTimeout(function() { callUno(myId); }, ...) *)
| CbFinishSetup.        (* setTimeout(finishSetup, 5000) *)

Inductive Msg :=
| CardsDealt
| YourHand (h : list Card)
| Skipping (who : string)
| NextTurnOf (who : string) (cards : nat)
| Drew (who : string) (num : nat)
| YouDrew (drawn : list Card)
| SpecifyCard
| UnknownCard
| SpecifyColor
| NotValid (top : Card)
| NotHeld
| HasCards (who : string) (cards : nat) (card : Card)
| ShowCard (card : Card)
| Winner (who : string)
| Called (who : string)
| Forgot (who : string).

Inductive Effect :=
| GroupSend (m : Msg)
| PrivateSend (to : string) (m : Msg)
| SetTimeout (cb : Callback) (ms : nat).

(** ** The state of a [Game] *)

(** The variables that the functions of [Game] close over.  [maker] is
    [maker.id].  [effects] has the latest effect first. *)
Record Game := mkGame {
  players : list Player;
  discarded : list Card;
  started : bool;
  turn : Z;
  previousTurn : Z;
  topCard : option Card;
  direction : Z;
  maker : string;
  entropy : list nat;
  effects : list Effect
}.

Definition setPlayers (v : list Player) (g : Game) : Game :=
  {| players := v; discarded := discarded g; started := started g;
     turn := turn g; previousTurn := previousTurn g; topCard := topCard g;
     direction := direction g; maker := maker g; entropy := entropy g;
     effects := effects g |}.
Definition setDiscarded (v : list Card) (g : Game) : Game :=
  {| players := players g; discarded := v; started := started g;
     turn := turn g; previousTurn := previousTurn g; topCard := topCard g;
     direction := direction g; maker := maker g; entropy := entropy g;
     effects := effects g |}.
Definition setStarted (v : bool) (g : Game) : Game :=
  {| players := players g; discarded := discarded g; started := v;
     turn := turn g; previousTurn := previousTurn g; topCard := topCard g;
     direction := direction g; maker := maker g; entropy := entropy g;
     effects := effects g |}.
Definition setTurn (v : Z) (g : Game) : Game :=
  {| players := players g; discarded := discarded g; started := started g;
     turn := v; previousTurn := previousTurn g; topCard := topCard g;
     direction := direction g; maker := maker g; entropy := entropy g;
     effects := effects g |}.
Definition setPreviousTurn (v : Z) (g : Game) : Game :=
  {| players := players g; discarded := discarded g; started := started g;
     turn := turn g; previousTurn := v; topCard := topCard g;
     direction := direction g; maker := maker g; entropy := entropy g;
     effects := effects g |}.
Definition setTopCard (v : option Card) (g : Game) : Game :=
  {| players := players g; discarded := discarded g; started := started g;
     turn := turn g; previousTurn := previousTurn g; topCard := v;
     direction := direction g; maker := maker g; entropy := entropy g;
     effects := effects g |}.
Definition setDirection (v : Z) (g : Game) : Game :=
  {| players := players g; discarded := discarded g; started := started g;
     turn := turn g; previousTurn := previousTurn g; topCard := topCard g;
     direction := v; maker := maker g; entropy := entropy g;
     effects := effects g |}.
Definition setEntropy (v : list nat) (g : Game) : Game :=
  {| players := players g; discarded := discarded g; started := started g;
     turn := turn g; previousTurn := previousTurn g; topCard := topCard g;
     direction := direction g; maker := maker g; entropy := v;
     effects := effects g |}.
Definition setEffects (v : list Effect) (g : Game) : Game :=
  {| players := players g; discarded := discarded g; started := started g;
     turn := turn g; previousTurn := previousTurn g; topCard := topCard g;
     direction := direction g; maker := maker g; entropy := entropy g;
     effects := v |}.

(** [a[i]] for an index held in a JavaScript number: [undefined] ([None])
    when [i] is negative or beyond the end. *)
Definition item {A} (a : list A) (i : Z) : option A :=
  if bool_decide (0 ≤ i) then a !! Z.to_nat i else None.

(** ** Results and actions *)

(** A call returns normally with a value, or a [TypeError] escapes from it;
    the state is the one reached at that point in both cases. *)
Inductive Result (A : Type) :=
| Ok (a : A) (g : Game)
| Threw (g : Game).
Arguments Ok {A} a g.
Arguments Threw {A} g.

Definition final {A} (r : Result A) : Game :=
  match r with Ok _ g => g | Threw g => g end.

Definition returned {A} (r : Result A) : option A :=
  match r with Ok a _ => Some a | Threw _ => None end.

Definition Act (A : Type) : Type := Game → Result A.

Definition ret {A} (a : A) : Act A := λ g, Ok a g.
Definition bind {A B} (m : Act A) (k : A → Act B) : Act B :=
  λ g, match m g with Ok a g' => k a g' | Threw g' => Threw g' end.
Definition throw {A} : Act A := λ g, Threw g.
Definition get : Act Game := λ g, Ok g g.
Definition modify (f : Game → Game) : Act unit := λ g, Ok tt (f g).

Declare Scope act_scope.
Delimit Scope act_scope with act.
Notation "x <- m ; k" := (bind m (λ x, k))
  (at level 100, m at next level, right associativity,
   format "'[v' x  <-  m ; '/' k ']'") : act_scope.
Notation "m ;; k" := (bind m (λ _, k))
  (at level 100, right associativity,
   format "'[v' m ;; '/' k ']'") : act_scope.
Local Open Scope act_scope.

(** Reading a property of [o]: a [TypeError] when [o] is [undefined]. *)
Definition the {A} (o : option A) : Act A :=
  match o with Some a => ret a | None => throw end.

Definition when (b : bool) (m : Act unit) : Act unit :=
  if b then m else ret tt.

Definition emit (e : Effect) : Act unit :=
  modify (λ g, setEffects (e :: effects g) g).

(** [Math.random()]: the next sample (0 once the samples are used up). *)
Definition random : Act nat := λ g,
  Ok (hd 0%nat (entropy g)) (setEntropy (tl (entropy g)) g).

(** [Math.floor(r * n)] for the sample [r]: an index below [n], 0 when [n]
    is 0. *)
Definition below (n r : nat) : nat :=
  match n with O => O | S _ => (r mod n)%nat end.

(** [r < prob] and [r <= prob] for the sample [r] and a probability in
    percent. *)
Definition lessThan (r prob : nat) : bool := (r mod 100 <? prob)%nat.
Definition atMost (r prob : nat) : bool := (r mod 100 <=? prob)%nat.

Definition npcDelay : nat := 5000.
Definition maxPlayerCount : nat := 10.

(** [players[i] = f(players[i])] for assignments to a field of the [i]th
    player. *)
Definition updatePlayer (i : Z) (f : Player → Player) : Act unit :=
  modify (λ g, setPlayers (alter f (Z.to_nat i) (players g)) g).

(** ** Sorting a human player's hand *)

(** The comparison function handed to [sort] in [drawCards]: negative, zero
    or positive as [a] goes before, with or after [b]. *)
Definition compareCards (a b : Card) : Z :=
  if face a =? face b then color a - color b else face a - face b.

(** [Array.prototype.sort] is stable: a card is put in front of the first
    card that must follow it, and behind the cards that compare equal. *)
Fixpoint insertCard (a : Card) (l : list Card) : list Card :=
  match l with
  | [] => [a]
  | b :: l' =>
      if bool_decide (compareCards a b ≤ 0) then a :: l
      else b :: insertCard a l'
  end.

Definition sortHand (l : list Card) : list Card := foldr insertCard [] l.

(** ** [nextTurn] *)

Definition nextTurn (skip : bool) : Act unit :=
  g <- get;
  (if bool_decide (turn g > -1) then
     p <- the (item (players g) (turn g));
     when (negb (npc p)) (emit (PrivateSend (id p) (YourHand (hand p))))
   else ret tt);;
  (if bool_decide (turn g = -1) then
     r <- random;
     modify (setTurn (Z.of_nat (below (length (players g)) r)))
   else ret tt);;
  modify (λ g, setTurn (turn g + direction g) g);;
  modify (λ g, if bool_decide (turn g < 0)
               then setTurn (Z.of_nat (length (players g)) - 1) g else g);;
  modify (λ g, if bool_decide (turn g > Z.of_nat (length (players g)) - 1)
               then setTurn 0 g else g);;
  g <- get;
  p <- the (item (players g) (turn g));
  if skip then emit (GroupSend (Skipping (mention p)))
  else
    emit (GroupSend (NextTurnOf (mention p) (length (hand p))));;
    when (npc p) (emit (SetTimeout CbPlayCard npcDelay)).

(** ** [drawCards] *)

(** [if (single.face & self.CardFace.WILD_EFFECT) single.color = NONE] *)
Definition resetWild (single : Card) : Card :=
  if hasEffect (face single) CardFace.WILD_EFFECT
  then setColor Color.NONE single else single.

(** The [for] loop of [drawCards]: [num] rounds at most, each taking the card
    at a random index out of [pool] and resetting the colour of a wild card;
    the loop stops at once when the pool is empty.  The result is [drawn],
    what is left of the pool and what is left of the samples. *)
Fixpoint drawLoop (num : nat) (pool : list Card) (rs : list nat)
    (drawn : list Card) : list Card * list Card * list nat :=
  match num with
  | O => (drawn, pool, rs)
  | S j =>
      match pool with
      | [] => (drawn, pool, rs)
      | _ :: _ =>
          let i := below (length pool) (hd 0%nat rs) in
          match pool !! i with
          | Some single =>
              drawLoop j (delete i pool) (tl rs) (drawn ++ [resetWild single])
          | None => (drawn, pool, tl rs)
          end
      end
  end.

Definition drawCards (num : nat) (silent : bool) : Act unit :=
  g <- get;
  let '(drawn, pool, rs) := drawLoop num (discarded g) (entropy g) [] in
  modify (λ g, setEntropy rs (setDiscarded pool g));;
  p <- the (item (players g) (turn g));
  let h := drawn ++ hand p in
  let h := if npc p then h else sortHand h in
  updatePlayer (turn g) (setHand h);;
  (if negb silent then
     emit (GroupSend (Drew (name p) num));;
     when (negb (npc p)) (emit (PrivateSend (id p) (YouDrew drawn)))
   else
     when (negb (npc p)) (emit (PrivateSend (id p) (YourHand h))));;
  updatePlayer (turn g) (setCalledUno false).

(** ** [drawAndSkip] *)

Definition drawAndSkip (num : nat) : Act unit :=
  drawCards num false;;
  nextTurn false.

(** ** [callUno] *)

Definition callUno (caller : string) : Act unit :=
  g <- get;
  p <- the (item (players g) (turn g));
  when (bool_decide (id p = caller) && negb (calledUno p)
        && bool_decide (length (hand p) = 2%nat))
    (updatePlayer (turn g) (setCalledUno true);;
     emit (GroupSend (Called (mention p))));;
  when (bool_decide (previousTurn g > -1))
    (g <- get;
     q <- the (item (players g) (previousTurn g));
     when (bool_decide (id q = caller) && negb (calledUno q)
           && bool_decide (length (hand q) = 1%nat))
       (updatePlayer (previousTurn g) (setCalledUno true);;
        emit (GroupSend (Called (mention q))));;
     g <- get;
     q <- the (item (players g) (previousTurn g));
     when (negb (calledUno q) && bool_decide (length (hand q) = 1%nat))
       (emit (GroupSend (Forgot (mention q)));;
        let tmp := turn g in
        modify (setTurn (previousTurn g));;
        drawCards 2 false;;
        modify (setTurn tmp))).

(** ** [endGame] *)

Definition endGame : Act unit :=
  emit (SetTimeout CbFinishSetup 5000);;
  modify (setStarted false);;
  modify (setTurn (-1));;
  modify (λ g,
    setPlayers (setHand [] <$> players g)
      (setDiscarded
         (foldl (λ d p, d ++ hand p) (discarded g) (players g)) g)).

(** ** [parseToCard] *)

(** The text of a message, as the two regular expressions of [parseToCard]
    see it: [blank] tells whether [text.trim()] is empty, [faceMatch] and
    [colorMatch] are the matches of [cardFaceRegExp] and [colorRegExp], an
    empty list standing for [null].  The matches are given as keys of the
    two enumerations (upper case, [_] for a space), which is what the
    function turns them into before the lookup. *)
Record Text := mkText {
  blank : bool;
  faceMatch : list string;
  colorMatch : list string
}.

Definition lookupKey (key : string) (pairs : list (string * Z)) : option Z :=
  (λ found, snd (snd found)) <$> list_find (λ el, fst el = key) pairs.

(** The [cid] of the object that [parseToCard] creates; the object is only
    compared with the cards of a hand, it never enters a pile. *)
Definition parsedCid : nat := length Deck.literal.

Definition parseToCard (text : Text) : Act (option Card) :=
  match faceMatch text with
  | [faceKey] =>
      color <- (match colorMatch text with
                | [colorKey] => the (lookupKey colorKey colorPairs)
                | _ => ret Color.NONE
                end);
      face <- the (lookupKey faceKey cardFacePairs);
      if negb (hasEffect face CardFace.WILD_EFFECT)
         && bool_decide (color = Color.NONE)
      then ret None
      else ret (Some (mkCard parsedCid face color))
  | _ => ret None
  end.

(** ** [playCard] *)

(** [checkCard(card)], the second argument left out: [topCard] is read only
    when [card] is not wild. *)
Definition checkCardTop (card : Card) : Act bool :=
  if hasEffect (face card) CardFace.WILD_EFFECT then ret true
  else
    g <- get;
    card2 <- the (topCard g);
    ret (checkCard card card2).

(** The [do ... while] loop of the NPC: [i] runs down from the length of the
    hand, and the loop ends at the first card that [checkCard] accepts, or
    with [selected = -1] ([None]). *)
Fixpoint scanHand (i : nat) (h : list Card) : Act (option nat) :=
  match i with
  | O => ret None
  | S j =>
      card <- the (h !! j);
      ok <- checkCardTop card;
      if ok then ret (Some j) else scanHand j h
  end.

(** The colours of a hand, each once, in the order of their first card. *)
Definition handColors (h : list Card) : list Z :=
  foldl (λ acc el,
           if negb (color el =? Color.NONE)
              && negb (bool_decide (color el ∈ acc))
           then acc ++ [color el] else acc) [] h.

(** [colorPairs[Math.floor(Math.random() * (colorPairs.length - 1)) + 1][1]] *)
Definition randomColor : Act Z :=
  r <- random;
  the (snd <$> colorPairs !! (below (length colorPairs - 1) r + 1)%nat).

(** How the first half of [playCard] ends: with a [return], or with the
    index [selected] into [hand] and the [color] for a wild card ([None] when
    the variable is left [undefined]). *)
Inductive Selection :=
| Stop (b : bool)
| Pick (selected : nat) (color : option Z).

(** The branch [turn == -1]: the first card of a game comes from the pool. *)
Definition selectFirst : Act Selection :=
  g <- get;
  r <- random;
  let selected := below (length (discarded g)) r in
  card <- the (discarded g !! selected);
  if hasEffect (face card) CardFace.WILD_EFFECT then
    c <- randomColor;
    ret (Pick selected (Some c))
  else ret (Pick selected None).

(** The test with which the branch of an NPC begins:
    [previousTurn > -1 && !players[previousTurn].calledUno &&
     players[previousTurn].hand.length == 1 &&
     Math.random() < players[turn].probCallUno]. *)
Definition catchPrevious (p : Player) : Act bool :=
  g <- get;
  if bool_decide (previousTurn g > -1) then
    q <- the (item (players g) (previousTurn g));
    if negb (calledUno q) && bool_decide (length (hand q) = 1%nat)
    then r <- random; ret (lessThan r (probCallUno p))
    else ret false
  else ret false.

(** The branch of an NPC. *)
Definition selectNPC (text : option Text) (p : Player) : Act Selection :=
  catch <- catchPrevious p;
  if catch : bool then
    callUno (id p);;
    emit (SetTimeout CbPlayCard npcDelay);;
    ret (Stop false)
  else
    sel <- scanHand (length (hand p)) (hand p);
    match sel with
    | None => drawAndSkip 1;; ret (Stop false)
    | Some selected =>
        card <- the (hand p !! selected);
        color <- (if hasEffect (face card) CardFace.WILD_EFFECT then
                    let cs := handColors (hand p) in
                    match cs with
                    | [] => c <- randomColor; ret (Some c)
                    | _ :: _ =>
                        r <- random;
                        c <- the (cs !! below (length cs) r);
                        ret (Some c)
                    end
                  else ret None);
        when (bool_decide (length (hand p) = 2%nat))
          (r <- random;
           when (atMost r (probCallUno p))
             (emit (SetTimeout (CbCallUno (id p)) (delayCallUno p))));;
        ret (Pick selected color)
    end.

(** The branch of a human player. *)
Definition selectHuman (text : option Text) (p : Player) : Act Selection :=
  match text with
  | None => emit (GroupSend SpecifyCard);; ret (Stop false)
  | Some text =>
      if blank text then emit (GroupSend SpecifyCard);; ret (Stop false)
      else
        parsed <- parseToCard text;
        match parsed with
        | None => emit (GroupSend UnknownCard);; ret (Stop false)
        | Some parsed =>
            let wild := hasEffect (face parsed) CardFace.WILD_EFFECT in
            if wild && bool_decide (color parsed = Color.NONE) then
              emit (GroupSend SpecifyColor);; ret (Stop false)
            else
              let chosen := if wild then Some (color parsed) else None in
              g <- get;
              top <- the (topCard g);
              if negb (playable parsed top) then
                emit (GroupSend (NotValid top));; ret (Stop false)
              else
                match list_find
                        (λ el, face parsed = face el
                               ∧ (wild = true ∨ color parsed = color el))
                        (hand p) with
                | None => emit (GroupSend NotHeld);; ret (Stop false)
                | Some (selected, _) => ret (Pick selected chosen)
                end
        end
  end.

Definition select (text : option Text) : Act Selection :=
  g <- get;
  if bool_decide (turn g = -1) then selectFirst
  else
    p <- the (item (players g) (turn g));
    if npc p then selectNPC text p else selectHuman text p.

(** [if (color) { card.color = color; }] *)
Definition paint (color : option Z) (card : Card) : Card :=
  match color with
  | Some c => if truthy c then setColor c card else card
  | None => card
  end.

(** The second half of [playCard] begins with the movement of the cards,
    from [hand.splice(selected, 1)] to [card.color = color].  [hand] is the
    pool when [turn] is [-1] and the hand of the current player otherwise. *)
Definition takeCard (selected : nat) (color : option Z) : Act Card :=
  g <- get;
  let first := bool_decide (turn g = -1) in
  h <- (if first then ret (discarded g)
        else p <- the (item (players g) (turn g)); ret (hand p));
  (if first then modify (setDiscarded (delete selected h))
   else updatePlayer (turn g) (setHand (delete selected h)));;
  match topCard g with
  | Some top => modify (λ g, setDiscarded (discarded g ++ [top]) g)
  | None => ret tt
  end;;
  modify (setTopCard (h !! selected));;
  card <- the (h !! selected);
  let card := paint color card in
  modify (setTopCard (Some card));;
  ret card.

(** It goes on with the messages, the end of the game and the effects of
    the card. *)
Definition resolve (card : Card) : Act bool :=
  g <- get;
  let first := bool_decide (turn g = -1) in
  left <- (if first then ret (length (discarded g))
           else p <- the (item (players g) (turn g)); ret (length (hand p)));
  (if bool_decide (turn g > -1) && bool_decide (left ≠ 0%nat) then
     p <- the (item (players g) (turn g));
     emit (GroupSend (HasCards (name p) left card))
   else emit (GroupSend (ShowCard card)));;
  if bool_decide (left = 0%nat) then
    p <- the (item (players g) (turn g));
    emit (GroupSend (Winner (mention p)));;
    when (npc p) endGame;;
    ret true
  else
    modify (setPreviousTurn (turn g));;
    skipping <- (if hasEffect (face card) CardFace.REVERSE_EFFECT then
                   modify (λ g, setDirection (direction g * -1) g);;
                   ret (bool_decide (length (players g) = 2%nat))
                 else ret false);
    let skip := skipping || hasEffect (face card) CardFace.SKIP_EFFECT in
    nextTurn skip;;
    when (hasEffect (face card) CardFace.DRAW_TWO_EFFECT) (drawCards 2 false);;
    when (hasEffect (face card) CardFace.DRAW_FOUR_EFFECT) (drawCards 4 false);;
    when skip (nextTurn false);;
    ret false.

Definition commit (selected : nat) (color : option Z) : Act bool :=
  card <- takeCard selected color;
  resolve card.

Definition playCard (text : option Text) : Act bool :=
  sel <- select text;
  match sel with
  | Stop b => ret b
  | Pick selected color => commit selected color
  end.

(** ** [startGame] *)

(** One round of the dealing loop, [turn] being the loop variable. *)
Definition deal (i : nat) : Act unit :=
  modify (setTurn (Z.of_nat i));;
  updatePlayer (Z.of_nat i) (setHand []);;
  drawCards 7 true.

Fixpoint dealAll (rounds : list nat) : Act unit :=
  match rounds with
  | [] => ret tt
  | i :: rounds => deal i;; dealAll rounds
  end.

Definition startGame : Act unit :=
  g <- get;
  dealAll (seq 0 (length (players g)));;
  emit (GroupSend CardsDealt);;
  modify (setTurn (-1));;
  modify (setStarted true);;
  playCard None;;
  ret tt.

(** ** [addPlayer], [addNPCs], [removeNPCs] *)

(** [addPlayer(p)] once the channels exist; the result is the success
    flag. *)
Definition addPlayer (p : Member) : Act bool :=
  g <- get;
  if bool_decide (maxPlayerCount ≤ length (players g))%nat then ret false
  else
    modify (setPlayers
              (players g ++
                 [if memberBot p
                  then newNPC (memberName p) (Some (memberId p, true))
                  else newPlayer p]));;
    ret true.

(** The argument of [addNPCs]: the text [split[3]] of the message, which
    the collector hands over as it is once [isNaN] has let it through.
    [i < num] and [added == num] read it as a number: a fraction such as
    [2], [2.5] or [-1], or an infinity, as for [1e999]. *)
Inductive Num :=
| Fraction (numerator : Z) (denominator : positive)
| Infinite (negative : bool).

(** [i < num] *)
Definition belowNum (i : nat) (num : Num) : bool :=
  match num with
  | Fraction n d => Z.of_nat i * Z.pos d <? n
  | Infinite negative => negb negative
  end.

(** [added == num] *)
Definition equalsNum (added : nat) (num : Num) : bool :=
  match num with
  | Fraction n d => Z.of_nat added * Z.pos d =? n
  | Infinite _ => false
  end.

Definition npcNames : list string :=
  ["HAL"; "Jane"; "HEX"; "Deep Thought"; "Com Pewter";
   "EDI"; "JARVIS"; "Samantha"; "TARS"; "Ava";
   "Friday"; "Legion"; "Cortana"; "GLaDOS"; "Guilty Spark";
   "2B"; "9S"; "CL4P-TP"; "Computer"; "NPC";
   "AI"; "Bot"; "CPU"; "R2D2"; "AUTO";
   "CASE"; "Alexa"; "Bixby"]%string.

(** The [do ... while] loop of [addNPCs]: a name is drawn until it is one
    that no player bears.  [Math.random] gives 0 once the samples are used
    up, so a draw that fails then fails for ever: with as many further
    draws allowed as there are samples, the loop that has none left does
    not end, and neither does the call, which is left without a result like
    a call that throws. *)
Fixpoint drawName (more : nat) (names : list string) : Act string :=
  r <- random;
  name <- the (npcNames !! below (length npcNames) r);
  if bool_decide (name ∈ names) then
    match more with
    | O => throw
    | S more => drawName more names
    end
  else ret name.

(** The [for] loop of [addNPCs(num)] from round [i] on; [added] and [i] go
    up together.  [players.length] goes up with every round, so the loop
    makes [maxPlayerCount] rounds at most: [rounds] is never used up when
    it starts at that. *)
Fixpoint addRounds (rounds : nat) (num : Num) (i : nat) : Act nat :=
  g <- get;
  if belowNum i num && bool_decide (length (players g) < maxPlayerCount)%nat
  then
    match rounds with
    | O => ret i
    | S rounds =>
        name <- drawName (length (entropy g)) (name <$> players g);
        modify (λ g, setPlayers (players g ++ [newNPC name None]) g);;
        addRounds rounds num (S i)
    end
  else ret i.

Definition addNPCs (num : Num) : Act bool :=
  added <- addRounds maxPlayerCount num 0;
  ret (equalsNum added num).

(** The loop of [removeNPCs(num)] over the players from index [i] on: the
    first [num] players that are NPCs and not Discord bots are spliced
    out.  [num] counts the rounds that [j < num] allows, which is all that
    the loop makes of its argument: 3 for the text [2.5], none for
    [-1]. *)
Fixpoint spliceNPCs (num : nat) (ps : list Player) : list Player :=
  match ps with
  | [] => []
  | p :: ps =>
      match num with
      | O => p :: ps
      | S j =>
          if npc p && negb (bot p) then spliceNPCs j ps
          else p :: spliceNPCs num ps
      end
  end.

Definition removeNPCs (num : nat) : Act unit :=
  modify (λ g, setPlayers (spliceNPCs num (players g)) g).

(** ** [removePlayer] *)

(** The argument of [removePlayer]: an id, or an object with an [id]. *)
Inductive PlayerRef :=
| ById (i : string)
| ByObject (i : string).

(** [p.id] when [p] holds a string: a string has no property [id], the
    result is [undefined]. *)
Definition idOfString (p : string) : option string := None.

(** [x == maker.id] with [x] a string or [undefined] and [maker.id] a
    string. *)
Definition looseEq (x : option string) (y : string) : bool :=
  match x with
  | Some x => bool_decide (x = y)
  | None => false
  end.

Definition removePlayer (p : PlayerRef) : Act unit :=
  (* if (typeof p === 'object') p = p.id; *)
  let p := match p with ById i => i | ByObject i => i end in
  (* if (!p) return; *)
  if bool_decide (p = EmptyString) then ret tt
  else
    g <- get;
    (* if (!players || !players.length || p.id == maker.id) return; *)
    if bool_decide (length (players g) = 0%nat)
       || looseEq (idOfString p) (maker g)
    then ret tt
    else
      match list_find (λ player, id player = p) (players g) with
      | Some (index, gone) =>
          modify (λ g, setDiscarded (discarded g ++ hand gone) g);;
          modify (λ g, setPlayers (delete index (players g)) g);;
          when (bool_decide (turn g = Z.of_nat index)) (nextTurn false)
      | None => ret tt
      end.

(** ** The message collectors and the timers *)

Inductive Command :=
| SayUno                          (* uno! *)
| Start                           (* uno start *)
| Invite (ms : list Member)       (* uno invite @... *)
| NpcAdd (num : Num)              (* uno npc add n *)
| NpcRemove (num : nat)           (* uno npc remove n *)
| Kick (ids : list string)        (* uno kick @... *)
| Leave                           (* uno leave *)
| Play (text : option Text)       (* [uno] play ... *)
| Draw.                           (* draw *)

Inductive Event :=
| Message (author : string) (cmd : Command)
| Timeout (cb : Callback).

Fixpoint forEach {A} (l : list A) (f : A → Act unit) : Act unit :=
  match l with
  | [] => ret tt
  | x :: l => f x;; forEach l f
  end.

(** [el.id != maker.id] guards every call that a kick makes. *)
Definition kick (ids : list string) : Act unit :=
  g <- get;
  forEach ids (λ el,
    when (negb (bool_decide (el = maker g))) (removePlayer (ByObject el))).

(** The collector that [finishSetup] installs: the lobby. *)
Definition lobbyCollector (author : string) (cmd : Command) : Act unit :=
  g <- get;
  if negb (bool_decide (author = maker g)) then
    match cmd with
    | Leave => removePlayer (ById author)
    | _ => ret tt
    end
  else
    match cmd with
    | Start => when (bool_decide (1 < length (players g))%nat) startGame
    | Invite ms => forEach ms (λ m, addPlayer m;; ret tt)
    | NpcAdd num => addNPCs num;; ret tt
    | NpcRemove num => removeNPCs num
    | Kick ids => kick ids
    | _ => ret tt
    end.

(** The collector that [startGame] installs: the game in progress. *)
Definition gameCollector (author : string) (cmd : Command) : Act unit :=
  g <- get;
  match cmd with
  | SayUno => callUno author
  | Kick ids =>
      if bool_decide (author = maker g) then kick ids
      else
        when (negb (bool_decide (turn g < 0)))
          (p <- the (item (players g) (turn g)); ret tt)
  | _ =>
      if bool_decide (turn g < 0) then ret tt
      else
        p <- the (item (players g) (turn g));
        if negb (bool_decide (author = id p)) then ret tt
        else
          match cmd with
          | Play text => over <- playCard text; when over endGame
          | Leave => removePlayer (ById author)
          | Draw =>
              drawAndSkip 1;;
              g <- get;
              top <- the (topCard g);
              emit (GroupSend (ShowCard top))
          | _ => ret tt
          end
  end.

(** A timer fires: the callback that [setTimeout] was given runs, whatever
    the state of the game is by then (no timer is ever cleared).
    [playCard] is set by [nextTurn] and by an NPC that calls on the previous
    player, [callUno(myId)] by an NPC that is about to hold one card, and
    [finishSetup] by [endGame]; [finishSetup] changes no variable of the
    game. *)
Definition fire (cb : Callback) : Act unit :=
  match cb with
  | CbPlayCard => playCard None;; ret tt
  | CbCallUno i => callUno i
  | CbFinishSetup => ret tt
  end.

(** A message arrives: the collector of the game in progress gets it when
    the game is started, the collector of the lobby otherwise. *)
Definition collect (author : string) (cmd : Command) : Act unit :=
  g <- get;
  if started g then gameCollector author cmd
  else lobbyCollector author cmd.

Definition handle (e : Event) : Act unit :=
  match e with
  | Message author cmd => collect author cmd
  | Timeout cb => fire cb
  end.

(** A timer fires in time when the game is still as it was when the timer
    was set: [playCard] while the game is started and the current player an
    NPC, [callUno] while the game is started. *)
Definition inTime (cb : Callback) (g : Game) : bool :=
  match cb with
  | CbPlayCard =>
      started g && from_option npc false (item (players g) (turn g))
  | CbCallUno _ => started g
  | CbFinishSetup => true
  end.

Definition timely (e : Event) (g : Game) : bool :=
  match e with
  | Message _ _ => true
  | Timeout cb => inTime cb g
  end.

(** [new self.Game(memberList, maker)] after [setupChannels]: the pool is a
    fresh deck, the members are added in order. *)
Definition emptyGame (makerId : string) (samples : list nat) : Game :=
  {| players := []; discarded := getHand; started := false; turn := -1;
     previousTurn := -1; topCard := None; direction := 1; maker := makerId;
     entropy := samples; effects := [] |}.

Fixpoint addFirst (ms : list Member) : Act unit :=
  match ms with
  | [] => ret tt
  | m :: ms => ok <- addPlayer m; if ok then addFirst ms else ret tt
  end.

Definition newGame (memberList : list Member) (makerId : string)
    (samples : list nat) : Game :=
  final (addFirst memberList (emptyGame makerId samples)).

(** The states that a game goes through: any message and any timer may
    come at any time.  (This is more than can happen: a timer fires only
    once it has been set.) *)
Inductive reachable : Game → Prop :=
| reachable_new memberList makerId samples :
    reachable (newGame memberList makerId samples)
| reachable_handle g e :
    reachable g → reachable (final (handle e g)).

(** The states that a game goes through when every timer fires in time. *)
Inductive orderly : Game → Prop :=
| orderly_new memberList makerId samples :
    orderly (newGame memberList makerId samples)
| orderly_handle g e :
    orderly g → timely e g = true → orderly (final (handle e g)).

(** The number of cards of a game: hands, pool and top card. *)
Definition handCards (ps : list Player) : nat :=
  sum_list_with (λ p, length (hand p)) ps.

Definition topCount (t : option Card) : nat :=
  match t with Some _ => 1%nat | None => 0%nat end.

Definition total (g : Game) : nat :=
  (handCards (players g) + length (discarded g) + topCount (topCard g))%nat.

(** * Properties *)

(** ** Running actions *)

Lemma bind_Ok {A B} (m : Act A) (k : A → Act B) g a g' :
  m g = Ok a g' → bind m k g = k a g'.
Proof. unfold bind. by intros ->. Qed.

Lemma bind_Threw {A B} (m : Act A) (k : A → Act B) g g' :
  m g = Threw g' → bind m k g = Threw g'.
Proof. unfold bind. by intros ->. Qed.

Lemma the_Some {A} (o : option A) a g : o = Some a → the o g = Ok a g.
Proof. by intros ->. Qed.

(** [wp m Q E g]: run from [g], the action [m] returns [a] in a state of
    [Q a], or an exception leaves a state of [E]. *)
Definition wp {A} (m : Act A) (Q : A → Game → Prop) (E : Game → Prop)
    (g : Game) : Prop :=
  match m g with Ok a g' => Q a g' | Threw g' => E g' end.

Section wp.
Context {A B : Type}.
Implicit Types (E : Game → Prop) (g : Game).

Lemma wp_ret (Q : A → Game → Prop) E a g : Q a g → wp (ret a) Q E g.
Proof. done. Qed.

Lemma wp_bind (m : Act A) (k : A → Act B) (Q : B → Game → Prop) E g :
  wp m (λ a g', wp (k a) Q E g') E g → wp (bind m k) Q E g.
Proof. unfold wp, bind. by destruct (m g). Qed.

Lemma wp_mono (m : Act A) (Q Q' : A → Game → Prop) E E' g :
  wp m Q E g →
  (∀ a g', Q a g' → Q' a g') → (∀ g', E g' → E' g') →
  wp m Q' E' g.
Proof. unfold wp. destruct (m g); auto. Qed.

Lemma wp_throw (Q : A → Game → Prop) E g : E g → wp throw Q E g.
Proof. done. Qed.

Lemma wp_the (o : option A) (Q : A → Game → Prop) E g :
  match o with Some a => Q a g | None => E g end → wp (the o) Q E g.
Proof. by destruct o. Qed.

Lemma wp_final (m : Act A) (R : Game → Prop) g :
  wp m (λ _, R) R g ↔ R (final (m g)).
Proof. unfold wp. by destruct (m g). Qed.

Lemma wp_Ok (m : Act A) (Q : A → Game → Prop) g :
  wp m Q (λ _, False) g ↔ ∃ a g', m g = Ok a g' ∧ Q a g'.
Proof.
  unfold wp. destruct (m g) as [a g'|g']; split.
  - eauto.
  - by intros (? & ? & [= <- <-] & ?).
  - done.
  - by intros (? & ? & ? & _).
Qed.
End wp.

Lemma wp_get (Q : Game → Game → Prop) E g : Q g g → wp get Q E g.
Proof. done. Qed.

Lemma wp_modify f (Q : unit → Game → Prop) E g :
  Q tt (f g) → wp (modify f) Q E g.
Proof. done. Qed.

Lemma wp_random (Q : nat → Game → Prop) E g :
  Q (hd 0%nat (entropy g)) (setEntropy (tl (entropy g)) g) → wp random Q E g.
Proof. done. Qed.

(** One step of a backward proof over the text of an action. *)
Ltac wp_step :=
  lazymatch goal with
  | |- wp (bind _ _) _ _ _ => apply wp_bind
  | |- wp (ret _) _ _ _ => apply wp_ret
  | |- wp get _ _ _ => apply wp_get
  | |- wp (modify _) _ _ _ => apply wp_modify
  | |- wp (emit _) _ _ _ => apply wp_modify
  | |- wp (updatePlayer _ _) _ _ _ => apply wp_modify
  | |- wp random _ _ _ => apply wp_random
  | |- wp throw _ _ _ => apply wp_throw
  | |- wp (the _) _ _ _ => apply wp_the
  end.

Ltac wp_steps := repeat wp_step.

(** The same, going into conditionals as well. *)
Ltac wp_case :=
  lazymatch goal with
  | |- wp (when _ _) _ _ _ => unfold when at 1
  | |- wp (if ?b then _ else _) _ _ _ => destruct b eqn:?
  | |- wp (match ?x with _ => _ end) _ _ _ => destruct x eqn:?
  | |- match ?o with Some _ => _ | None => _ end => destruct o eqn:?
  end.

(** Projections of states and players that are built by the setters. *)
Ltac game_simpl :=
  cbn [players discarded started turn previousTurn topCard direction maker
       entropy effects setPlayers setDiscarded setStarted setTurn
       setPreviousTurn setTopCard setDirection setEntropy setEffects
       id name mention npc bot hand calledUno probCallUno delayCallUno
       setHand setCalledUno final returned].

Ltac wp_run := repeat first [wp_step | wp_case | progress game_simpl].

(** ** Arrays *)

Lemma item_Some {A} (a : list A) i x :
  item a i = Some x ↔ 0 ≤ i ∧ a !! Z.to_nat i = Some x.
Proof.
  unfold item. case_bool_decide as Hi; split.
  - by intros ?.
  - by intros [_ ?].
  - by intros ?.
  - by intros [? _].
Qed.

Lemma item_of_nat {A} (a : list A) (i : nat) : item a (Z.of_nat i) = a !! i.
Proof.
  unfold item. rewrite bool_decide_eq_true_2 by lia. by rewrite Nat2Z.id.
Qed.

Lemma item_lt {A} (a : list A) i x :
  item a i = Some x → 0 ≤ i < Z.of_nat (length a).
Proof.
  rewrite item_Some. intros [? Hx]. apply lookup_lt_Some in Hx. lia.
Qed.

Lemma item_is_Some {A} (a : list A) i :
  0 ≤ i < Z.of_nat (length a) → is_Some (item a i).
Proof.
  intros Hi. unfold item. rewrite bool_decide_eq_true_2 by lia.
  apply lookup_lt_is_Some. lia.
Qed.

Lemma delete_None {A} (l : list A) i : l !! i = None → delete i l = l.
Proof.
  revert i. induction l as [|x l IH]; intros [|i] Hi; simpl in *;
    try done. f_equal. by apply IH.
Qed.

Lemma below_lt n r : (0 < n)%nat → (below n r < n)%nat.
Proof.
  destruct n as [|n]; [lia|]. intros _.
  change (r mod S n < S n)%nat. apply Nat.mod_upper_bound. lia.
Qed.

Lemma alter_alter_insert {A} (f f' : A → A) (l : list A) i x :
  l !! i = Some x → alter f i (alter f' i l) = <[i := f (f' x)]> l.
Proof.
  intros Hx. rewrite list_alter_alter_eq, list_insert_alter.
  apply list_alter_ext; [|done]. intros y Hy. by simplify_eq/=.
Qed.

Lemma alter_insert {A} (f : A → A) (l : list A) i x :
  l !! i = Some x → alter f i l = <[i := f x]> l.
Proof.
  intros Hx. rewrite list_insert_alter.
  apply list_alter_ext; [|done]. intros y Hy. by simplify_eq/=.
Qed.

(** ** The sort keeps the cards *)

Lemma insertCard_Permutation a l : insertCard a l ≡ₚ a :: l.
Proof.
  induction l as [|b l IH]; simpl; [done|].
  case_bool_decide; [done|]. rewrite IH. apply Permutation_swap.
Qed.

Lemma sortHand_Permutation l : sortHand l ≡ₚ l.
Proof.
  induction l as [|a l IH]; simpl; [done|].
  by rewrite insertCard_Permutation, IH.
Qed.

Lemma length_sortHand l : length (sortHand l) = length l.
Proof. by rewrite sortHand_Permutation. Qed.

(** ** [drawCards] *)

Lemma drawLoop_spec num : ∀ pool rs drawn,
  ∃ taken pool' rs',
    drawLoop num pool rs drawn = (drawn ++ (resetWild <$> taken), pool', rs')
    ∧ taken ++ pool' ≡ₚ pool
    ∧ pool' `sublist_of` pool
    ∧ length taken = (num `min` length pool)%nat.
Proof.
  induction num as [|j IH]; intros pool rs drawn.
  - exists [], pool, rs. simpl. by rewrite app_nil_r.
  - destruct pool as [|k0 pool0] eqn:Hpool.
    + exists [], [], rs. simpl. by rewrite app_nil_r.
    + rewrite <- Hpool. assert (0 < length pool)%nat as Hlen
        by (rewrite Hpool; simpl; lia).
      pose proof (below_lt _ (hd 0%nat rs) Hlen) as Hi.
      destruct (lookup_lt_is_Some_2 _ _ Hi) as [single Hsingle].
      destruct (IH (delete (below (length pool) (hd 0%nat rs)) pool)
                  (tl rs) (drawn ++ [resetWild single]))
        as (taken & pool' & rs' & Heq & Hperm & Hsub & Htaken).
      exists (single :: taken), pool', rs'. split_and!.
      * rewrite Hpool at 1. cbn [drawLoop]. rewrite <- Hpool, Hsingle, Heq.
        by rewrite <- app_assoc.
      * simpl. rewrite Hperm. symmetry. by apply delete_Permutation.
      * etrans; [done|]. apply sublist_delete.
      * cbn [length]. rewrite Htaken, length_delete by eauto. lia.
Qed.

(** What non-silent or silent drawing sends, latest first. *)
Definition drawEffects (silent : bool) (p : Player) (num : nat)
    (drawn h : list Card) : list Effect :=
  if silent then
    if npc p then [] else [PrivateSend (id p) (YourHand h)]
  else
    (if npc p then [] else [PrivateSend (id p) (YouDrew drawn)])
    ++ [GroupSend (Drew (name p) num)].

(** The hand after a draw: the drawn cards in front, sorted for a human. *)
Definition drawnHand (p : Player) (drawn : list Card) : list Card :=
  if npc p then drawn ++ hand p else sortHand (drawn ++ hand p).

Lemma length_drawnHand p drawn :
  length (drawnHand p drawn) = (length drawn + length (hand p))%nat.
Proof.
  unfold drawnHand. destruct (npc p);
    by rewrite ?length_sortHand, length_app.
Qed.

Lemma drawnHand_Permutation p drawn : drawnHand p drawn ≡ₚ drawn ++ hand p.
Proof. unfold drawnHand. destruct (npc p); by rewrite ?sortHand_Permutation. Qed.

Lemma drawCards_Ok num silent g p :
  item (players g) (turn g) = Some p →
  ∃ taken pool' rs',
    let drawn := resetWild <$> taken in
    let h := drawnHand p drawn in
    drawCards num silent g
    = Ok tt (setPlayers
               (<[Z.to_nat (turn g) := setCalledUno false (setHand h p)]>
                  (players g))
               (setEffects (drawEffects silent p num drawn h ++ effects g)
                  (setEntropy rs' (setDiscarded pool' g))))
    ∧ taken ++ pool' ≡ₚ discarded g
    ∧ pool' `sublist_of` discarded g
    ∧ length taken = (num `min` length (discarded g))%nat.
Proof.
  intros Hp.
  destruct (drawLoop_spec num (discarded g) (entropy g) [])
    as (taken & pool' & rs' & Heq & Hperm & Hsub & Hlen).
  exists taken, pool', rs'. split_and!; try done.
  apply item_Some in Hp as [Hi Hp].
  unfold drawCards, bind, get. rewrite Heq. simpl.
  unfold item. rewrite bool_decide_eq_true_2 by done. rewrite Hp. simpl.
  unfold updatePlayer, modify, drawEffects, drawnHand, when, emit, modify.
  destruct silent, (npc p); simpl;
    by rewrite (alter_alter_insert _ _ _ _ _ Hp).
Qed.

(** ** What the operations keep *)

Definition hands (g : Game) : list (list Card) := hand <$> players g.

(** [same g g']: [g'] differs from [g] at most in [turn], [entropy] and
    [effects]. *)
Definition same (g g' : Game) : Prop :=
  players g' = players g ∧ discarded g' = discarded g
  ∧ topCard g' = topCard g ∧ started g' = started g
  ∧ maker g' = maker g ∧ previousTurn g' = previousTurn g
  ∧ direction g' = direction g.

Lemma hands_insert (ps : list Player) (i : nat) p :
  hand <$> <[i:=p]> ps = <[i:=hand p]> (hand <$> ps).
Proof. apply list_fmap_insert. Qed.

Lemma hands_alter_calledUno b (i : nat) (ps : list Player) :
  hand <$> alter (setCalledUno b) i ps = hand <$> ps.
Proof.
  rewrite (list_fmap_alter _ _ (λ h, h)); [by apply list_alter_id|].
  by apply Forall_true.
Qed.

Lemma hands_alter_setHand h (i : nat) (ps : list Player) :
  hand <$> alter (setHand h) i ps = alter (λ _, h) i (hand <$> ps).
Proof.
  apply list_fmap_alter. by apply Forall_true.
Qed.

(** [mild g g']: the cards lie in [g'] as in [g], with as many players. *)
Definition mild (g g' : Game) : Prop :=
  hands g' = hands g ∧ discarded g' = discarded g
  ∧ topCard g' = topCard g ∧ started g' = started g
  ∧ length (players g') = length (players g).

Ltac mild_solve :=
  by (repeat split; unfold hands; game_simpl;
      rewrite ?hands_alter_calledUno, ?length_alter).

Lemma same_mild g g' : same g g' → mild g g'.
Proof. unfold mild, hands. by intros (-> & -> & -> & -> & _). Qed.

Lemma same_refl g : same g g.
Proof. by repeat split. Qed.

Ltac same_solve := by repeat split.

Lemma nextTurn_wp skip (Q : unit → Game → Prop) (E : Game → Prop) g :
  (∀ g', same g g' → is_Some (item (players g') (turn g')) → Q tt g') →
  (∀ g', same g g' → E g') →
  wp (nextTurn skip) Q E g.
Proof.
  intros HQ HE.
  unfold wp, nextTurn, bind, get, the, when, emit, modify, random, ret, throw.
  simpl.
  repeat first
    [ case_bool_decide
    | match goal with
      | |- context [match item ?a ?i with _ => _ end] =>
          destruct (item a i) eqn:?
      | |- context [npc ?p] => destruct (npc p) eqn:?
      | |- context [if skip then _ else _] => destruct skip
      end
    | progress simpl ];
  first [ apply HE; same_solve
        | apply HQ; [same_solve|simpl; eauto] ].
Qed.

(** ** The colour of a wild card that is played *)

Lemma randomColor_wp (Q : Z → Game → Prop) E g :
  (∀ c g', same g g' → turn g' = turn g → c ≠ Color.NONE → Q c g') →
  wp randomColor Q E g.
Proof.
  intros HQ. unfold randomColor. wp_step. wp_step. wp_step.
  set (r := hd 0%nat (entropy g)).
  assert (below (length colorPairs - 1) r < 4)%nat as Hr
    by (apply below_lt; simpl; lia).
  destruct (below (length colorPairs - 1) r) as [|[|[|[|?]]]]; [..|lia];
    simpl; (apply HQ; [same_solve|done|done]).
Qed.

Lemma handColors_not_NONE h : Forall (λ c, c ≠ Color.NONE) (handColors h).
Proof.
  unfold handColors.
  assert (∀ acc, Forall (λ c, c ≠ Color.NONE) acc →
    Forall (λ c, c ≠ Color.NONE)
      (foldl (λ acc el,
                if negb (color el =? Color.NONE)
                   && negb (bool_decide (color el ∈ acc))
                then acc ++ [color el] else acc) acc h)) as Hgen.
  { induction h as [|el h IH]; intros acc Hacc; simpl; [done|].
    apply IH. destruct (color el =? Color.NONE) eqn:Hc; simpl; [done|].
    destruct (bool_decide _); simpl; [done|].
    apply Forall_app. split; [done|]. apply Forall_singleton.
    by apply Z.eqb_neq. }
  by apply Hgen.
Qed.

Lemma scanHand_wp i h (Q : option nat → Game → Prop) E g :
  (∀ sel, Q sel g) → E g → wp (scanHand i h) Q E g.
Proof.
  intros HQ HE. induction i as [|j IH]; simpl; [by apply HQ|].
  wp_step. wp_step. destruct (h !! j) as [card|]; [|done].
  wp_step. unfold checkCardTop.
  destruct (hasEffect (face card) CardFace.WILD_EFFECT); [wp_run; by apply HQ|].
  wp_step. wp_step. wp_step. wp_step.
  destruct (topCard g); [|done]. wp_step.
  destruct (checkCard card c); [wp_step; by apply HQ|done].
Qed.

Lemma parseToCard_wp text (Q : option Card → Game → Prop) E g :
  (∀ parsed, Q parsed g) → E g → wp (parseToCard text) Q E g.
Proof.
  intros HQ HE. unfold parseToCard.
  destruct (faceMatch text) as [|? [|]]; try by apply wp_ret.
  destruct (colorMatch text) as [|? [|]]; wp_run; done.
Qed.


Lemma forEach_wp {A} (I : Game → Prop) (l : list A) (f : A → Act unit) g :
  (∀ x g, I g → wp (f x) (λ _, I) I g) → I g →
  wp (forEach l f) (λ _, I) I g.
Proof.
  intros Hf. revert g. induction l as [|x l IH]; intros g Hg; simpl.
  - by apply wp_ret.
  - wp_step. eapply wp_mono; [by apply Hf| |done]. intros [] g'. apply IH.
Qed.

Lemma drawName_wp more names (Q : string → Game → Prop) E g :
  (∀ name g', same g g' → turn g' = turn g → effects g' = effects g →
              name ∈ npcNames → name ∉ names → Q name g') →
  (∀ g', same g g' → E g') →
  wp (drawName more names) Q E g.
Proof.
  revert g. induction more as [|more IH]; intros g HQ HE; cbn [drawName];
    wp_step; wp_step; wp_step; wp_step;
    (destruct (npcNames !! _) as [name|] eqn:Hname;
       [|by apply HE; same_solve]);
    (case_bool_decide as Hin;
       [|wp_step; apply HQ; [same_solve|done|done| |done];
         by eapply list_elem_of_lookup_2]).
  - apply wp_throw, HE. same_solve.
  - apply IH.
    + intros nm g' (?&?&?&?&?&?&?) ? ? ? ?.
      apply HQ; first [done|same_solve].
    + intros g' (?&?&?&?&?&?&?). apply HE; first [done|same_solve].
Qed.

(** [addNPCs] keeps what a change of the samples keeps and what a player
    who joins with an empty hand, while there is room, keeps. *)
Lemma addNPCs_keeps (I : Game → Prop) num g :
  (∀ g g', same g g' → I g → I g') →
  (∀ g name, I g → (length (players g) < maxPlayerCount)%nat →
             I (setPlayers (players g ++ [newNPC name None]) g)) →
  I g → wp (addNPCs num) (λ _, I) I g.
Proof.
  intros Hsame Hjoin Hg. unfold addNPCs. wp_step.
  apply (wp_mono _ (λ _, I) _ I); [|by intros; wp_step|done].
  generalize 0%nat as i. revert g Hg.
  induction maxPlayerCount as [|rounds IH] at 1; intros g Hg i;
    cbn [addRounds]; wp_step; wp_step;
    (destruct (belowNum i num); [|by apply wp_ret]); cbn [andb];
    (case_bool_decide as Hroom; [|by apply wp_ret]); [by apply wp_ret|].
  wp_step. apply drawName_wp.
  - intros name g' Hs _ _ _ _. wp_step. wp_step. apply IH.
    apply Hjoin; [by apply (Hsame g)|]. by destruct Hs as [-> _].
  - intros g' Hs. by apply (Hsame g).
Qed.

(** A wild card is played with a colour: what the first half of [playCard]
    hands over to the second half for the card it selects. *)
Definition pickOk (color : option Z) (card : Card) : Prop :=
  isWild card = true → ∃ c, color = Some c ∧ c ≠ Color.NONE.

(** The array that [playCard] calls [hand]. *)
Definition currentHand (g : Game) : option (list Card) :=
  if bool_decide (turn g = -1) then Some (discarded g)
  else hand <$> item (players g) (turn g).

(** ** Preservation of a property of the cards

    [P] is a property of the hands, the pool and the top card that every
    movement of cards that the engine makes preserves ([Moves P]); then
    every operation preserves it, and it holds in every state of a game in
    which the timers fire in time: the hands are empty whenever the game is
    in the lobby, and [startGame] empties only empty hands.  The instances
    below are the conservation of the cards and the colours of the wild
    cards. *)
Class Moves (P : list (list Card) → list Card → option Card → Prop) : Prop := {
  (** Cards go from the pool to a hand. *)
  P_draw : ∀ hs pool top i h taken pool' h',
    P hs pool top → hs !! i = Some h → taken ++ pool' ≡ₚ pool →
    h' ≡ₚ (resetWild <$> taken) ++ h →
    P (<[i:=h']> hs) pool' top;
  (** A card goes from a hand to the top, the top card to the pool. *)
  P_play : ∀ hs pool top i h selected card color,
    P hs pool top → hs !! i = Some h → h !! selected = Some card →
    pickOk color card →
    P (<[i:=delete selected h]> hs) (pool ++ option_list top)
      (Some (paint color card));
  (** A card goes from the pool to the top, the top card to the pool. *)
  P_first : ∀ hs pool top selected card color,
    P hs pool top → pool !! selected = Some card → pickOk color card →
    P hs (delete selected pool ++ option_list top) (Some (paint color card));
  (** The top card goes to the pool and no card replaces it. *)
  P_miss : ∀ hs pool top,
    P hs pool top → P hs (pool ++ option_list top) None;
  (** All hands go to the pool. *)
  P_end : ∀ hs pool top,
    P hs pool top → P ((λ _, []) <$> hs) (pool ++ concat hs) top;
  (** A hand goes to the pool and leaves the game. *)
  P_remove : ∀ hs pool top i h,
    P hs pool top → hs !! i = Some h → P (delete i hs) (pool ++ h) top;
  (** Empty hands come and go. *)
  P_empty : ∀ hs hs' pool top,
    P hs pool top → Forall (λ h, h = []) hs → Forall (λ h, h = []) hs' →
    P hs' pool top
}.

Section preservation.
Context (P : list (list Card) → list Card → option Card → Prop).
Context `{!Moves P}.

Definition holds (g : Game) : Prop := P (hands g) (discarded g) (topCard g).

Lemma holds_same g g' : same g g' → holds g → holds g'.
Proof. unfold holds, hands. by intros (-> & -> & -> & _). Qed.

(** [stays g g']: the game is as far on in [g'] as in [g], with as many
    players, and the property holds. *)
Definition stays (g g' : Game) : Prop :=
  holds g' ∧ started g' = started g
  ∧ length (players g') = length (players g).

Lemma stays_mild g0 g g' : mild g g' → stays g0 g → stays g0 g'.
Proof.
  intros (Hh & Hd & Ht & Hst' & Hlen') (H & Hst & Hlen). split_and!.
  - unfold holds in *. by rewrite Hh, Hd, Ht.
  - congruence.
  - congruence.
Qed.

Lemma stays_same g0 g g' : same g g' → stays g0 g → stays g0 g'.
Proof. intros Hs. by apply stays_mild, same_mild. Qed.

Lemma drawCards_wp num silent (Q : unit → Game → Prop) E g0 g p :
  item (players g) (turn g) = Some p →
  stays g0 g →
  (∀ g', stays g0 g' → turn g' = turn g → previousTurn g' = previousTurn g →
         direction g' = direction g → maker g' = maker g → Q tt g') →
  wp (drawCards num silent) Q E g.
Proof.
  intros Hp (Hg & Hst & Hlen) HQ.
  destruct (drawCards_Ok num silent g p Hp)
    as (taken & pool' & rs' & Heq & Hperm & Hsub & Htaken).
  cbv zeta in Heq. unfold wp. rewrite Heq.
  apply item_Some in Hp as [Hi Hp].
  apply HQ; try done. split_and!; simpl.
  - unfold holds, hands. simpl. rewrite list_fmap_insert. simpl.
    eapply P_draw; [apply Hg| |done|apply drawnHand_Permutation].
    by rewrite list_lookup_fmap, Hp.
  - done.
  - by rewrite length_insert.
Qed.

Lemma drawAndSkip_wp num (Q : unit → Game → Prop) E g0 g p :
  item (players g) (turn g) = Some p →
  stays g0 g →
  (∀ g', stays g0 g' → Q tt g') → (∀ g', stays g0 g' → E g') →
  wp (drawAndSkip num) Q E g.
Proof.
  intros Hp Hg HQ HE. unfold drawAndSkip. wp_step.
  eapply drawCards_wp; [done..|]. intros g1 Hg1 _ _ _ _.
  apply nextTurn_wp.
  - intros g2 Hg2 _. eapply HQ, stays_same; done.
  - intros g2 Hg2. eapply HE, stays_same; done.
Qed.

Lemma callUno_wp caller (Q : unit → Game → Prop) E g0 g :
  stays g0 g →
  (∀ g', stays g0 g' → Q tt g') → (∀ g', stays g0 g' → E g') →
  wp (callUno caller) Q E g.
Proof.
  intros Hg HQ HE. unfold callUno.
  wp_run;
    try (first [apply HQ | apply HE];
         (eapply stays_mild; [|exact Hg]); mild_solve).
  all: eapply drawCards_wp; [game_simpl; eassumption| |].
  all: try ((eapply stays_mild; [|exact Hg]); mild_solve).
  all: intros g' Hg' _ _ _ _; wp_run;
    apply HQ; (eapply stays_mild; [|exact Hg']); mild_solve.
Qed.
Definition lobbyOk (g : Game) : Prop :=
  started g = false → Forall (λ h, h = []) (hands g).

Lemma foldl_hands (ps : list Player) : ∀ d,
  foldl (λ d p, d ++ hand p) d ps = d ++ concat (hand <$> ps).
Proof.
  induction ps as [|p ps IH]; intros d; simpl.
  - by rewrite app_nil_r.
  - by rewrite IH, app_assoc.
Qed.

Lemma hands_clear (ps : list Player) :
  hand <$> (setHand [] <$> ps) = (λ _, []) <$> (hand <$> ps).
Proof. induction ps; simpl; by f_equal. Qed.

Lemma endGame_wp (Q : unit → Game → Prop) E g :
  holds g →
  (∀ g', holds g' → started g' = false → Forall (λ h, h = []) (hands g') →
         length (players g') = length (players g) → Q tt g') →
  wp endGame Q E g.
Proof.
  intros Hg HQ. unfold endGame. wp_run. apply HQ; game_simpl.
  - unfold holds, hands. game_simpl. rewrite foldl_hands, hands_clear.
    by apply P_end.
  - done.
  - unfold hands. game_simpl. rewrite hands_clear. apply Forall_fmap.
    by apply Forall_true.
  - by rewrite length_fmap.
Qed.

Definition ends (g0 g : Game) : Prop :=
  holds g ∧ (started g0 = true → lobbyOk g).

Lemma stays_ends g0 g : stays g0 g → ends g0 g.
Proof.
  intros (H & Hst & _). split; [done|]. intros H0 H1. congruence.
Qed.

Lemma takeCard_wp selected color (Q : Card → Game → Prop) E g0 g :
  stays g0 g →
  (∀ h card, currentHand g = Some h → h !! selected = Some card →
             pickOk color card) →
  (∀ card g', stays g0 g' → Q card g') → (∀ g', stays g0 g' → E g') →
  wp (takeCard selected color) Q E g.
Proof.
  intros (Hg & Hst & Hlen) Hpick HQ HE. unfold takeCard. wp_step. wp_step.
  unfold currentHand in Hpick.
  destruct (bool_decide (turn g = -1)) eqn:Hfirst.
  - pose proof (λ card, Hpick _ card eq_refl) as Hpick'. clear Hpick.
    assert (∀ g1, players g1 = players g → started g1 = started g →
              topCard g1 = topCard g →
              discarded g1 = delete selected (discarded g)
                             ++ option_list (topCard g) →
              wp (modify (setTopCard (discarded g !! selected));;
                  card <- the (discarded g !! selected);
                  modify (setTopCard (Some (paint color card)));;
                  ret (paint color card)) Q E g1) as Htail.
    { intros g1 Hps Hs Ht Hd. wp_run.
      - apply HQ. split_and!; game_simpl; [|congruence..].
        unfold holds, hands. game_simpl. rewrite Hps, Hd.
        by apply P_first; [| |apply Hpick'].
      - apply HE. split_and!; game_simpl; [|congruence..].
        unfold holds, hands. game_simpl. rewrite Hps, Hd.
        rewrite delete_None by done.
        by apply P_miss. }
    wp_run; apply Htail; game_simpl; try done.
    all: by (simpl; rewrite app_nil_r).
  - wp_step. wp_step.
    destruct (item (players g) (turn g)) as [p|] eqn:Hp;
      [|by apply HE].
    pose proof (λ card, Hpick _ card eq_refl) as Hpick'. clear Hpick.
    apply item_Some in Hp as [Hi Hp].
    assert (∀ g1, hands g1 = <[Z.to_nat (turn g) := delete selected (hand p)]> (hands g) →
              length (players g1) = length (players g) →
              started g1 = started g →
              topCard g1 = topCard g →
              discarded g1 = discarded g ++ option_list (topCard g) →
              wp (modify (setTopCard (hand p !! selected));;
                  card <- the (hand p !! selected);
                  modify (setTopCard (Some (paint color card)));;
                  ret (paint color card)) Q E g1) as Htail.
    { intros g1 Hps Hl Hs Ht Hd. wp_run.
      - apply HQ. split_and!; game_simpl; [|congruence..].
        unfold holds. game_simpl. change (hands g1) with (hands g1). 
        unfold hands in Hps |- *. game_simpl. rewrite Hps, Hd.
        eapply P_play; [done| |done|by apply Hpick'].
        by rewrite list_lookup_fmap, Hp.
      - apply HE. split_and!; game_simpl; [|congruence..].
        unfold holds. unfold hands in Hps |- *. game_simpl. rewrite Hps, Hd.
        rewrite delete_None by done.
        rewrite list_insert_id by by rewrite list_lookup_fmap, Hp.
        by apply P_miss. }
    wp_run; apply Htail; unfold hands; game_simpl;
      rewrite ?hands_alter_setHand, ?length_alter, <- ?list_insert_alter;
      try done.
    all: by (simpl; rewrite app_nil_r).
Qed.



Lemma resolve_wp card (Q : bool → Game → Prop) E g0 g :
  stays g0 g →
  (∀ b g', ends g0 g' → Q b g') → (∀ g', ends g0 g' → E g') →
  wp (resolve card) Q E g.
Proof.
  intros Hg HQ HE. unfold resolve. wp_step. wp_step. wp_step.
  assert (∀ g1, stays g0 g1 →
    wp (modify (setPreviousTurn (turn g));;
        skipping <- (if hasEffect (face card) CardFace.REVERSE_EFFECT then
                       modify (λ g, setDirection (direction g * -1) g);;
                       ret (bool_decide (length (players g) = 2%nat))
                     else ret false);
        let skip := skipping || hasEffect (face card) CardFace.SKIP_EFFECT in
        nextTurn skip;;
        when (hasEffect (face card) CardFace.DRAW_TWO_EFFECT)
          (drawCards 2 false);;
        when (hasEffect (face card) CardFace.DRAW_FOUR_EFFECT)
          (drawCards 4 false);;
        when skip (nextTurn false);;
        ret false) Q E g1) as Hgo.
  { intros g1 Hg1. wp_step. wp_step. wp_step.
    set (g2 := setPreviousTurn _ g1).
    assert (stays g0 g2) as Hg2 by (eapply stays_mild; [|exact Hg1]; mild_solve).
    clearbody g2.
    assert (∀ skipping g3, stays g0 g3 →
      wp (let skip := skipping || hasEffect (face card) CardFace.SKIP_EFFECT in
          nextTurn skip;;
          when (hasEffect (face card) CardFace.DRAW_TWO_EFFECT)
            (drawCards 2 false);;
          when (hasEffect (face card) CardFace.DRAW_FOUR_EFFECT)
            (drawCards 4 false);;
          when skip (nextTurn false);;
          ret false) Q E g3) as Hgo.
    { intros skipping g3 Hg3. cbv zeta. wp_step. apply nextTurn_wp.
      2:{ intros g4 Hg4. eapply HE, stays_ends, stays_same; done. }
      intros g4 Hs4 [p4 Hp4]. pose proof (stays_same _ _ _ Hs4 Hg3) as Hg4.
      wp_step.
      assert (∀ g5, stays g0 g5 →
        wp (when (skipping || hasEffect (face card) CardFace.SKIP_EFFECT)
              (nextTurn false);; ret false) Q E g5) as Hlast.
      { intros g5 Hg5. wp_step. unfold when.
        destruct (_ || _); [|wp_run; by apply HQ, stays_ends].
        apply nextTurn_wp.
        - intros g6 Hs6 _. wp_run. eapply HQ, stays_ends, stays_same; done.
        - intros g6 Hs6. eapply HE, stays_ends, stays_same; done. }
      assert (∀ g5 p5, stays g0 g5 → item (players g5) (turn g5) = Some p5 →
        wp (when (hasEffect (face card) CardFace.DRAW_FOUR_EFFECT)
              (drawCards 4 false);;
            when (skipping || hasEffect (face card) CardFace.SKIP_EFFECT)
              (nextTurn false);; ret false) Q E g5) as Hfour.
      { intros g5 p5 Hg5 Hp5. wp_step. unfold when at 1.
        destruct (hasEffect _ CardFace.DRAW_FOUR_EFFECT);
          [|wp_step; by apply Hlast].
        eapply drawCards_wp; [done..|]. intros g6 Hg6 _ _ _ _.
        by apply Hlast. }
      unfold when at 1.
      destruct (hasEffect _ CardFace.DRAW_TWO_EFFECT);
        [|wp_step; by eapply Hfour].
      eapply drawCards_wp; [done..|]. intros g5 Hg5 Ht5 _ _ _.
      destruct Hg5 as (H5 & Hst5 & Hl5). destruct Hg4 as (H4 & Hst4 & Hl4).
      destruct (item_is_Some (players g5) (turn g5)) as [p5 Hp5].
      { rewrite Ht5, Hl5, <- Hl4. by eapply item_lt. }
      by eapply Hfour. }
    destruct (hasEffect _ CardFace.REVERSE_EFFECT);
      [do 3 wp_step|do 1 wp_step]; apply Hgo;
      (eapply stays_mild; [|exact Hg2]); mild_solve. }
  assert (∀ left g1, stays g0 g1 → players g1 = players g →
    wp (if bool_decide (left = 0%nat) then
          p <- the (item (players g) (turn g));
          emit (GroupSend (Winner (mention p)));;
          when (npc p) endGame;;
          ret true
        else
          modify (setPreviousTurn (turn g));;
          skipping <- (if hasEffect (face card) CardFace.REVERSE_EFFECT then
                         modify (λ g, setDirection (direction g * -1) g);;
                         ret (bool_decide (length (players g) = 2%nat))
                       else ret false);
          let skip := skipping || hasEffect (face card) CardFace.SKIP_EFFECT in
          nextTurn skip;;
          when (hasEffect (face card) CardFace.DRAW_TWO_EFFECT)
            (drawCards 2 false);;
          when (hasEffect (face card) CardFace.DRAW_FOUR_EFFECT)
            (drawCards 4 false);;
          when skip (nextTurn false);;
          ret false) Q E g1) as Hrest.
  { intros left g1 Hg1 Hps.
    destruct (bool_decide (left = 0%nat)); [|by apply Hgo].
    wp_step. wp_step.
    destruct (item (players g) (turn g)) as [p|]; [|by apply HE, stays_ends].
    wp_step. wp_step. wp_step. unfold when.
    set (g2 := setEffects _ g1).
    assert (stays g0 g2) as Hg2
      by (eapply stays_mild; [|exact Hg1]; mild_solve).
    clearbody g2.
    destruct (npc p); [|wp_run; by apply HQ, stays_ends].
    apply endGame_wp; [apply Hg2|]. intros g3 Hg3 Hst3 Hh3 _.
    wp_run. apply HQ. split; [done|]. by intros _ _. }
  apply (wp_mono _ (λ left g', g' = g) _ (λ g', g' = g)).
  - wp_run; done.
  - intros left g' ->. wp_step.
    apply (wp_mono _ (λ _ g', stays g0 g' ∧ players g' = players g) _
             (λ g', stays g0 g')).
    + wp_run; try done;
        (split; [|done]); (eapply stays_mild; [|exact Hg]); mild_solve.
    + intros _ g' [? ?]. by apply Hrest.
    + intros g' ?. by apply HE, stays_ends.
  - intros g' ->. by apply HE, stays_ends.
Qed.



(** What [select] promises about the card that it picks. *)
Definition picked (sel : Selection) (g : Game) : Prop :=
  match sel with
  | Stop _ => True
  | Pick i c =>
      ∀ h card, currentHand g = Some h → h !! i = Some card → pickOk c card
  end.

Lemma selectFirst_wp (Q : Selection → Game → Prop) E g0 g :
  stays g0 g → turn g = -1 →
  (∀ sel g', stays g0 g' → picked sel g' → Q sel g') →
  (∀ g', stays g0 g' → E g') →
  wp selectFirst Q E g.
Proof.
  intros Hg Ht HQ HE. unfold selectFirst. wp_step. wp_step. wp_step.
  wp_step. cbv zeta. wp_step. wp_step. game_simpl.
  set (g1 := setEntropy _ g).
  assert (same g g1) as Hs by same_solve.
  assert (turn g1 = -1) as Ht1 by done.
  assert (discarded g1 = discarded g) as Hd by done.
  clearbody g1.
  destruct (discarded g !! _) as [card|] eqn:Hcard;
    [|eapply HE, stays_same; done].
  game_simpl.
  destruct (hasEffect (face card) CardFace.WILD_EFFECT) eqn:Hw.
  - wp_step. apply randomColor_wp. intros c g2 Hs2 Ht2 Hc. wp_step.
    apply HQ; [eapply stays_same, stays_same; done|].
    intros h card'. unfold currentHand.
    rewrite bool_decide_eq_true_2 by congruence.
    intros [= <-]. destruct Hs2 as (_ & -> & _). rewrite Hd, Hcard.
    intros [= <-] _. eauto.
  - wp_step. apply HQ; [eapply stays_same; done|].
    intros h card'. unfold currentHand.
    rewrite bool_decide_eq_true_2 by congruence.
    intros [= <-]. rewrite Hd, Hcard.
    intros [= <-]. unfold pickOk, isWild. congruence.
Qed.

Lemma selectNPC_wp text p (Q : Selection → Game → Prop) E g0 g :
  stays g0 g → turn g ≠ -1 → item (players g) (turn g) = Some p →
  (∀ sel g', stays g0 g' → picked sel g' → Q sel g') →
  (∀ g', stays g0 g' → E g') →
  wp (selectNPC text p) Q E g.
Proof.
  intros Hg Ht Hp HQ HE. unfold selectNPC. wp_step.
  apply (wp_mono _ (λ _ g', same g g' ∧ turn g' = turn g) _ (λ g', g' = g)).
  { unfold catchPrevious. wp_run; try done; split; first [same_solve|done]. }
  2:{ intros g' ->. by apply HE. }
  intros catch g1 [Hs1 Ht1]. pose proof (stays_same _ _ _ Hs1 Hg) as Hg1.
  assert (item (players g1) (turn g1) = Some p) as Hp1.
  { destruct Hs1 as (-> & _). by rewrite Ht1. }
  destruct catch.
  { wp_step. eapply callUno_wp; [exact Hg1| |exact HE]. intros g2 Hg2.
    wp_run. apply HQ; [|done]. eapply stays_mild; [|exact Hg2]. mild_solve. }
  wp_step. apply scanHand_wp; [|by apply HE]. intros [selected|].
  2:{ wp_step. eapply drawAndSkip_wp; [exact Hp1|exact Hg1| |exact HE].
      intros g2 Hg2. wp_step. by apply HQ. }
  wp_step. wp_step. destruct (hand p !! selected) as [card|] eqn:Hcard;
    [|by apply HE].
  game_simpl. wp_step.
  assert (∀ color g2, same g1 g2 → turn g2 = turn g1 → pickOk color card →
    wp (when (bool_decide (length (hand p) = 2%nat))
          (r <- random;
           when (atMost r (probCallUno p))
             (emit (SetTimeout (CbCallUno (id p)) (delayCallUno p))));;
        ret (Pick selected color)) Q E g2) as Hlast.
  { intros color g2 Hs2 Ht2 Hpick. wp_step.
    apply (wp_mono _ (λ _ g', same g2 g' ∧ turn g' = turn g2) _
             (λ _, False)).
    - wp_run; split; first [same_solve|done].
    - intros _ g3 [Hs3 Ht3]. wp_step.
      apply HQ; [eapply stays_same, stays_same; done|].
      intros h card'. unfold currentHand.
      rewrite bool_decide_eq_false_2 by congruence.
      destruct Hs3 as (-> & _). destruct Hs2 as (-> & _).
      rewrite Ht3, Ht2, Hp1. simpl. intros [= <-]. rewrite Hcard.
      by intros [= <-].
    - by intros ? []. }
  destruct (hasEffect (face card) CardFace.WILD_EFFECT) eqn:Hw.
  2:{ wp_step. apply Hlast; [apply same_refl|done|].
      unfold pickOk, isWild. congruence. }
  pose proof (handColors_not_NONE (hand p)) as Hcs.
  destruct (handColors (hand p)) as [|c0 cs] eqn:Hcolors.
  - wp_step. apply randomColor_wp. intros c g2 Hs2 Ht2 Hc. wp_step.
    apply Hlast; [done..|]. intros _. eauto.
  - wp_step. wp_step. wp_step. wp_step.
    destruct ((c0 :: cs) !! _) as [c|] eqn:Hc;
      [|eapply HE, stays_same; [|exact Hg1]; same_solve].
    game_simpl. wp_step. apply Hlast; [same_solve|done|]. intros _. exists c.
    split; [done|]. eapply Forall_lookup_1 in Hcs; [|exact Hc]. done.
Qed.


Lemma selectHuman_wp text p (Q : Selection → Game → Prop) E g0 g :
  stays g0 g → turn g ≠ -1 → item (players g) (turn g) = Some p →
  (∀ sel g', stays g0 g' → picked sel g' → Q sel g') →
  (∀ g', stays g0 g' → E g') →
  wp (selectHuman text p) Q E g.
Proof.
  intros Hg Ht Hp HQ HE. unfold selectHuman.
  assert (∀ m, wp (emit (GroupSend m);; ret (Stop false)) Q E g) as Hstop.
  { intros m. wp_run. apply HQ; [|done].
    eapply stays_mild; [|exact Hg]. mild_solve. }
  destruct text as [text|]; [|by apply Hstop].
  destruct (blank text); [by apply Hstop|].
  wp_step. apply parseToCard_wp; [|by apply HE].
  intros [parsed|]; [|by apply Hstop].
  destruct (hasEffect (face parsed) CardFace.WILD_EFFECT
            && bool_decide (color parsed = Color.NONE)) eqn:Hnone;
    [by apply Hstop|].
  wp_step. wp_step. wp_step. wp_step.
  destruct (topCard g) as [top|]; [|by apply HE]. game_simpl.
  destruct (negb (playable parsed top)); [by apply Hstop|].
  destruct (list_find _ (hand p)) as [[selected el]|] eqn:Hfind;
    [|by apply Hstop].
  wp_step. apply HQ; [done|].
  intros h card. unfold currentHand.
  rewrite bool_decide_eq_false_2, Hp by done. simpl. intros [= <-].
  apply list_find_Some in Hfind as (Hel & [Hface Hcol] & _).
  rewrite Hel. intros [= <-]. unfold pickOk, isWild. rewrite <- Hface.
  intros Hw. rewrite Hw in Hnone |- *. simpl in Hnone.
  apply bool_decide_eq_false in Hnone. eauto.
Qed.

Lemma select_wp text (Q : Selection → Game → Prop) E g0 g :
  stays g0 g →
  (∀ sel g', stays g0 g' → picked sel g' → Q sel g') →
  (∀ g', stays g0 g' → E g') →
  wp (select text) Q E g.
Proof.
  intros Hg HQ HE. unfold select. wp_step. wp_step.
  case_bool_decide as Ht; [by eapply selectFirst_wp|].
  wp_step. wp_step.
  destruct (item (players g) (turn g)) as [p|] eqn:Hp; [|by apply HE].
  destruct (npc p); [by eapply selectNPC_wp|by eapply selectHuman_wp].
Qed.

Lemma playCard_wp text (Q : bool → Game → Prop) E g0 g :
  stays g0 g →
  (∀ b g', ends g0 g' → Q b g') → (∀ g', ends g0 g' → E g') →
  wp (playCard text) Q E g.
Proof.
  intros Hg HQ HE. unfold playCard. wp_step.
  eapply select_wp; [exact Hg| |].
  - intros [b|selected color] g1 Hg1 Hpick.
    + wp_step. by apply HQ, stays_ends.
    + unfold commit. wp_step.
      eapply takeCard_wp; [exact Hg1|exact Hpick| |].
      * intros card g2 Hg2. by eapply resolve_wp.
      * intros g2 Hg2. by apply HE, stays_ends.
  - intros g1 Hg1. by apply HE, stays_ends.
Qed.


(** *** Removing players *)

Definition empty (hs : list (list Card)) : Prop := Forall (λ h, h = []) hs.

(** [rests g0 g]: the property holds in [g], which is started if [g0] is,
    and the hands are empty in [g] if they are in [g0]. *)
Definition rests (g0 g : Game) : Prop :=
  holds g ∧ started g = started g0 ∧ (empty (hands g0) → empty (hands g)).

Lemma rests_same g0 g g' : same g g' → rests g0 g → rests g0 g'.
Proof.
  intros Hs (H & Hst & He). split; [by eapply holds_same|].
  destruct Hs as (Hps & _ & _ & Hst' & _). unfold hands. rewrite Hps.
  split; [congruence|done].
Qed.

Lemma removePlayer_wp p (Q : unit → Game → Prop) E g0 g :
  rests g0 g →
  (∀ g', rests g0 g' → Q tt g') → (∀ g', rests g0 g' → E g') →
  wp (removePlayer p) Q E g.
Proof.
  intros Hg HQ HE. unfold removePlayer.
  destruct (bool_decide (_ = EmptyString)); [by apply wp_ret, HQ|].
  wp_step. wp_step.
  destruct (_ || _); [by apply wp_ret, HQ|].
  destruct (list_find _ (players g)) as [[index gone]|] eqn:Hfind;
    [|by apply wp_ret, HQ].
  apply list_find_Some in Hfind as (Hgone & _ & _).
  wp_step. wp_step. wp_step. wp_step. game_simpl.
  set (g1 := setPlayers _ _).
  assert (rests g0 g1) as Hg1.
  { destruct Hg as (H & Hst & He). subst g1. split_and!; game_simpl.
    - unfold holds, hands. game_simpl. rewrite list_fmap_delete.
      apply P_remove; [done|]. by rewrite list_lookup_fmap, Hgone.
    - done.
    - intros H0. unfold hands. game_simpl. rewrite list_fmap_delete.
      by apply Forall_delete, He. }
  clearbody g1. unfold when. destruct (bool_decide _); [|by apply wp_ret, HQ].
  apply nextTurn_wp.
  - intros g2 Hs _. eapply HQ, rests_same; done.
  - intros g2 Hs. eapply HE, rests_same; done.
Qed.

Lemma kick_wp ids (Q : unit → Game → Prop) E g0 g :
  rests g0 g →
  (∀ g', rests g0 g' → Q tt g') → (∀ g', rests g0 g' → E g') →
  wp (kick ids) Q E g.
Proof.
  intros Hg HQ HE. unfold kick. wp_step. wp_step.
  eapply wp_mono; [apply (forEach_wp (rests g0))|..]; try done.
  - intros el g1 Hg1. unfold when.
    destruct (negb _); [|by apply wp_ret]. by eapply removePlayer_wp.
  - intros [] g' ?. by apply HQ.
Qed.

(** *** The lobby *)

Definition lobby (g : Game) : Prop :=
  holds g ∧ started g = false ∧ empty (hands g).

Lemma lobby_players g ps :
  lobby g → empty (hand <$> ps) → lobby (setPlayers ps g).
Proof.
  intros (H & Hst & He) Hps. split_and!; [|done..].
  unfold holds, hands. game_simpl. by eapply P_empty.
Qed.

Lemma empty_app hs hs' : empty hs → empty hs' → empty (hs ++ hs').
Proof. intros. by apply Forall_app. Qed.

Lemma addPlayer_wp m g :
  lobby g → wp (addPlayer m) (λ _, lobby) lobby g.
Proof.
  intros Hg. unfold addPlayer. wp_step. wp_step.
  case_bool_decide; [by apply wp_ret|]. wp_run.
  apply lobby_players; [done|]. rewrite fmap_app.
  apply empty_app; [apply Hg|]. apply Forall_singleton.
  by destruct (memberBot m).
Qed.

Lemma addNPCs_wp num g :
  lobby g → wp (addNPCs num) (λ _, lobby) lobby g.
Proof.
  apply addNPCs_keeps.
  - intros g1 g2 Hs (Hh & Hst & He). split_and!.
    + by apply (holds_same g1).
    + destruct Hs as (_ & _ & _ & -> & _). done.
    + unfold hands. by destruct Hs as (-> & _).
  - intros g1 name Hg1 _.
    apply lobby_players; [done|]. rewrite fmap_app.
    apply empty_app; [apply Hg1|]. by apply Forall_singleton.
Qed.

Lemma spliceNPCs_sublist num : ∀ ps, spliceNPCs num ps `sublist_of` ps.
Proof.
  intros ps. revert num. induction ps as [|p ps IH]; intros num; simpl;
    [done|].
  destruct num as [|j]; [done|].
  destruct (npc p && negb (bot p)).
  - by apply sublist_cons.
  - by apply sublist_skip.
Qed.

Lemma removeNPCs_wp num g :
  lobby g → wp (removeNPCs num) (λ _, lobby) lobby g.
Proof.
  intros Hg. unfold removeNPCs. wp_step.
  apply lobby_players; [done|].
  destruct Hg as (_ & _ & He). apply Forall_forall. intros h Hh.
  apply (proj1 (Forall_forall _ _) He).
  eapply elem_of_sublist; [exact Hh|].
  apply fmap_sublist, spliceNPCs_sublist.
Qed.


(** *** Dealing *)

(** The invariant of the dealing loop: the property holds and the
    players from the [i]th on have an empty hand. *)
Definition dealing (n i : nat) (g : Game) : Prop :=
  holds g ∧ length (players g) = n
  ∧ ∀ j h, (i ≤ j)%nat → hands g !! j = Some h → h = [].

Lemma setHand_same p : setHand (hand p) p = p.
Proof. by destruct p. Qed.

Lemma deal_wp n i g :
  dealing n i g → (i < n)%nat →
  wp (deal i) (λ _, dealing n (S i)) (λ _, False) g.
Proof.
  intros (Hg & Hn & He) Hi. unfold deal. wp_step. wp_step. wp_step.
  wp_step. game_simpl.
  destruct (lookup_lt_is_Some_2 (players g) i) as [p Hp]; [lia|].
  assert (hand p = []) as Hh.
  { apply (He i); [done|]. unfold hands. by rewrite list_lookup_fmap, Hp. }
  rewrite Nat2Z.id.
  rewrite (alter_insert _ _ _ _ Hp), <- Hh, setHand_same,
    (list_insert_id _ _ _ Hp).
  set (g1 := setPlayers _ _).
  assert (item (players g1) (turn g1) = Some p) as Hp1
    by (subst g1; game_simpl; by rewrite item_of_nat).
  destruct (drawCards_Ok 7 true g1 p Hp1)
    as (taken & pool' & rs' & Heq & Hperm & _ & _).
  cbv zeta in Heq. unfold wp. rewrite Heq. subst g1. game_simpl.
  rewrite Nat2Z.id. split_and!; game_simpl.
  - unfold holds, hands. game_simpl. rewrite list_fmap_insert. game_simpl.
    eapply P_draw; [exact Hg| |done|apply drawnHand_Permutation].
    by rewrite list_lookup_fmap, Hp.
  - by rewrite length_insert.
  - intros j h Hj. unfold hands. game_simpl.
    rewrite list_fmap_insert, list_lookup_insert_ne by lia.
    apply He. lia.
Qed.

Lemma dealAll_wp n k : ∀ i g,
  dealing n i g → (i + k ≤ n)%nat →
  wp (dealAll (seq i k)) (λ _ g', holds g' ∧ length (players g') = n)
    (λ _, False) g.
Proof.
  induction k as [|k IH]; intros i g Hg Hi; simpl.
  - apply wp_ret. split; apply Hg.
  - wp_step. eapply wp_mono; [apply (deal_wp n); [done|lia]| |done].
    intros [] g1 Hg1. apply IH; [done|lia].
Qed.

(** *** The collectors and the timers that fire in time *)

Definition inv (g : Game) : Prop := holds g ∧ lobbyOk g.

Lemma ends_inv g0 g : started g0 = true → ends g0 g → inv g.
Proof. intros Hst [H Hl]. split; auto. Qed.

Lemma stays_inv g0 g : started g0 = true → stays g0 g → inv g.
Proof. intros Hst Hg. by eapply ends_inv, stays_ends. Qed.

Lemma stays_refl g : holds g → stays g g.
Proof. by split. Qed.

Lemma rests_refl g : holds g → rests g g.
Proof. by split. Qed.

Lemma rests_inv g0 g : inv g0 → rests g0 g → inv g.
Proof.
  intros [_ Hl] (H & Hst & He). split; [done|]. intros Hs.
  apply He, Hl. congruence.
Qed.

Lemma lobby_inv g : lobby g → inv g.
Proof. intros (H & _ & He). split; [done|]. by intros _. Qed.

Lemma startGame_wp g : lobby g → wp startGame (λ _, inv) inv g.
Proof.
  intros (Hg & Hst & He). unfold startGame. wp_step. wp_step. wp_step.
  apply (wp_mono _ (λ _ g', holds g' ∧ length (players g') = length (players g))
           _ (λ _, False)); [| |by intros ? []].
  { apply dealAll_wp; [|lia]. split_and!; [done..|].
    intros j h _ Hj. eapply Forall_lookup_1 in He; done. }
  intros [] g1 [Hg1 _]. wp_step. wp_step. wp_step. wp_step. wp_step.
  wp_step. wp_step.
  set (g2 := setStarted _ _).
  assert (holds g2) as Hg2 by done.
  assert (started g2 = true) as Hst2 by done. clearbody g2.
  eapply playCard_wp; [by apply stays_refl|..].
  - intros b g3 Hg3. wp_step. by eapply ends_inv.
  - intros g3 Hg3. by eapply ends_inv.
Qed.

Lemma lobbyCollector_wp author cmd g :
  lobby g → wp (lobbyCollector author cmd) (λ _, inv) inv g.
Proof.
  intros Hg. pose proof (lobby_inv _ Hg) as Hi.
  assert (rests g g) as Hr by apply rests_refl, Hg.
  unfold lobbyCollector. wp_step. wp_step.
  destruct (negb _).
  - destruct cmd; try (by apply wp_ret).
    eapply removePlayer_wp; [done|..]; intros; by eapply rests_inv.
  - destruct cmd; try (by apply wp_ret).
    + unfold when. destruct (bool_decide _); [|by apply wp_ret].
      by apply startGame_wp.
    + eapply wp_mono; [apply (forEach_wp lobby)|..]; try done.
      * intros m g1 Hg1. wp_step.
        eapply wp_mono; [by apply addPlayer_wp|..]; [|done].
        intros ? g2 Hg2. by wp_step.
      * intros [] g1. apply lobby_inv.
      * apply lobby_inv.
    + wp_step. eapply wp_mono; [by apply addNPCs_wp|..].
      * intros ? g1 Hg1. wp_step. by apply lobby_inv.
      * apply lobby_inv.
    + eapply wp_mono; [by apply removeNPCs_wp|..].
      * intros [] g1. apply lobby_inv.
      * apply lobby_inv.
    + eapply kick_wp; [done|..]; intros; by eapply rests_inv.
Qed.

Lemma gameCollector_wp author cmd g :
  holds g → started g = true →
  wp (gameCollector author cmd) (λ _, inv) inv g.
Proof.
  intros Hg Hst.
  assert (inv g) as Hi by (split; [done|]; intros ?; congruence).
  assert (rests g g) as Hr by by apply rests_refl.
  assert (stays g g) as Hs by by apply stays_refl.
  assert (∀ cmd', (cmd' = Start ∨ (∃ ms, cmd' = Invite ms)
                   ∨ (∃ ns, cmd' = NpcAdd ns) ∨ (∃ k, cmd' = NpcRemove k)
                   ∨ cmd' = Leave ∨ (∃ t, cmd' = Play t) ∨ cmd' = Draw) →
    wp (if bool_decide (turn g < 0) then ret tt
        else
          p <- the (item (players g) (turn g));
          if negb (bool_decide (author = id p)) then ret tt
          else
            match cmd' with
            | Play text => over <- playCard text; when over endGame
            | Leave => removePlayer (ById author)
            | Draw =>
                drawAndSkip 1;;
                g <- get;
                top <- the (topCard g);
                emit (GroupSend (ShowCard top))
            | _ => ret tt
            end) (λ _, inv) inv g) as Hturn.
  { intros cmd' Hcmd. destruct (bool_decide (turn g < 0)); [by apply wp_ret|].
    wp_step. wp_step.
    destruct (item (players g) (turn g)) as [p|] eqn:Hp; [|done].
    destruct (negb _); [by apply wp_ret|].
    destruct Hcmd as [->|[[? ->]|[[? ->]|[[? ->]|[->|[[text ->]| ->]]]]]];
      try (by apply wp_ret).
    - eapply removePlayer_wp; [done|..]; intros; by eapply rests_inv.
    - wp_step. eapply playCard_wp; [done|..].
      + intros over g1 [Hg1 Hl1]. unfold when.
        destruct over; [|apply wp_ret; split; auto].
        apply endGame_wp; [done|]. intros g2 Hg2 _ He2 _.
        split; [done|]. by intros _.
      + intros g1 Hg1. by eapply ends_inv.
    - wp_step. eapply drawAndSkip_wp; [done..| |].
      + intros g1 Hg1. wp_run; by apply (stays_inv g).
      + intros; by eapply stays_inv. }
  unfold gameCollector. wp_step. wp_step.
  destruct cmd as [| |ms|ns|k|ids| |text|];
    [|apply (Hturn Start); eauto 10|apply (Hturn (Invite ms)); eauto 10
     |apply (Hturn (NpcAdd ns)); eauto 10
     |apply (Hturn (NpcRemove k)); eauto 10|
     |apply (Hturn Leave); eauto 10|apply (Hturn (Play text)); eauto 10
     |apply (Hturn Draw); eauto 10].
  - eapply callUno_wp; [done|..]; intros; by eapply stays_inv.
  - destruct (bool_decide (author = maker g)).
    + eapply kick_wp; [done|..]; intros; by eapply rests_inv.
    + unfold when. destruct (negb _); [|by apply wp_ret].
      wp_run; done.
Qed.

Lemma fire_wp cb g :
  inv g → inTime cb g = true → wp (fire cb) (λ _, inv) inv g.
Proof.
  intros Hi Ht. unfold fire. destruct cb; simpl in Ht.
  - apply andb_true_iff in Ht as [Hst _]. wp_step.
    eapply playCard_wp; [apply stays_refl, Hi|..].
    + intros b g1 Hg1. wp_step. by eapply ends_inv.
    + intros g1 Hg1. by eapply ends_inv.
  - eapply callUno_wp; [apply stays_refl, Hi|..]; intros;
      by eapply stays_inv.
  - by apply wp_ret.
Qed.

Lemma collect_wp author cmd g :
  inv g → wp (collect author cmd) (λ _, inv) inv g.
Proof.
  intros Hi. unfold collect. wp_step. wp_step.
  destruct (started g) eqn:Hst.
  - apply gameCollector_wp; [apply Hi|done].
  - apply lobbyCollector_wp. destruct Hi as [H Hl].
    split_and!; [done..|]. by apply Hl.
Qed.

Lemma handle_wp e g :
  inv g → timely e g = true → wp (handle e) (λ _, inv) inv g.
Proof.
  intros Hi Ht. destruct e as [author cmd|cb]; simpl.
  - by apply collect_wp.
  - by apply fire_wp.
Qed.

Lemma handle_inv e g :
  inv g → timely e g = true → inv (final (handle e g)).
Proof.
  intros Hi Ht. by apply (proj1 (wp_final (handle e) inv g)), handle_wp.
Qed.

Lemma newGame_inv memberList makerId samples :
  P [] getHand None → inv (newGame memberList makerId samples).
Proof.
  intros H0. unfold newGame. apply lobby_inv.
  assert (lobby (emptyGame makerId samples)) as Hl
    by (split_and!; [done|done|by apply Forall_nil]).
  revert Hl. generalize (emptyGame makerId samples).
  induction memberList as [|m ms IH]; intros g Hg; simpl; [done|].
  pose proof (addPlayer_wp m g Hg) as Hm. unfold wp in Hm. unfold bind.
  destruct (addPlayer m g) as [[] g1|g1]; simpl; auto.
Qed.

Theorem orderly_inv g : P [] getHand None → orderly g → inv g.
Proof.
  intros H0. induction 1; [by apply newGame_inv|by apply handle_inv].
Qed.

End preservation.

(** ** Conservation of the cards *)

(** What a card is, whatever its colour. *)
Definition ident (k : Card) : nat * Z := (cid k, face k).

(** The cards of hands, pool and top. *)
Definition cardsIn (hs : list (list Card)) (pool : list Card)
    (top : option Card) : list Card :=
  concat hs ++ pool ++ option_list top.

Definition allCards (g : Game) : list Card :=
  cardsIn (hands g) (discarded g) (topCard g).

(** The cards are the cards [M]. *)
Definition conserving (M : list (nat * Z)) (hs : list (list Card))
    (pool : list Card) (top : option Card) : Prop :=
  ident <$> cardsIn hs pool top ≡ₚ M.

Lemma ident_resetWild k : ident (resetWild k) = ident k.
Proof. unfold resetWild. by destruct (hasEffect _ _). Qed.

Lemma ident_paint color k : ident (paint color k) = ident k.
Proof. unfold paint. destruct color as [c|]; [|done]. by destruct (truthy c). Qed.

Lemma ident_resetWild_fmap (l : list Card) : ident <$> (resetWild <$> l) = ident <$> l.
Proof.
  rewrite <- list_fmap_compose. apply list_fmap_ext.
  intros ? k _. apply ident_resetWild.
Qed.

Lemma concat_lookup {A} (hs : list (list A)) i h :
  hs !! i = Some h → concat hs ≡ₚ h ++ concat (delete i hs).
Proof.
  intros Hh. rewrite <- (take_drop_middle hs i h Hh) at 1.
  rewrite delete_take_drop, !concat_app. simpl. solve_Permutation.
Qed.

Lemma concat_insert {A} (hs : list (list A)) i h h' :
  hs !! i = Some h → concat (<[i:=h']> hs) ≡ₚ h' ++ concat (delete i hs).
Proof.
  intros Hh. rewrite insert_take_drop by by eapply lookup_lt_Some.
  rewrite delete_take_drop, !concat_app. simpl. solve_Permutation.
Qed.

Lemma concat_empty {A} (hs : list (list A)) :
  Forall (λ h, h = []) hs → concat hs = [].
Proof. induction 1 as [|h hs -> _ IH]; simpl; done. Qed.

Global Instance conserving_moves M : Moves (conserving M).
Proof.
  unfold conserving, cardsIn. split.
  - intros hs pool top i h taken pool' h' H Hh Hperm Hh'.
    rewrite <- H, (concat_insert _ _ _ _ Hh), (concat_lookup _ _ _ Hh).
    rewrite Hh', <- Hperm, !fmap_app, ident_resetWild_fmap.
    solve_Permutation.
  - intros hs pool top i h selected card color H Hh Hcard _.
    rewrite <- H, (concat_insert _ _ _ _ Hh), (concat_lookup _ _ _ Hh).
    rewrite (delete_Permutation h selected card Hcard) at 2.
    rewrite !fmap_app. simpl. rewrite ident_paint, ?fmap_app.
    simpl. solve_Permutation.
  - intros hs pool top selected card color H Hcard _.
    rewrite <- H. rewrite (delete_Permutation pool selected card Hcard) at 2.
    rewrite !fmap_app. simpl. rewrite ident_paint, ?fmap_app.
    simpl. solve_Permutation.
  - intros hs pool top H. rewrite <- H. simpl. by rewrite app_nil_r.
  - intros hs pool top H. rewrite <- H.
    rewrite (concat_empty ((λ _, []) <$> hs))
      by (apply Forall_fmap; by apply Forall_true).
    rewrite !fmap_app. simpl. solve_Permutation.
  - intros hs pool top i h H Hh.
    rewrite <- H, (concat_lookup _ _ _ Hh). rewrite !fmap_app.
    solve_Permutation.
  - intros hs hs' pool top H He He'.
    by rewrite <- H, (concat_empty hs), (concat_empty hs').
Qed.

Lemma handCards_concat (ps : list Player) : handCards ps = length (concat (hand <$> ps)).
Proof.
  unfold handCards. induction ps as [|p ps IH]; simpl; [done|].
  by rewrite length_app, IH.
Qed.

Lemma total_allCards g : total g = length (allCards g).
Proof.
  unfold total, allCards, cardsIn, hands.
  rewrite handCards_concat, !length_app. destruct (topCard g); simpl; lia.
Qed.

Lemma conserving_total M g g' :
  holds (conserving M) g → holds (conserving M) g' → total g' = total g.
Proof.
  unfold holds, conserving. intros H H'. rewrite !total_allCards.
  unfold allCards.
  rewrite <- (length_fmap ident (cardsIn (hands g') _ _)), H'.
  by rewrite <- H, length_fmap.
Qed.

(** ** The colours of the wild cards *)

(** A wild card without a colour, a wild card with a colour. *)
Definition colourless (k : Card) : Prop :=
  isWild k = true → color k = Color.NONE.
Definition coloured (k : Card) : Prop :=
  isWild k = true → color k ≠ Color.NONE.

(** The wild cards of the hands have no colour, a wild card on top has
    one. *)
Definition painted (hs : list (list Card)) (pool : list Card)
    (top : option Card) : Prop :=
  Forall (Forall colourless) hs ∧ ∀ k, top = Some k → coloured k.

Lemma colourless_resetWild k : colourless (resetWild k).
Proof.
  unfold colourless, resetWild, isWild.
  destruct (hasEffect (face k) _) eqn:Hw; simpl; [done|congruence].
Qed.

Lemma coloured_paint color k : pickOk color k → coloured (paint color k).
Proof.
  unfold pickOk, coloured, paint. intros Hpick.
  destruct color as [c|].
  - destruct (truthy c) eqn:Hc; unfold isWild; simpl.
    + intros _. unfold truthy in Hc. apply negb_true_iff, Z.eqb_neq in Hc.
      done.
    + intros Hw. destruct (Hpick Hw) as (c' & [= <-] & Hc').
      unfold truthy in Hc. apply negb_false_iff, Z.eqb_eq in Hc. done.
  - intros Hw. by destruct (Hpick Hw) as (? & ? & _).
Qed.

Global Instance painted_moves : Moves painted.
Proof.
  unfold painted. split.
  - intros hs pool top i h taken pool' h' [H Ht] Hh _ Hh'. split; [|done].
    apply Forall_insert; [done|]. rewrite Hh'. apply Forall_app. split.
    + apply Forall_fmap, Forall_true. intros k. apply colourless_resetWild.
    + by eapply Forall_lookup_1 in H.
  - intros hs pool top i h selected card color [H Ht] Hh Hcard Hpick. split.
    + apply Forall_insert; [done|]. apply Forall_delete.
      by eapply Forall_lookup_1 in H.
    + intros k [= <-]. by apply coloured_paint.
  - intros hs pool top selected card color [H Ht] Hcard Hpick.
    split; [done|]. intros k [= <-]. by apply coloured_paint.
  - intros hs pool top [H Ht]. by split.
  - intros hs pool top [H Ht]. split; [|done].
    apply Forall_fmap, Forall_true. intros h. by apply Forall_nil.
  - intros hs pool top i h [H Ht] Hh. split; [|done]. by apply Forall_delete.
  - intros hs hs' pool top [H Ht] _ He'. split; [|done].
    eapply Forall_impl; [exact He'|]. intros h ->. by apply Forall_nil.
Qed.

(** ** The operations, exactly *)

Lemma wp_eq {A} (m : Act A) (Q : A → Game → Prop) E g a g' :
  m g = Ok a g' → Q a g' → wp m Q E g.
Proof. unfold wp. by intros ->. Qed.

(** The index that [nextTurn] moves to from [t] in direction [d] among [n]
    players. *)
Definition advance (n : nat) (t d : Z) : Z :=
  let t := t + d in
  let t := if bool_decide (t < 0) then Z.of_nat n - 1 else t in
  if bool_decide (t > Z.of_nat n - 1) then 0 else t.

(** What [nextTurn] sends when the turn goes from [p] to [q], latest
    first. *)
Definition turnEffects (skip : bool) (p q : Player) : list Effect :=
  (if skip then [GroupSend (Skipping (mention q))]
   else
     (if npc q then [SetTimeout CbPlayCard npcDelay] else [])
     ++ [GroupSend (NextTurnOf (mention q) (length (hand q)))])
  ++ (if npc p then [] else [PrivateSend (id p) (YourHand (hand p))]).

Lemma nextTurn_Ok skip g p q :
  item (players g) (turn g) = Some p →
  item (players g) (advance (length (players g)) (turn g) (direction g))
  = Some q →
  nextTurn skip g
  = Ok tt (setEffects (turnEffects skip p q ++ effects g)
             (setTurn (advance (length (players g)) (turn g) (direction g))
                g)).
Proof.
  intros Hp Hq. pose proof (item_lt _ _ _ Hp) as Ht.
  unfold advance in *.
  unfold nextTurn, bind, get, the, when, emit, modify, random, ret, throw.
  rewrite bool_decide_eq_true_2 by lia. rewrite Hp.
  unfold turnEffects.
  destruct (npc p) eqn:Hnp; simpl;
    rewrite (bool_decide_eq_false_2 (turn g = -1)) by lia; simpl;
    destruct (bool_decide (turn g + direction g < 0)); simpl;
    destruct (bool_decide (_ > _)); simpl; rewrite Hq;
    destruct skip, (npc q); reflexivity.
Qed.

Lemma advance_range n t d :
  (0 < n)%nat → 0 ≤ advance n t d < Z.of_nat n.
Proof. intros Hn. unfold advance. repeat case_bool_decide; lia. Qed.

Lemma advance_two t d :
  0 ≤ t < 2 → d = 1 ∨ d = -1 → advance 2 t d = 1 - t.
Proof. intros Ht Hd. unfold advance. repeat case_bool_decide; lia. Qed.

(** The state after [takeCard] has moved the cards, in a turn of the
    game. *)
Definition taken (selected : nat) (card top : Card) (p : Player) (g : Game)
    : Game :=
  setTopCard (Some card)
    (setDiscarded (discarded g ++ [top])
       (setPlayers
          (<[Z.to_nat (turn g) := setHand (delete selected (hand p)) p]>
             (players g)) g)).

Lemma takeCard_Ok selected color g p card top :
  turn g ≠ -1 → item (players g) (turn g) = Some p →
  hand p !! selected = Some card → topCard g = Some top →
  takeCard selected color g
  = Ok (paint color card) (taken selected (paint color card) top p g).
Proof.
  intros Ht Hp Hcard Htop.
  unfold takeCard, bind, get, the, ret, updatePlayer, modify, taken.
  rewrite (bool_decide_eq_false_2 _ Ht), Hp, Htop. cbn beta iota.
  rewrite Hcard. game_simpl.
  apply item_Some in Hp as [_ Hp]. by rewrite (alter_insert _ _ _ _ Hp).
Qed.

(** ** The deck *)

Definition faceValues : list Z :=
  [CardFace.ZERO; CardFace.ONE; CardFace.TWO; CardFace.THREE; CardFace.FOUR;
   CardFace.FIVE; CardFace.SIX; CardFace.SEVEN; CardFace.EIGHT;
   CardFace.NINE; CardFace.SKIP; CardFace.DRAW_TWO; CardFace.REVERSE;
   CardFace.WILD; CardFace.DRAW_FOUR].

Definition colorValues : list Z :=
  [Color.NONE; Color.RED; Color.BLUE; Color.GREEN; Color.YELLOW].

Lemma countCard_absent f c l :
  Forall (λ k, ¬ (face k = f ∧ color k = c)) l → countCard f c l = 0%nat.
Proof.
  unfold countCard. induction 1 as [|k l Hk _ IH]; [done|].
  by rewrite filter_cons_False.
Qed.

Lemma getHand_values :
  Forall (λ k, face k ∈ faceValues ∧ color k ∈ colorValues) getHand.
Proof. apply (bool_decide_unpack _). vm_compute. exact I. Qed.

Ltac elem_cases H :=
  repeat (apply elem_of_cons in H as [->|H]); try (by apply elem_of_nil in H).

(** C9.  [getHand()] returns 108 cards, and for every face and colour the
    number of cards that show them is the number of the canonical deck: per
    colour one 0, two each of 1 to 9, Skip, Reverse and DrawTwo; four
    colourless Wild and four colourless WildDrawFour; nothing else. *)
Theorem getHand_standard_deck :
  length getHand = 108%nat
  ∧ ∀ f c, countCard f c getHand = Canonical.copies f c.
Proof.
  split; [reflexivity|]. intros f c.
  destruct (decide (f ∈ faceValues)) as [Hf|Hf].
  - destruct (decide (c ∈ colorValues)) as [Hc|Hc].
    + unfold faceValues, colorValues in *.
      elem_cases Hf; elem_cases Hc; vm_compute; reflexivity.
    + rewrite countCard_absent.
      * unfold Canonical.copies.
        rewrite (bool_decide_eq_false_2 (c ∈ Canonical.colours)).
        2:{ intros H. apply Hc. unfold Canonical.colours in H.
            elem_cases H; apply (bool_decide_unpack _); by vm_compute. }
        rewrite (bool_decide_eq_false_2 (c = Color.NONE)); [done|].
        intros ->. apply Hc. apply (bool_decide_unpack _). by vm_compute.
      * eapply Forall_impl; [apply getHand_values|].
        intros k [_ Hk] [_ <-]. done.
  - rewrite countCard_absent.
    + unfold Canonical.copies.
      rewrite (bool_decide_eq_false_2 (f = CardFace.ZERO)).
      2:{ intros ->. apply Hf. apply (bool_decide_unpack _). by vm_compute. }
      rewrite (bool_decide_eq_false_2 (f ∈ Canonical.paired)).
      2:{ intros H. apply Hf. unfold Canonical.paired in H.
          elem_cases H; apply (bool_decide_unpack _); by vm_compute. }
      rewrite (bool_decide_eq_false_2 (f ∈ Canonical.wilds)).
      2:{ intros H. apply Hf. unfold Canonical.wilds in H.
          elem_cases H; apply (bool_decide_unpack _); by vm_compute. }
      by repeat case_bool_decide.
    + eapply Forall_impl; [apply getHand_values|].
      intros k [Hk _] [<- _]. done.
Qed.

(** ** Conservation *)

Lemma conserving_refl g : holds (conserving (ident <$> allCards g)) g.
Proof. unfold holds, conserving, allCards. reflexivity. Qed.

Lemma conserving_new : conserving (ident <$> getHand) [] getHand None.
Proof.
  unfold conserving, cardsIn.
  change (ident <$> getHand ++ [] ≡ₚ ident <$> getHand). by rewrite app_nil_r.
Qed.

Lemma orderly_conserving g :
  orderly g → ident <$> allCards g ≡ₚ ident <$> getHand.
Proof.
  intros Hg.
  by destruct (orderly_inv (conserving (ident <$> getHand)) g
                 conserving_new Hg).
Qed.

(** Every operation preserves every property that the movements of cards
    preserve, from any state. *)
Section operations.
Context (P : list (list Card) → list Card → option Card → Prop).
Context `{!Moves P}.

Lemma playCard_holds text g : holds P g → holds P (final (playCard text g)).
Proof.
  intros Hg. apply (proj1 (wp_final (playCard text) (holds P) g)).
  eapply playCard_wp; [done|by apply stays_refl|..];
    first [by intros ? ? [? _]|by intros ? [? _]].
Qed.

Lemma drawCards_holds num silent g :
  is_Some (item (players g) (turn g)) →
  holds P g → holds P (final (drawCards num silent g)).
Proof.
  intros [p Hp] Hg. apply (proj1 (wp_final (drawCards num silent) (holds P) g)).
  eapply drawCards_wp; [done..|by apply stays_refl|].
  first [by intros ? ? [? _]|by intros ? [? _]].
Qed.

Lemma drawAndSkip_holds num g :
  is_Some (item (players g) (turn g)) →
  holds P g → holds P (final (drawAndSkip num g)).
Proof.
  intros [p Hp] Hg. apply (proj1 (wp_final (drawAndSkip num) (holds P) g)).
  eapply drawAndSkip_wp; [done..|by apply stays_refl| |];
    first [by intros ? ? [? _]|by intros ? [? _]].
Qed.

Lemma callUno_holds caller g :
  holds P g → holds P (final (callUno caller g)).
Proof.
  intros Hg. apply (proj1 (wp_final (callUno caller) (holds P) g)).
  eapply callUno_wp; [done|by apply stays_refl|..];
    first [by intros ? ? [? _]|by intros ? [? _]].
Qed.

Lemma removePlayer_holds p g :
  holds P g → holds P (final (removePlayer p g)).
Proof.
  intros Hg. apply (proj1 (wp_final (removePlayer p) (holds P) g)).
  eapply removePlayer_wp; [done|by apply rests_refl|..];
    first [by intros ? ? [? _]|by intros ? [? _]].
Qed.

Lemma endGame_holds g : holds P g → holds P (final (endGame g)).
Proof.
  intros Hg. apply (proj1 (wp_final endGame (holds P) g)).
  apply (endGame_wp P); [done|]. by intros.
Qed.
End operations.

Lemma preserved_total {A} (m : Act A) g :
  (∀ P, Moves P → holds P g → holds P (final (m g))) →
  total (final (m g)) = total g.
Proof.
  intros Hm. eapply conserving_total; [apply conserving_refl|].
  apply Hm; [apply _|apply conserving_refl].
Qed.

(** In every state of a game in which the timers fire in time, the hands,
    the pool and the top card hold 108 cards together, and each of
    [playCard], [drawCards], [drawAndSkip], [callUno] (with its penalty),
    [removePlayer] and [endGame] leaves the state it is run from, whatever
    it is, with as many cards as it had; for the two that draw for the
    current player without looking whether there is one, the current player
    has to exist. *)
Theorem conservation_invariant :
  (∀ g, orderly g → total g = 108%nat)
  ∧ (∀ text g, total (final (playCard text g)) = total g)
  ∧ (∀ num silent g, is_Some (item (players g) (turn g)) →
       total (final (drawCards num silent g)) = total g)
  ∧ (∀ num g, is_Some (item (players g) (turn g)) →
       total (final (drawAndSkip num g)) = total g)
  ∧ (∀ caller g, total (final (callUno caller g)) = total g)
  ∧ (∀ p g, total (final (removePlayer p g)) = total g)
  ∧ (∀ g, total (final (endGame g)) = total g).
Proof.
  split_and!.
  - intros g Hg. rewrite total_allCards.
    rewrite <- (length_fmap ident), (orderly_conserving g Hg).
    by rewrite length_fmap.
  - intros text g. apply preserved_total. intros. by apply playCard_holds.
  - intros num silent g Hp. apply preserved_total. intros.
    by apply drawCards_holds.
  - intros num g Hp. apply preserved_total. intros.
    by apply drawAndSkip_holds.
  - intros caller g. apply preserved_total. intros. by apply callUno_holds.
  - intros p g. apply preserved_total. intros. by apply removePlayer_holds.
  - intros g. apply preserved_total. intros. by apply endGame_holds.
Qed.

(** ** Properties that survive the loss of cards

    A timer that fires late can leave cards in the hand of an NPC while the
    game is in the lobby, where a hand is emptied or a player removed
    without the cards going anywhere.  A property [P] that holds on to less
    than the conservation of the cards ([Sheds P]) comes through that as
    well, and holds in every state of every game. *)
Class Sheds (P : list (list Card) → list Card → option Card → Prop) : Prop := {
  (** A player joins with an empty hand. *)
  P_join : ∀ hs pool top, P hs pool top → P (hs ++ [[]]) pool top;
  (** Players leave with their hands. *)
  P_leave : ∀ hs hs' pool top,
    P hs pool top → hs' `sublist_of` hs → P hs' pool top;
  (** A hand is emptied. *)
  P_clear : ∀ hs pool top (i : nat),
    P hs pool top → P (<[i:=[]]> hs) pool top
}.

Section shedding.
Context (P : list (list Card) → list Card → option Card → Prop).
Context `{!Moves P, !Sheds P}.

Lemma addPlayer_sheds m g :
  holds P g → wp (addPlayer m) (λ _, holds P) (holds P) g.
Proof.
  intros Hg. unfold addPlayer. wp_step. wp_step.
  case_bool_decide; [by apply wp_ret|]. wp_run.
  unfold holds, hands. game_simpl. rewrite fmap_app.
  replace (hand <$> [if memberBot m
                     then newNPC (memberName m) (Some (memberId m, true))
                     else newPlayer m]) with [[] : list Card]
    by (by destruct (memberBot m)).
  by apply P_join.
Qed.

Lemma addNPCs_sheds num g :
  holds P g → wp (addNPCs num) (λ _, holds P) (holds P) g.
Proof.
  apply addNPCs_keeps.
  - intros g1 g2. apply holds_same.
  - intros g1 name Hg1 _.
    unfold holds, hands. game_simpl. rewrite fmap_app. by apply P_join.
Qed.

Lemma removeNPCs_sheds num g :
  holds P g → wp (removeNPCs num) (λ _, holds P) (holds P) g.
Proof.
  intros Hg. unfold removeNPCs. wp_step.
  unfold holds, hands. game_simpl.
  eapply P_leave; [exact Hg|]. apply fmap_sublist, spliceNPCs_sublist.
Qed.

Lemma deal_sheds n i g :
  holds P g → length (players g) = n → (i < n)%nat →
  wp (deal i) (λ _ g', holds P g' ∧ length (players g') = n)
    (λ _, False) g.
Proof.
  intros Hg Hn Hi. unfold deal. wp_step. wp_step. wp_step.
  wp_step. game_simpl.
  destruct (lookup_lt_is_Some_2 (players g) i) as [p Hp]; [lia|].
  rewrite Nat2Z.id, (alter_insert _ _ _ _ Hp).
  set (g1 := setPlayers _ _).
  assert (item (players g1) (turn g1) = Some (setHand [] p)) as Hp1.
  { subst g1. game_simpl. rewrite item_of_nat.
    apply list_lookup_insert_eq. by eapply lookup_lt_Some. }
  assert (holds P g1) as Hg1.
  { subst g1. unfold holds, hands. game_simpl. rewrite list_fmap_insert.
    by apply P_clear. }
  destruct (drawCards_Ok 7 true g1 _ Hp1)
    as (taken & pool' & rs' & Heq & Hperm & _ & _).
  cbv zeta in Heq. unfold wp. rewrite Heq. split.
  - unfold holds, hands. game_simpl. rewrite list_fmap_insert. game_simpl.
    eapply P_draw; [exact Hg1| |done|apply drawnHand_Permutation].
    apply item_Some in Hp1 as [_ Hp1]. unfold hands.
    by rewrite list_lookup_fmap, Hp1.
  - game_simpl. subst g1. game_simpl. by rewrite !length_insert.
Qed.

Lemma dealAll_sheds n k : ∀ i g,
  holds P g → length (players g) = n → (i + k ≤ n)%nat →
  wp (dealAll (seq i k)) (λ _, holds P) (λ _, False) g.
Proof.
  induction k as [|k IH]; intros i g Hg Hn Hi; simpl.
  - by apply wp_ret.
  - wp_step. eapply wp_mono; [apply (deal_sheds n); [done..|lia]| |done].
    intros [] g1 [Hg1 Hn1]. apply IH; [done..|lia].
Qed.

Lemma playCard_sheds text g :
  holds P g → wp (playCard text) (λ _, holds P) (holds P) g.
Proof.
  intros Hg. eapply playCard_wp; [done|by apply stays_refl|..].
  - by intros ? ? [? _].
  - by intros ? [? _].
Qed.

Lemma startGame_sheds g :
  holds P g → wp startGame (λ _, holds P) (holds P) g.
Proof.
  intros Hg. unfold startGame. wp_step. wp_step. wp_step.
  apply (wp_mono _ (λ _, holds P) _ (λ _, False)); [| |by intros ? []].
  { by apply (dealAll_sheds (length (players g))). }
  intros [] g1 Hg1. wp_step. wp_step. wp_step. wp_step. wp_step.
  wp_step. wp_step.
  eapply wp_mono; [apply playCard_sheds; exact Hg1| |done].
  intros ? g2 Hg2. by wp_step.
Qed.

Lemma removePlayer_sheds p g :
  holds P g → wp (removePlayer p) (λ _, holds P) (holds P) g.
Proof.
  intros Hg.
  eapply removePlayer_wp; [done|by apply rests_refl|..]; by intros ? [? _].
Qed.

Lemma kick_sheds ids g :
  holds P g → wp (kick ids) (λ _, holds P) (holds P) g.
Proof.
  intros Hg.
  eapply kick_wp; [done|by apply rests_refl|..]; by intros ? [? _].
Qed.

Lemma lobbyCollector_sheds author cmd g :
  holds P g → wp (lobbyCollector author cmd) (λ _, holds P) (holds P) g.
Proof.
  intros Hg. unfold lobbyCollector. wp_step. wp_step.
  destruct (negb _).
  - destruct cmd; try (by apply wp_ret). by apply removePlayer_sheds.
  - destruct cmd; try (by apply wp_ret).
    + unfold when. destruct (bool_decide _); [|by apply wp_ret].
      by apply startGame_sheds.
    + apply (forEach_wp (holds P)); [|done].
      intros m g1 Hg1. wp_step.
      eapply wp_mono; [by apply addPlayer_sheds| |done].
      intros ? g2 Hg2. by wp_step.
    + wp_step. eapply wp_mono; [by apply addNPCs_sheds| |done].
      intros ? g1 Hg1. by wp_step.
    + by apply removeNPCs_sheds.
    + by apply kick_sheds.
Qed.

Lemma handle_sheds e g : holds P g → holds P (final (handle e g)).
Proof.
  intros Hg. apply (proj1 (wp_final (handle e) (holds P) g)).
  destruct e as [author cmd|cb]; simpl.
  - unfold collect. wp_step. wp_step. destruct (started g) eqn:Hst.
    + eapply wp_mono; [by apply (gameCollector_wp P)|..];
        first [by intros ? ? [? _]|by intros ? [? _]].
    + by apply lobbyCollector_sheds.
  - destruct cb; simpl.
    + wp_step. eapply wp_mono; [by apply playCard_sheds| |done].
      intros ? g1 Hg1. by wp_step.
    + eapply callUno_wp; [done|by apply stays_refl|..]; by intros ? [? _].
    + by apply wp_ret.
Qed.

Lemma newGame_sheds memberList makerId samples :
  P [] getHand None → holds P (newGame memberList makerId samples).
Proof. intros H0. by apply (newGame_inv P). Qed.

Theorem reachable_holds g : P [] getHand None → reachable g → holds P g.
Proof.
  intros H0. induction 1; [by apply newGame_sheds|by apply handle_sheds].
Qed.

End shedding.

(** *** The faces of the cards *)

(** A property of the identities of the cards that does not depend on their
    order is preserved by every movement. *)
Lemma moves_of_ident (Q : list (nat * Z) → Prop) :
  (∀ l l', l ≡ₚ l' → Q l → Q l') →
  Moves (λ hs pool top, Q (ident <$> cardsIn hs pool top)).
Proof.
  intros HQ.
  assert (∀ hs pool top hs' pool' top',
    (∀ M, conserving M hs pool top → conserving M hs' pool' top') →
    Q (ident <$> cardsIn hs pool top) →
    Q (ident <$> cardsIn hs' pool' top')) as Hmove.
  { intros hs pool top hs' pool' top' Hc.
    assert (conserving (ident <$> cardsIn hs pool top) hs pool top)
      as Hperm by (unfold conserving; reflexivity).
    apply Hc in Hperm. unfold conserving in Hperm. apply HQ.
    by symmetry. }
  split; intros; (eapply Hmove; [|eassumption]); intros M HM.
  - by eapply (P_draw (P := conserving M)).
  - by eapply (P_play (P := conserving M)).
  - by eapply (P_first (P := conserving M)).
  - by eapply (P_miss (P := conserving M)).
  - by eapply (P_end (P := conserving M)).
  - by eapply (P_remove (P := conserving M)).
  - by eapply (P_empty (P := conserving M)).
Qed.

(** Every card bears a face of the deck. *)
Definition faced (hs : list (list Card)) (pool : list Card)
    (top : option Card) : Prop :=
  Forall (λ x, x.2 ∈ faceValues) (ident <$> cardsIn hs pool top).

Global Instance faced_moves : Moves faced.
Proof.
  apply (moves_of_ident (Forall (λ x, x.2 ∈ faceValues))).
  intros l l' Hl. by rewrite Hl.
Qed.

Lemma elem_of_concat {A} (x : A) (ls : list (list A)) :
  x ∈ concat ls ↔ ∃ l, x ∈ l ∧ l ∈ ls.
Proof.
  induction ls as [|l ls IH]; simpl.
  - split; [by intros ?%not_elem_of_nil|].
    by intros (? & _ & ?%not_elem_of_nil).
  - rewrite elem_of_app, IH. split.
    + intros [?|(l' & ? & ?)]; [exists l|exists l'];
        (split; [done|]); [by left|by right].
    + intros (l' & Hx & [->|?]%elem_of_cons); [by left|].
      right. by exists l'.
Qed.

Lemma elem_of_insert_inv {A} (l : list A) (i : nat) x y :
  x ∈ <[i:=y]> l → x = y ∨ x ∈ l.
Proof.
  revert i. induction l as [|z l IH]; intros [|i]; simpl;
    rewrite ?elem_of_cons; [by right..| |]; intros [?|H]; auto.
  destruct (IH _ H); auto.
Qed.

Lemma faced_hands hs hs' pool top :
  (∀ k, k ∈ concat hs' → k ∈ concat hs) →
  faced hs pool top → faced hs' pool top.
Proof.
  unfold faced, cardsIn. intros Hsub. rewrite !Forall_fmap, !Forall_app.
  intros (Hh & Hp & Ht). split_and!; [|done..].
  apply Forall_forall. intros k Hk.
  by apply (proj1 (Forall_forall _ _) Hh), Hsub.
Qed.

Global Instance faced_sheds : Sheds faced.
Proof.
  split.
  - intros hs pool top. apply faced_hands. intros k.
    rewrite concat_app, elem_of_app. intros [?|H]; [done|].
    by apply not_elem_of_nil in H.
  - intros hs hs' pool top H Hsub. revert H. apply faced_hands.
    intros k (h & Hk & Hh)%elem_of_concat. apply elem_of_concat.
    exists h. split; [done|]. by eapply elem_of_sublist.
  - intros hs pool top i. apply faced_hands.
    intros k (h & Hk & Hh)%elem_of_concat. apply elem_of_concat.
    apply elem_of_insert_inv in Hh as [->|Hh];
      [by apply not_elem_of_nil in Hk|].
    by exists h.
Qed.

Lemma faced_new : faced [] getHand None.
Proof.
  unfold faced, cardsIn.
  change (Forall (λ x, x.2 ∈ faceValues) (ident <$> getHand ++ [])).
  rewrite app_nil_r, Forall_fmap.
  eapply Forall_impl; [apply getHand_values|]. by intros k [Hk _].
Qed.

Lemma reachable_faces g k :
  reachable g → k ∈ allCards g → face k ∈ faceValues.
Proof.
  intros Hg Hk. pose proof (reachable_holds faced g faced_new Hg) as Hf.
  apply (proj1 (Forall_forall _ _) Hf (ident k)).
  by apply list_elem_of_fmap_2.
Qed.

(** *** The colours of the wild cards *)

Global Instance painted_sheds : Sheds painted.
Proof.
  unfold painted. split.
  - intros hs pool top [Hh Ht]. split; [|done].
    apply Forall_app. split; [done|]. by apply Forall_singleton.
  - intros hs hs' pool top [Hh Ht] Hsub. split; [|done].
    apply Forall_forall. intros h Hh'.
    apply (proj1 (Forall_forall _ _) Hh). by eapply elem_of_sublist.
  - intros hs pool top i [Hh Ht]. split; [|done].
    by apply Forall_insert.
Qed.

(** ** Legality *)

Lemma isCardFace_faceValues f : isCardFace f ↔ f ∈ faceValues.
Proof.
  unfold isCardFace. split; intros H.
  - assert (Forall (λ f, f ∈ faceValues) (cardFacePairs.*2)) as Hall
      by (apply (bool_decide_unpack _); by vm_compute).
    by apply (proj1 (Forall_forall _ _) Hall).
  - assert (Forall (λ f, f ∈ cardFacePairs.*2) faceValues) as Hall
      by (apply (bool_decide_unpack _); by vm_compute).
    by apply (proj1 (Forall_forall _ _) Hall).
Qed.

Lemma lookupKey_elem key pairs v :
  lookupKey key pairs = Some v → v ∈ pairs.*2.
Proof.
  unfold lookupKey. intros H. apply fmap_Some in H as ([i [k v']] & H & ->).
  apply list_find_Some in H as (H & _). simpl.
  apply list_elem_of_fmap. exists (k, v'). split; [done|].
  by eapply list_elem_of_lookup_2.
Qed.

Lemma parseToCard_face text g parsed g' :
  parseToCard text g = Ok (Some parsed) g' → isCardFace (face parsed).
Proof.
  unfold parseToCard, bind, the, ret, throw.
  destruct (faceMatch text) as [|faceKey [|]]; try done.
  destruct (lookupKey faceKey cardFacePairs) as [f|] eqn:Hf.
  2:{ destruct (colorMatch text) as [|colorKey [|]]; try done.
      by destruct (lookupKey colorKey colorPairs). }
  apply lookupKey_elem in Hf.
  destruct (colorMatch text) as [|colorKey [|]];
    [|destruct (lookupKey colorKey colorPairs); [|done]|];
    destruct (_ && _); try done; by intros [= <- _].
Qed.

(** On the faces of the cards, two faces are equal exactly when their base
    ranks are. *)
Lemma base_rank_injective f1 f2 :
  f1 ∈ faceValues → f2 ∈ faceValues →
  (f1 =? f2)
  = (Z.land f1 CardFace.BASE_MASK =? Z.land f2 CardFace.BASE_MASK).
Proof.
  intros H1 H2. unfold faceValues in *.
  elem_cases H1; elem_cases H2; reflexivity.
Qed.

(** ** Drawing from a pool that runs out *)

(** C10.  With a current player, [drawCards(n)] returns whatever the pool
    holds: it takes [min n (pool size)] cards out of the pool, possibly
    none, and puts them into the hand of the current player, whose
    [calledUno] flag it clears; what is left of the pool is left in its
    order, and nothing else of the game changes. *)
Theorem drawCards_exhausted num silent g p :
  item (players g) (turn g) = Some p →
  ∃ g' p',
    drawCards num silent g = Ok tt g'
    ∧ turn g' = turn g
    ∧ item (players g') (turn g) = Some p'
    ∧ length (hand p')
      = (length (hand p) + num `min` length (discarded g))%nat
    ∧ length (discarded g')
      = (length (discarded g) - num `min` length (discarded g))%nat
    ∧ calledUno p' = false
    ∧ discarded g' `sublist_of` discarded g
    ∧ ident <$> hand p' ++ discarded g'
      ≡ₚ ident <$> hand p ++ discarded g
    ∧ topCard g' = topCard g
    ∧ (∀ j, j ≠ Z.to_nat (turn g) → players g' !! j = players g !! j).
Proof.
  intros Hp.
  destruct (drawCards_Ok num silent g p Hp)
    as (taken & pool' & rs' & Heq & Hperm & Hsub & Hlen).
  cbv zeta in Heq.
  eexists _, (setCalledUno false
                (setHand (drawnHand p (resetWild <$> taken)) p)).
  split; [exact Heq|]. game_simpl.
  apply item_Some in Hp as [Hi Hp].
  assert (length (discarded g) = (length taken + length pool')%nat) as Hpool
    by by rewrite <- Hperm, length_app.
  split_and!; try done.
  - unfold item. rewrite bool_decide_eq_true_2 by done.
    apply list_lookup_insert_eq. by eapply lookup_lt_Some.
  - game_simpl. rewrite length_drawnHand, length_fmap. lia.
  - lia.
  - game_simpl. rewrite drawnHand_Permutation, <- Hperm.
    rewrite !fmap_app, ident_resetWild_fmap. solve_Permutation.
  - intros j Hj. by rewrite list_lookup_insert_ne.
Qed.

(** ** Calling Uno *)

(** [callUno] where the previous player is not to be penalised: no hand
    changes. *)
Lemma callUno_quiet caller g p :
  item (players g) (turn g) = Some p →
  (previousTurn g > -1 →
   ∃ q, item (players g) (previousTurn g) = Some q
        ∧ length (hand q) ≠ 1%nat) →
  ∃ g', callUno caller g = Ok tt g' ∧ hands g' = hands g
        ∧ turn g' = turn g.
Proof.
  intros Hp Hprev.
  cut (wp (callUno caller)
         (λ _ g', hands g' = hands g ∧ turn g' = turn g) (λ _, False) g).
  { intros H. apply wp_Ok in H as ([] & g' & ? & ?). eauto. }
  unfold callUno. wp_step. wp_step. wp_step. rewrite Hp. wp_step. wp_step.
  apply (wp_mono _ (λ _ g1, hands g1 = hands g ∧ turn g1 = turn g
                            ∧ previousTurn g1 = previousTurn g) _
           (λ _, False)); [| |by intros ? []].
  { unfold when. destruct (_ && _); wp_run; split_and!; try done.
    unfold hands. game_simpl. apply hands_alter_calledUno. }
  intros [] g1 (Hh1 & Ht1 & Hpv1). unfold when.
  case_bool_decide as Hpv; [|by wp_step].
  destruct (Hprev Hpv) as (q & Hq & Hlen).
  assert (∀ g2, hands g2 = hands g →
            ∃ q2, item (players g2) (previousTurn g) = Some q2
                  ∧ hand q2 = hand q) as Hq2.
  { intros g2 Hh2. apply item_Some in Hq as [Hi Hq].
    assert (hands g2 !! Z.to_nat (previousTurn g) = Some (hand q)) as Hl
      by (rewrite Hh2; unfold hands; by rewrite list_lookup_fmap, Hq).
    unfold hands in Hl. rewrite list_lookup_fmap in Hl.
    apply fmap_Some in Hl as (q2 & Hq2 & Hhq). exists q2. split; [|done].
    by apply item_Some. }
  destruct (Hq2 g1 Hh1) as (q1 & Hq1 & Hhq1).
  wp_step. wp_step. wp_step. game_simpl. rewrite Hpv1, Hq1.
  wp_step. wp_step.
  rewrite Hhq1. rewrite (bool_decide_eq_false_2 (length (hand q) = 1%nat))
    by done.
  rewrite !andb_false_r. simpl. wp_step. wp_step. wp_step. wp_step. wp_step.
  rewrite Hpv1, Hq1, Hhq1.
  rewrite (bool_decide_eq_false_2 (length (hand q) = 1%nat)) by done.
  rewrite !andb_false_r. by wp_step.
Qed.

(** The law of the specification: whoever calls, a previous player with one
    card and no call draws two cards, the turn stays where it is, and a
    further call makes no hand grow. *)
Definition penalised (caller : string) (g : Game) : Prop :=
  ∀ q,
    is_Some (item (players g) (turn g)) →
    0 ≤ previousTurn g →
    item (players g) (previousTurn g) = Some q →
    length (hand q) = 1%nat → calledUno q = false →
    (2 ≤ length (discarded g))%nat →
    ∃ g' q',
      callUno caller g = Ok tt g'
      ∧ item (players g') (previousTurn g) = Some q'
      ∧ length (hand q') = (length (hand q) + 2)%nat
      ∧ turn g' = turn g
      ∧ ∀ caller', ∃ g'', callUno caller' g' = Ok tt g''
                          ∧ hands g'' = hands g'.

(** What happens instead when the previous player is the caller. *)
Definition excused (caller : string) (g : Game) : Prop :=
  ∀ q,
    is_Some (item (players g) (turn g)) →
    0 ≤ previousTurn g →
    item (players g) (previousTurn g) = Some q →
    length (hand q) = 1%nat → calledUno q = false →
    ∃ g' q',
      callUno caller g = Ok tt g'
      ∧ item (players g') (previousTurn g) = Some q'
      ∧ calledUno q' = true
      ∧ hands g' = hands g
      ∧ turn g' = turn g.

Lemma callUno_penalised caller g q :
  item (players g) (previousTurn g) = Some q → id q ≠ caller →
  penalised caller g.
Proof.
  intros Hq Hcaller q0 [p Hp] Hpv Hq0 Hlen Hcalled Hpool.
  assert (q0 = q) as -> by congruence. clear Hq0.
  cut (wp (callUno caller)
         (λ _ g', ∃ q',
            item (players g') (previousTurn g) = Some q'
            ∧ length (hand q') = (length (hand q) + 2)%nat
            ∧ turn g' = turn g ∧ previousTurn g' = previousTurn g
            ∧ length (players g') = length (players g))
         (λ _, False) g).
  { intros H. apply wp_Ok in H as ([] & g' & Heq & q' & Hq' & Hl' & Ht' & Hp' & Hn').
    exists g', q'. split_and!; try done. intros caller'.
    destruct (item_is_Some (players g') (turn g')) as [p' Hp'1].
    { rewrite Ht', Hn'. by eapply item_lt. }
    destruct (callUno_quiet caller' g' p' Hp'1) as (g'' & ? & ? & _); [|eauto].
    intros _. exists q'. rewrite Hp'. split; [done|]. lia. }
  unfold callUno. wp_step. wp_step. wp_step. rewrite Hp. wp_step. wp_step.
  apply (wp_mono _ (λ _ g1, item (players g1) (previousTurn g) = Some q
                            ∧ discarded g1 = discarded g
                            ∧ turn g1 = turn g
                            ∧ previousTurn g1 = previousTurn g
                            ∧ length (players g1) = length (players g)) _
           (λ _, False)); [| |by intros ? []].
  { unfold when.
    destruct (bool_decide (id p = caller) && negb (calledUno p)
              && bool_decide (length (hand p) = 2%nat)) eqn:Hc;
      wp_run; split_and!; try done; [|by rewrite length_alter].
    apply andb_true_iff in Hc as [_ Hc]. apply bool_decide_eq_true in Hc.
    apply item_Some in Hq as [Hi Hq]. apply item_Some in Hp as [Hj Hp].
    apply item_Some. split; [done|].
    rewrite list_lookup_alter_ne; [done|]. intros Heq.
    rewrite Heq, Hq in Hp. injection Hp as ->. lia. }
  intros [] g1 (Hq1 & Hd1 & Ht1 & Hpv1 & Hn1). unfold when.
  rewrite bool_decide_eq_true_2 by lia.
  wp_step. wp_step. wp_step. game_simpl. rewrite Hpv1, Hq1.
  wp_step. wp_step.
  rewrite (bool_decide_eq_false_2 (id q = caller)) by done. simpl.
  wp_step. wp_step. wp_step. wp_step. game_simpl. rewrite Hpv1, Hq1.
  wp_step. rewrite Hcalled, Hlen. simpl. wp_step. wp_step. wp_step.
  wp_step. wp_step. game_simpl.
  set (g2 := setTurn _ _).
  assert (item (players g2) (turn g2) = Some q) as Hq2 by done.
  destruct (drawCards_Ok 2 false g2 q Hq2)
    as (taken & pool' & rs' & Heq & Hperm & _ & Htaken).
  cbv zeta in Heq. eapply wp_eq; [exact Heq|]. wp_step. game_simpl.
  subst g2. game_simpl. cbn [discarded setTurn setEffects] in Htaken.
  rewrite Hd1 in Htaken.
  apply item_Some in Hq1 as [Hi Hq1].
  eexists. split_and!; try done.
  - apply item_Some. split; [lia|].
    apply list_lookup_insert_eq. by eapply lookup_lt_Some.
  - game_simpl. rewrite length_drawnHand, length_fmap. lia.
  - by rewrite length_insert.
Qed.

Lemma callUno_excused caller g q :
  item (players g) (previousTurn g) = Some q → id q = caller →
  excused caller g.
Proof.
  intros Hq Hcaller q0 [p Hp] Hpv Hq0 Hlen Hcalled.
  assert (q0 = q) as -> by congruence. clear Hq0.
  cut (wp (callUno caller)
         (λ _ g', ∃ q',
            item (players g') (previousTurn g) = Some q'
            ∧ calledUno q' = true ∧ hands g' = hands g ∧ turn g' = turn g)
         (λ _, False) g).
  { intros H. apply wp_Ok in H as ([] & g' & Heq & q' & ?). by exists g', q'. }
  unfold callUno. wp_step. wp_step. wp_step. rewrite Hp. wp_step. wp_step.
  apply (wp_mono _ (λ _ g1, item (players g1) (previousTurn g) = Some q
                            ∧ hands g1 = hands g
                            ∧ turn g1 = turn g
                            ∧ previousTurn g1 = previousTurn g) _
           (λ _, False)); [| |by intros ? []].
  { unfold when.
    destruct (bool_decide (id p = caller) && negb (calledUno p)
              && bool_decide (length (hand p) = 2%nat)) eqn:Hc;
      wp_run; split_and!; try done;
      [|unfold hands; game_simpl; apply hands_alter_calledUno].
    apply andb_true_iff in Hc as [_ Hc]. apply bool_decide_eq_true in Hc.
    apply item_Some in Hq as [Hi Hq]. apply item_Some in Hp as [Hj Hp].
    apply item_Some. split; [done|].
    rewrite list_lookup_alter_ne; [done|]. intros Heq.
    rewrite Heq, Hq in Hp. injection Hp as ->. lia. }
  intros [] g1 (Hq1 & Hh1 & Ht1 & Hpv1). unfold when.
  rewrite bool_decide_eq_true_2 by lia.
  wp_step. wp_step. wp_step. game_simpl. rewrite Hpv1, Hq1.
  wp_step. wp_step.
  rewrite (bool_decide_eq_true_2 (id q = caller)) by done.
  rewrite Hcalled, Hlen. simpl. wp_step. wp_step. wp_step. wp_step.
  wp_step. wp_step. wp_step. game_simpl.
  apply item_Some in Hq1 as [Hi Hq1].
  rewrite Hpv1. unfold item. rewrite bool_decide_eq_true_2 by done.
  rewrite list_lookup_alter_eq, Hq1. simpl. wp_step.
  exists (setCalledUno true q). split_and!.
  - game_simpl. by rewrite list_lookup_alter_eq, Hq1.
  - done.
  - unfold hands. game_simpl. rewrite hands_alter_calledUno. apply Hh1.
  - done.
Qed.

(** C3, amended.  In a state with a current player, when the previous
    player holds one card and has not called: a call by anyone else makes
    that player draw two cards (the pool holding two at least) and leaves
    the turn where it is, and no later call by anyone makes a hand grow; a
    call by that player sets the player's flag instead, and nobody
    draws. *)
Theorem callUno_enforcement caller g q :
  item (players g) (previousTurn g) = Some q →
  (id q ≠ caller → penalised caller g)
  ∧ (id q = caller → excused caller g).
Proof.
  intros Hq. split; intros Hc.
  - by eapply callUno_penalised.
  - by eapply callUno_excused.
Qed.

(** ** Playing a card *)

Lemma wp_any {A} (m : Act A) g : wp m (λ _ _, True) (λ _, True) g.
Proof. unfold wp. by destruct (m g). Qed.

(** When the first half of [playCard] picks a card, it has changed nothing
    but the samples and the effects. *)
Lemma select_Pick text g i color g1 :
  select text g = Ok (Pick i color) g1 →
  same g g1 ∧ turn g1 = turn g
  ∧ ∀ h card, currentHand g = Some h → h !! i = Some card →
              isWild card = false → color = None.
Proof.
  set (Q := λ (sel : Selection) g', ∀ i c, sel = Pick i c →
              same g g' ∧ turn g' = turn g
              ∧ ∀ h card, currentHand g = Some h → h !! i = Some card →
                          isWild card = false → c = None).
  cut (wp (select text) Q (λ _, True) g).
  { unfold wp. intros H Heq. rewrite Heq in H. by eapply H. }
  assert (∀ g', wp (ret (Stop false)) Q (λ _, True) g') as Hstop
    by (intros g'; by apply wp_ret).
  unfold select. wp_step. wp_step. case_bool_decide as Ht.
  - unfold selectFirst. wp_step. wp_step. wp_step. wp_step. cbv zeta.
    wp_step. wp_step.
    destruct (discarded g !! _) as [card|] eqn:Hcard; [|done].
    destruct (hasEffect _ _) eqn:Hw.
    + wp_step. apply randomColor_wp. intros c g2 Hs Ht2 _. wp_step.
      intros ? ? [= <- <-]. destruct Hs as (?&?&?&?&?&?&?).
      split_and!; [same_solve|done|].
      intros h card'. unfold currentHand.
      rewrite bool_decide_eq_true_2 by done. intros [= <-]. rewrite Hcard.
      intros [= <-]. unfold isWild. congruence.
    + wp_step. intros ? ? [= <- <-]. split_and!; [same_solve|done..].
  - wp_step. wp_step.
    destruct (item (players g) (turn g)) as [p|] eqn:Hp; [|done].
    destruct (npc p).
    + unfold selectNPC. wp_step.
      apply (wp_mono _ (λ _ g', same g g' ∧ turn g' = turn g) _ (λ _, True));
        [| |done].
      { unfold catchPrevious. wp_run; try done; split; first [same_solve|done]. }
      intros catch g2 [Hs2 Ht2]. destruct catch.
      { wp_step. eapply wp_mono; [apply wp_any| |done]. intros ? g3 _.
        wp_step. wp_step. wp_step. apply Hstop. }
      wp_step. apply scanHand_wp; [|done]. intros [selected|].
      2:{ wp_step. eapply wp_mono; [apply wp_any| |done]. intros ? g3 _.
          apply Hstop. }
      wp_step. wp_step.
      destruct (hand p !! selected) as [card|] eqn:Hcard; [|done].
      wp_step.
      assert (∀ c g3, same g2 g3 → turn g3 = turn g2 →
        (isWild card = false → c = None) →
        wp (when (bool_decide (length (hand p) = 2%nat))
              (r <- random;
               when (atMost r (probCallUno p))
                 (emit (SetTimeout (CbCallUno (id p)) (delayCallUno p))));;
            ret (Pick selected c)) Q (λ _, True) g3) as Hlast.
      { intros c g3 Hs3 Ht3 Hc. wp_step.
        apply (wp_mono _ (λ _ g', same g3 g' ∧ turn g' = turn g3) _
                 (λ _, True)); [| |done].
        - wp_run; split; first [same_solve|done].
        - intros ? g4 [Hs4 Ht4]. wp_step. intros ? ? [= <- <-].
          destruct Hs2 as (?&?&?&?&?&?&?), Hs3 as (?&?&?&?&?&?&?),
            Hs4 as (?&?&?&?&?&?&?).
          split_and!; [repeat split; congruence|congruence|].
          intros h card'. unfold currentHand.
          rewrite bool_decide_eq_false_2, Hp by done. simpl.
          intros [= <-]. rewrite Hcard. by intros [= <-]. }
      destruct (hasEffect _ _) eqn:Hw.
      2:{ wp_step. by apply Hlast; [apply same_refl|..]. }
      destruct (handColors (hand p)) as [|c0 cs].
      * wp_step. apply randomColor_wp. intros c g3 Hs3 Ht3 _. wp_step.
        apply Hlast; [done..|]. unfold isWild. congruence.
      * wp_step. wp_step. wp_step. wp_step.
        destruct ((c0 :: cs) !! _); [|done]. wp_step.
        apply Hlast; [same_solve|done|]. unfold isWild. congruence.
    + unfold selectHuman.
      assert (∀ m, wp (emit (GroupSend m);; ret (Stop false)) Q (λ _, True) g)
        as Hsay by (intros m; wp_step; wp_step; apply Hstop).
      destruct text as [text|]; [|by apply Hsay].
      destruct (blank text); [by apply Hsay|].
      wp_step. apply parseToCard_wp; [|done].
      intros [parsed|]; [|by apply Hsay].
      destruct (_ && _); [by apply Hsay|].
      wp_step. wp_step. wp_step. wp_step.
      destruct (topCard g); [|done]. game_simpl.
      destruct (negb _); [by apply Hsay|].
      destruct (list_find _ _) as [[selected el]|] eqn:Hfind;
        [|by apply Hsay].
      wp_step. intros ? ? [= <- <-]. split_and!; [apply same_refl|done|].
      intros h card. unfold currentHand.
      rewrite bool_decide_eq_false_2, Hp by done. simpl. intros [= <-].
      apply list_find_Some in Hfind as (Hel & [Hface _] & _).
      rewrite Hel. intros [= <-]. unfold isWild. rewrite <- Hface.
      by intros ->.
Qed.

Lemma paint_None card : paint None card = card.
Proof. done. Qed.

(** The current player once the card at [i] has left the hand. *)
Definition without (i : nat) (p : Player) : Player :=
  setHand (delete i (hand p)) p.

(** ** Reverse between two players *)

(** The outcome that the specification promises to a Reverse between two
    players: the direction is flipped, the player who played it is the
    current player again, and in between the other player [q], who keeps
    hand and flag, is announced as skipped and no play of [q] is
    scheduled. *)
Definition reverse_outcome (text : option Text) (g g1 : Game) (i : nat)
    (p : Player) (card : Card) : Prop :=
  ∃ b g' q,
    playCard text g = Ok b g'
    ∧ direction g' = - direction g
    ∧ turn g' = turn g
    ∧ item (players g) (1 - turn g) = Some q
    ∧ item (players g') (1 - turn g) = Some q
    ∧ effects g'
      = turnEffects false q (without i p)
        ++ turnEffects true (without i p) q
        ++ GroupSend (HasCards (name p) (length (hand p) - 1) card)
           :: effects g1.

(** The law as the specification states it: every legal play of a Reverse
    between two players has that outcome. *)
Definition reverse_law (text : option Text) (g : Game) : Prop :=
  ∀ p top i color g1 card,
    length (players g) = 2%nat →
    direction g = 1 ∨ direction g = -1 →
    item (players g) (turn g) = Some p →
    topCard g = Some top →
    select text g = Ok (Pick i color) g1 →
    hand p !! i = Some card → face card = CardFace.REVERSE →
    reverse_outcome text g g1 i p card.

(** C4, amended.  Between two players, a legal play of a Reverse that is
    not the last card of the hand flips the direction and makes the same
    player the current player again; the other player is announced as
    skipped, keeps hand and flag, and no play of that player is
    scheduled. *)
Theorem reverse_is_skip text g p top i color g1 card :
  length (players g) = 2%nat →
  direction g = 1 ∨ direction g = -1 →
  item (players g) (turn g) = Some p →
  topCard g = Some top →
  select text g = Ok (Pick i color) g1 →
  hand p !! i = Some card → face card = CardFace.REVERSE →
  (2 ≤ length (hand p))%nat →
  reverse_outcome text g g1 i p card.
Proof.
  intros Hn Hd Hp Htop Hsel Hcard Hface Hlen.
  pose proof (item_lt _ _ _ Hp) as Ht. rewrite Hn in Ht.
  destruct (select_Pick _ _ _ _ _ Hsel) as (Hs & Ht1 & Hcol).
  assert (color = None) as ->.
  { apply (Hcol (hand p) card); [|done|].
    - unfold currentHand. rewrite bool_decide_eq_false_2 by lia.
      by rewrite Hp.
    - unfold isWild. by rewrite Hface. }
  destruct Hs as (Hps & Hdisc & Htop1 & Hst & Hmk & Hpv & Hdir).
  assert (item (players g1) (turn g1) = Some p) as Hp1
    by by rewrite Hps, Ht1.
  destruct (item_is_Some (players g) (1 - turn g)) as [q Hq];
    [rewrite Hn; lia|].
  unfold reverse_outcome, playCard, commit. rewrite (bind_Ok _ _ _ _ _ Hsel).
  rewrite (bind_Ok _ _ _ _ _
             (takeCard_Ok i None g1 p card top ltac:(lia) Hp1 Hcard
                ltac:(congruence))).
  rewrite paint_None.
  set (gt := taken i card top p g1).
  apply item_Some in Hp as [Hi Hp]. apply item_Some in Hq as [Hj Hq].
  assert (Z.to_nat (1 - turn g) ≠ Z.to_nat (turn g)) as Hne by lia.
  assert (players gt = <[Z.to_nat (turn g) := without i p]> (players g))
    as Hpst by (subst gt; unfold taken; game_simpl; by rewrite Ht1, Hps).
  assert (item (players gt) (turn g) = Some (without i p)) as Hpt.
  { apply item_Some. split; [done|]. rewrite Hpst.
    apply list_lookup_insert_eq. by eapply lookup_lt_Some. }
  assert (item (players gt) (1 - turn g) = Some q) as Hqt.
  { apply item_Some. split; [done|]. rewrite Hpst.
    by rewrite list_lookup_insert_ne. }
  assert (length (players gt) = 2%nat) as Hnt
    by (rewrite Hpst, length_insert; done).
  assert (turn gt = turn g) as Htt by done.
  assert (direction gt = direction g) as Hdt by done.
  assert (length (hand (without i p)) = (length (hand p) - 1)%nat) as Hlw
    by (unfold without; game_simpl; rewrite length_delete; eauto).
  cut (wp (resolve card)
         (λ b g', direction g' = - direction g ∧ turn g' = turn g
                  ∧ item (players g') (1 - turn g) = Some q
                  ∧ effects g'
                    = turnEffects false q (without i p)
                      ++ turnEffects true (without i p) q
                      ++ GroupSend (HasCards (name p) (length (hand p) - 1)
                                      card) :: effects g1)
         (λ _, False) gt).
  { intros H. apply wp_Ok in H as (b & g' & Heq & ? & ? & ? & ?).
    exists b, g', q. split_and!; try done. by apply item_Some. }
  unfold resolve. wp_steps.
  rewrite Htt, (bool_decide_eq_false_2 (turn g = -1)) by lia.
  rewrite Hnt, Hface, !Hpt.
  rewrite (bool_decide_eq_true_2 (turn g > -1)) by lia.
  change (hasEffect CardFace.REVERSE CardFace.REVERSE_EFFECT) with true.
  change (hasEffect CardFace.REVERSE CardFace.SKIP_EFFECT) with false.
  change (hasEffect CardFace.REVERSE CardFace.DRAW_TWO_EFFECT) with false.
  change (hasEffect CardFace.REVERSE CardFace.DRAW_FOUR_EFFECT) with false.
  wp_steps. rewrite Hlw.
  rewrite (bool_decide_eq_true_2 (_ ≠ 0%nat)) by lia.
  rewrite (bool_decide_eq_false_2 (_ = 0%nat)) by lia.
  cbn [andb]. wp_steps. 
  rewrite bool_decide_eq_true_2 by done. cbn [orb]. game_simpl.
  set (g2 := setDirection _ _).
  assert (advance 2 (turn g) (direction g * -1) = 1 - turn g) as Hadv
    by (apply advance_two; lia).
  assert (advance 2 (1 - turn g) (direction g * -1) = turn g) as Hadv'
    by (rewrite advance_two; lia).
  eapply wp_eq.
  { apply (nextTurn_Ok true g2 (without i p) q).
    - subst g2. game_simpl. by rewrite Htt.
    - subst g2. game_simpl. by rewrite Hnt, Htt, Hdt, Hadv. }
  subst g2. game_simpl. rewrite Hnt, Htt, Hdt, Hadv.
  unfold when. wp_steps.
  eapply wp_eq.
  { apply (nextTurn_Ok false _ q (without i p)); game_simpl.
    - done.
    - by rewrite Hnt, Hadv'. }
  game_simpl. rewrite Hnt, Hadv'. wp_steps. game_simpl.
  split_and!; [lia|done|done|done].
Qed.

(** ** Draw Two *)

(** C5.  When the current player [p] legally plays a Draw Two that is not
    the last card of the hand, and the pool from which cards are drawn,
    which has received the previous top card by then, holds two cards at
    least, then the next player [q] in turn order, taken as this player
    stands once the card has left the hand of [p], gains exactly two cards,
    is announced as skipped with no play scheduled, and the turn passes to
    the player [r] after [q]. *)
Theorem draw_two_law text g p top i color g1 card q :
  let n := length (players g) in
  let next := advance n (turn g) (direction g) in
  item (players g) (turn g) = Some p →
  topCard g = Some top →
  select text g = Ok (Pick i color) g1 →
  hand p !! i = Some card → face card = CardFace.DRAW_TWO →
  (2 ≤ length (hand p))%nat →
  (2 ≤ length (discarded g ++ [top]))%nat →
  item (<[Z.to_nat (turn g) := without i p]> (players g)) next = Some q →
  ∃ g' q' r drawn,
    playCard text g = Ok false g'
    ∧ item (players g') next = Some q'
    ∧ length (hand q') = (length (hand q) + 2)%nat
    ∧ turn g' = advance n next (direction g)
    ∧ item (players g') (turn g') = Some r
    ∧ effects g'
      = turnEffects false q' r
        ++ drawEffects false q 2 drawn (hand q')
        ++ turnEffects true (without i p) q
        ++ GroupSend (HasCards (name p) (length (hand p) - 1) card)
           :: effects g1.
Proof.
  intros n next Hp Htop Hsel Hcard Hface Hlen Hpool Hq.
  pose proof (item_lt _ _ _ Hp) as Ht. fold n in Ht.
  destruct (select_Pick _ _ _ _ _ Hsel) as (Hs & Ht1 & Hcol).
  assert (color = None) as ->.
  { apply (Hcol (hand p) card); [|done|].
    - unfold currentHand. rewrite bool_decide_eq_false_2 by lia.
      by rewrite Hp.
    - unfold isWild. by rewrite Hface. }
  destruct Hs as (Hps & Hdisc & Htop1 & Hst & Hmk & Hpv & Hdir).
  assert (item (players g1) (turn g1) = Some p) as Hp1
    by by rewrite Hps, Ht1.
  unfold playCard, commit. rewrite (bind_Ok _ _ _ _ _ Hsel).
  rewrite (bind_Ok _ _ _ _ _
             (takeCard_Ok i None g1 p card top ltac:(lia) Hp1 Hcard
                ltac:(congruence))).
  rewrite paint_None.
  set (gt := taken i card top p g1).
  apply item_Some in Hp as [Hi Hp].
  assert (players gt = <[Z.to_nat (turn g) := without i p]> (players g))
    as Hpst by (subst gt; unfold taken; game_simpl; by rewrite Ht1, Hps).
  assert (item (players gt) (turn g) = Some (without i p)) as Hpt.
  { apply item_Some. split; [done|]. rewrite Hpst.
    apply list_lookup_insert_eq. by eapply lookup_lt_Some. }
  assert (length (players gt) = n) as Hnt
    by (rewrite Hpst, length_insert; done).
  assert (turn gt = turn g) as Htt by done.
  assert (direction gt = direction g) as Hdt by done.
  assert (discarded gt = discarded g ++ [top]) as Hdt'
    by (subst gt; unfold taken; game_simpl; by rewrite Hdisc).
  assert (length (hand (without i p)) = (length (hand p) - 1)%nat) as Hlw
    by (unfold without; game_simpl; rewrite length_delete; eauto).
  rewrite <- Hpst in Hq.
  set (g3 := setEffects
               (turnEffects true (without i p) q
                ++ GroupSend (HasCards (name p) (length (hand p) - 1) card)
                   :: effects g1)
               (setTurn next (setPreviousTurn (turn g) gt))).
  destruct (drawCards_Ok 2 false g3 q Hq)
    as (drawn & pool' & rs' & Hdraw & _ & _ & Hdrawn).
  cbv zeta in Hdraw.
  set (q' := setCalledUno false
               (setHand (drawnHand q (resetWild <$> drawn)) q)).
  fold q' in Hdraw.
  assert (0 ≤ next < Z.of_nat n) as Hnext by (apply advance_range; lia).
  set (g4 := setPlayers _ _) in Hdraw.
  assert (length (players g4) = n) as Hn4
    by (subst g4; game_simpl; by rewrite length_insert).
  assert (item (players g4) next = Some q') as Hq4.
  { apply item_Some. split; [lia|]. subst g4 g3. game_simpl.
    apply list_lookup_insert_eq. rewrite Hnt. lia. }
  destruct (item_is_Some (players g4) (advance n next (direction g)))
    as [r Hr]; [rewrite Hn4; apply advance_range; lia|].
  exists (setEffects (turnEffects false q' r ++ effects g4)
            (setTurn (advance n next (direction g)) g4)),
    q', r, (resetWild <$> drawn).
  cut (wp (resolve card)
         (λ b g', b = false
            ∧ g' = setEffects (turnEffects false q' r ++ effects g4)
                     (setTurn (advance n next (direction g)) g4))
         (λ _, False) gt).
  { intros H. apply wp_Ok in H as (b & g' & Heq & -> & ->).
    split_and!; try done.
    subst q'. game_simpl. rewrite length_drawnHand, length_fmap, Hdrawn.
    subst g3. game_simpl. rewrite Hdt'. lia. }
  unfold resolve. wp_steps.
  rewrite Htt, (bool_decide_eq_false_2 (turn g = -1)) by lia.
  rewrite Hface, !Hpt.
  rewrite (bool_decide_eq_true_2 (turn g > -1)) by lia.
  change (hasEffect CardFace.DRAW_TWO CardFace.REVERSE_EFFECT) with false.
  change (hasEffect CardFace.DRAW_TWO CardFace.SKIP_EFFECT) with true.
  change (hasEffect CardFace.DRAW_TWO CardFace.DRAW_TWO_EFFECT) with true.
  change (hasEffect CardFace.DRAW_TWO CardFace.DRAW_FOUR_EFFECT) with false.
  wp_steps. rewrite Hlw.
  rewrite (bool_decide_eq_true_2 (_ ≠ 0%nat)) by lia.
  rewrite (bool_decide_eq_false_2 (_ = 0%nat)) by lia.
  cbn [andb]. wp_steps. cbn [orb]. game_simpl.
  eapply wp_eq.
  { apply (nextTurn_Ok true _ (without i p) q); game_simpl.
    - by rewrite Htt.
    - by rewrite Hnt, Htt, Hdt. }
  game_simpl. rewrite Hnt, Htt, Hdt. fold next.
  unfold when. wp_steps.
  match goal with
  | |- wp _ ?Q ?E _ => change (wp (drawCards 2 false) Q E g3)
  end.
  eapply wp_eq; [exact Hdraw|]. wp_steps.
  eapply wp_eq.
  { apply (nextTurn_Ok false g4 q' r).
    - exact Hq4.
    - change (direction g4) with (direction g1). rewrite Hn4, Hdir.
      exact Hr. }
  wp_steps. split; [done|].
  change (direction g4) with (direction g1). by rewrite Hn4, Hdir.
Qed.

(** ** The second half of [playCard] returns *)

(** A turn of the game with [c] on top. *)
Definition playing (c : Card) (g : Game) : Prop :=
  is_Some (item (players g) (turn g)) ∧ topCard g = Some c.

Lemma nextTurn_playing skip c g :
  playing c g → wp (nextTurn skip) (λ _, playing c) (λ _, False) g.
Proof.
  intros [[p Hp] Htop]. pose proof (item_lt _ _ _ Hp) as Ht.
  destruct (item_is_Some (players g)
              (advance (length (players g)) (turn g) (direction g)))
    as [q Hq]; [apply advance_range; lia|].
  eapply wp_eq; [by apply (nextTurn_Ok skip g p q)|].
  split; [|done]. game_simpl. eauto.
Qed.

Lemma drawCards_playing num silent c g :
  playing c g → wp (drawCards num silent) (λ _, playing c) (λ _, False) g.
Proof.
  intros [[p Hp] Htop].
  destruct (drawCards_Ok num silent g p Hp) as (? & ? & ? & Heq & _).
  eapply wp_eq; [exact Heq|]. split; [|done]. game_simpl.
  apply item_Some in Hp as [? Hp]. apply item_is_Some.
  rewrite length_insert. apply lookup_lt_Some in Hp. lia.
Qed.

Lemma when_playing b (m : Act unit) c g :
  (∀ g, playing c g → wp m (λ _, playing c) (λ _, False) g) →
  playing c g → wp (when b m) (λ _, playing c) (λ _, False) g.
Proof. intros Hm Hg. destruct b; [by apply Hm|by apply wp_ret]. Qed.

Lemma resolve_total card c g :
  playing c g →
  wp (resolve card) (λ _ g', topCard g' = Some c) (λ _, False) g.
Proof.
  intros [[p Hp] Htop]. pose proof (item_lt _ _ _ Hp) as Ht.
  unfold resolve. wp_steps.
  rewrite (bool_decide_eq_false_2 (turn g = -1)) by lia.
  rewrite !Hp. wp_steps.
  apply (wp_mono _ (λ _, playing c) _ (λ _, False)); [| |done].
  { destruct (_ && _); wp_steps; by split; game_simpl; eauto. }
  intros _ g1 Hg1. case_bool_decide.
  { wp_steps. unfold when, endGame. destruct (npc p); wp_steps; apply Hg1. }
  wp_step. wp_step. wp_step.
  apply (wp_mono _ (λ _, playing c) _ (λ _, False)); [| |done].
  { destruct Hg1. destruct (hasEffect _ _); wp_steps; by split. }
  intros skipping g2 Hg2. wp_step.
  eapply wp_mono; [by apply nextTurn_playing| |done]. intros ? g3 Hg3.
  wp_step.
  apply (wp_mono _ (λ _, playing c) _ (λ _, False));
    [apply when_playing; [intros; by apply drawCards_playing|done]| |done].
  intros ? g4 Hg4. wp_step.
  apply (wp_mono _ (λ _, playing c) _ (λ _, False));
    [apply when_playing; [intros; by apply drawCards_playing|done]| |done].
  intros ? g5 Hg5. wp_step.
  apply (wp_mono _ (λ _, playing c) _ (λ _, False));
    [apply when_playing; [intros; by apply nextTurn_playing|done]| |done].
  intros ? g6 Hg6. wp_step. apply Hg6.
Qed.

(** ** The card that a human player names *)

(** The test of the [findIndex] of [playCard]: the card [el] of the hand is
    the card that the text names. *)
Definition namedBy (parsed el : Card) : Prop :=
  face parsed = face el
  ∧ (hasEffect (face parsed) CardFace.WILD_EFFECT = true
     ∨ color parsed = color el).

(** The colour that [playCard] hands on for the card that the text names:
    the colour named with a wild card. *)
Definition chosenFor (parsed : Card) : option Z :=
  if hasEffect (face parsed) CardFace.WILD_EFFECT
  then Some (color parsed) else None.

Lemma parseToCard_Ok text g r g' : parseToCard text g = Ok r g' → g' = g.
Proof.
  intros Heq.
  pose proof (parseToCard_wp text (λ _ g', g' = g) (λ _, True) g
                (λ _, eq_refl) I) as H.
  unfold wp in H. by rewrite Heq in H.
Qed.

(** The first half of [playCard] for a human player whose text names a
    card, with a colour if the card is wild. *)
Lemma selectHuman_parsed text g p top parsed g0 :
  item (players g) (turn g) = Some p → npc p = false →
  topCard g = Some top → blank text = false →
  parseToCard text g = Ok (Some parsed) g0 →
  (isWild parsed = true → color parsed ≠ Color.NONE) →
  select (Some text) g
  = if negb (playable parsed top)
    then Ok (Stop false) (setEffects (GroupSend (NotValid top) :: effects g) g)
    else
      match list_find (namedBy parsed) (hand p) with
      | None =>
          Ok (Stop false) (setEffects (GroupSend NotHeld :: effects g) g)
      | Some (selected, _) => Ok (Pick selected (chosenFor parsed)) g
      end.
Proof.
  intros Hp Hnpc Htop Hblank Hparse Hcol.
  pose proof (item_lt _ _ _ Hp) as Ht.
  pose proof (parseToCard_Ok _ _ _ _ Hparse) as ->.
  unfold select. rewrite (bind_Ok get _ g g g eq_refl).
  rewrite bool_decide_eq_false_2, Hp by lia.
  rewrite (bind_Ok (the (Some p)) _ g p g eq_refl), Hnpc.
  unfold selectHuman. rewrite Hblank, (bind_Ok _ _ _ _ _ Hparse).
  cbv zeta. unfold chosenFor, namedBy.
  destruct (hasEffect (face parsed) CardFace.WILD_EFFECT) eqn:Hw;
    cbn [andb].
  - rewrite bool_decide_eq_false_2 by (by apply Hcol).
    rewrite (bind_Ok get _ g g g eq_refl), Htop.
    rewrite (bind_Ok (the (Some top)) _ g top g eq_refl).
    destruct (negb _); [done|]. by destruct (list_find _ _) as [[? ?]|].
  - rewrite (bind_Ok get _ g g g eq_refl), Htop.
    rewrite (bind_Ok (the (Some top)) _ g top g eq_refl).
    destruct (negb _); [done|]. by destruct (list_find _ _) as [[? ?]|].
Qed.

(** C2.  [checkCard(c, t)] is true exactly when [c] has the wild bit, or the
    base ranks of [c] and [t] are equal, or their colours are; the test of
    [playCard] on the card parsed from a player's text against the top
    card of a reachable state has the value of [checkCard]; and [playCard]
    accepts the card that a human player names under exactly this
    condition: when [checkCard] rejects it, [playCard] says that the card
    is not valid, returns [false] and plays nothing; when [checkCard]
    accepts it, [playCard] plays the first card of the hand that the text
    names, in the colour named if it is wild, or says that the player does
    not hold the card when the hand has none. *)
Theorem legality_law :
  (∀ c t,
     checkCard c t = true ↔
       Z.land (face c) CardFace.WILD_EFFECT ≠ 0
       ∨ Z.land (face c) CardFace.BASE_MASK
         = Z.land (face t) CardFace.BASE_MASK
       ∨ color c = color t)
  ∧ (∀ g top text g' parsed,
       reachable g → topCard g = Some top →
       parseToCard text g = Ok (Some parsed) g' →
       playable parsed top = checkCard parsed top)
  ∧ (∀ g p top text g0 parsed,
       reachable g →
       item (players g) (turn g) = Some p → npc p = false →
       topCard g = Some top → blank text = false →
       parseToCard text g = Ok (Some parsed) g0 →
       (isWild parsed = true → color parsed ≠ Color.NONE) →
       (checkCard parsed top = false →
        playCard (Some text) g
        = Ok false (setEffects (GroupSend (NotValid top) :: effects g) g))
       ∧ (checkCard parsed top = true →
          (∀ i card,
             hand p !! i = Some card → namedBy parsed card →
             (∀ j c, (j < i)%nat → hand p !! j = Some c →
                     ¬ namedBy parsed c) →
             ∃ b g',
               playCard (Some text) g = Ok b g'
               ∧ topCard g' = Some (paint (chosenFor parsed) card))
          ∧ ((∀ j c, hand p !! j = Some c → ¬ namedBy parsed c) →
             playCard (Some text) g
             = Ok false
                 (setEffects (GroupSend NotHeld :: effects g) g)))).
Proof.
  assert (∀ g top text g' parsed,
    reachable g → topCard g = Some top →
    parseToCard text g = Ok (Some parsed) g' →
    playable parsed top = checkCard parsed top) as Hsame.
  { intros g top text g' parsed Hg Htop Hparse.
    apply parseToCard_face, isCardFace_faceValues in Hparse.
    assert (face top ∈ faceValues) as Hf.
    { apply (reachable_faces g); [done|]. unfold allCards, cardsIn.
      rewrite Htop. simpl. rewrite !elem_of_app. right. right.
      apply list_elem_of_singleton. done. }
    unfold playable, checkCard.
    rewrite (base_rank_injective _ _ Hparse Hf).
    destruct (hasEffect (face parsed) CardFace.WILD_EFFECT); [|done].
    simpl. apply orb_true_r. }
  split_and!; [|exact Hsame|].
  - intros c t. unfold checkCard, hasEffect, truthy.
    destruct (Z.land (face c) CardFace.WILD_EFFECT =? 0) eqn:Hw; simpl.
    + apply Z.eqb_eq in Hw. rewrite orb_true_iff, !Z.eqb_eq. tauto.
    + apply Z.eqb_neq in Hw. tauto.
  - intros g p top text g0 parsed Hg Hp Hnpc Htop Hblank Hparse Hcol.
    pose proof (item_lt _ _ _ Hp) as Ht.
    pose proof (selectHuman_parsed _ _ _ _ _ _ Hp Hnpc Htop Hblank Hparse
                  Hcol) as Hsel.
    rewrite (Hsame _ _ _ _ _ Hg Htop Hparse) in Hsel.
    split.
    { intros Hno. rewrite Hno in Hsel. cbn [negb] in Hsel.
      unfold playCard. by rewrite (bind_Ok _ _ _ _ _ Hsel). }
    intros Hyes. rewrite Hyes in Hsel. cbn [negb] in Hsel. split.
    + intros i card Hi Hnamed Hfirst.
      assert (list_find (namedBy parsed) (hand p) = Some (i, card)) as Hfind.
      { apply list_find_Some. split_and!; [done..|].
        intros j c Hc Hj. by apply (Hfirst j c). }
      rewrite Hfind in Hsel.
      assert (resolve (paint (chosenFor parsed) card)
                (taken i (paint (chosenFor parsed) card) top p g)
              = playCard (Some text) g) as Hplay.
      { unfold playCard, commit. rewrite (bind_Ok _ _ _ _ _ Hsel).
        by rewrite (bind_Ok _ _ _ _ _
                      (takeCard_Ok i (chosenFor parsed) g p card top
                         ltac:(lia) Hp Hi Htop)). }
      assert (playing (paint (chosenFor parsed) card)
                (taken i (paint (chosenFor parsed) card) top p g))
        as Hplaying.
      { split; [|done]. unfold taken. game_simpl.
        apply item_is_Some. by rewrite length_insert. }
      apply (resolve_total (paint (chosenFor parsed) card)), wp_Ok
        in Hplaying as (b & g' & Heq & Htop').
      rewrite Hplay in Heq. by exists b, g'.
    + intros Hnone.
      assert (list_find (namedBy parsed) (hand p) = None) as Hfind.
      { apply list_find_None, Forall_forall.
        intros c [j Hc]%list_elem_of_lookup. by apply (Hnone j). }
      rewrite Hfind in Hsel.
      unfold playCard. by rewrite (bind_Ok _ _ _ _ _ Hsel).
Qed.

(** ** The policy of an NPC *)

Lemma checkCardTop_Ok card top g :
  topCard g = Some top → checkCardTop card g = Ok (checkCard card top) g.
Proof.
  intros Htop. unfold checkCardTop, checkCard.
  destruct (hasEffect _ _); [done|].
  unfold bind, get, the, ret. by rewrite Htop.
Qed.

(** The loop ends on the last card that [checkCard] accepts. *)
Lemma scanHand_found n h g top i card :
  topCard g = Some top → (i < n ≤ length h)%nat →
  h !! i = Some card → checkCard card top = true →
  (∀ j c, (i < j < n)%nat → h !! j = Some c → checkCard c top = false) →
  scanHand n h g = Ok (Some i) g.
Proof.
  intros Htop Hn Hi Hok Hlast. induction n as [|n IH]; [lia|].
  cbn [scanHand].
  destruct (lookup_lt_is_Some_2 h n ltac:(lia)) as [c Hc]. rewrite Hc.
  rewrite (bind_Ok (the (Some c)) _ g c g eq_refl).
  rewrite (bind_Ok _ _ _ _ _ (checkCardTop_Ok c top g Htop)).
  destruct (decide (i = n)) as [->|Hne].
  - assert (c = card) as -> by congruence. by rewrite Hok.
  - rewrite (Hlast n c) by (done || lia).
    apply IH; [lia|]. intros j c' ?. apply Hlast. lia.
Qed.

Lemma scanHand_none n h g top :
  topCard g = Some top → (n ≤ length h)%nat →
  (∀ j c, (j < n)%nat → h !! j = Some c → checkCard c top = false) →
  scanHand n h g = Ok None g.
Proof.
  intros Htop Hn Hnone. induction n as [|n IH]; [done|].
  cbn [scanHand].
  destruct (lookup_lt_is_Some_2 h n ltac:(lia)) as [c Hc]. rewrite Hc.
  rewrite (bind_Ok (the (Some c)) _ g c g eq_refl).
  rewrite (bind_Ok _ _ _ _ _ (checkCardTop_Ok c top g Htop)).
  rewrite (Hnone n c) by (done || lia).
  apply IH; [lia|]. intros j c' ?. apply Hnone. lia.
Qed.

Lemma catchPrevious_same p g b g0 :
  catchPrevious p g = Ok b g0 → same g g0 ∧ turn g0 = turn g.
Proof.
  cut (wp (catchPrevious p) (λ _ g', same g g' ∧ turn g' = turn g)
         (λ _, True) g).
  { unfold wp. intros H Heq. by rewrite Heq in H. }
  unfold catchPrevious. wp_run; try done; split; first [same_solve|done].
Qed.

(** The NPC that finds a card to play picks it. *)
Lemma selectNPC_Pick text p g g0 i card :
  catchPrevious p g = Ok false g0 →
  scanHand (length (hand p)) (hand p) g0 = Ok (Some i) g0 →
  hand p !! i = Some card →
  ∃ color g1, selectNPC text p g = Ok (Pick i color) g1.
Proof.
  intros Hcatch Hscan Hi.
  cut (wp (selectNPC text p) (λ sel _, ∃ color, sel = Pick i color)
         (λ _, False) g).
  { intros H. apply wp_Ok in H as (sel & g1 & Heq & color & ->). eauto. }
  unfold selectNPC. wp_step. eapply wp_eq; [exact Hcatch|]. cbv beta iota.
  wp_step. eapply wp_eq; [exact Hscan|]. cbv beta iota.
  wp_step. rewrite Hi. wp_step. wp_step.
  apply (wp_mono _ (λ _ _, True) _ (λ _, False)).
  - destruct (hasEffect _ _); [|by wp_step].
    destruct (handColors (hand p)) as [|c cs] eqn:Hcs.
    + wp_step. apply randomColor_wp. intros. by wp_step.
    + wp_step. wp_step. wp_step. wp_step.
      destruct (lookup_lt_is_Some_2 (c :: cs)
                  (below (length (c :: cs)) (hd 0%nat (entropy g0))))
        as [c' Hc']; [apply below_lt; simpl; lia|].
      rewrite Hc'. by wp_step.
  - intros color g1 _. wp_run; eauto.
  - done.
Qed.

(** C6, amended.  On the turn of an NPC [p] that does not take this turn to
    call on the previous player, the card that becomes the top card is the
    card of the hand at the largest index that [checkCard] accepts against
    the top card, in the colour chosen for it when it is wild; and when
    [checkCard] accepts no card of the hand, nothing is played, the NPC
    draws one card if the pool holds one and none if the pool is empty, and
    the turn goes to the next player. *)
Theorem npc_policy text g p top g0 :
  item (players g) (turn g) = Some p → npc p = true →
  topCard g = Some top →
  catchPrevious p g = Ok false g0 →
  (∀ i card,
     hand p !! i = Some card → checkCard card top = true →
     (∀ j c, (i < j)%nat → hand p !! j = Some c → checkCard c top = false) →
     ∃ color b g',
       playCard text g = Ok b g'
       ∧ topCard g' = Some (paint color card)
       ∧ (isWild card = false → color = None))
  ∧ ((∀ j c, hand p !! j = Some c → checkCard c top = false) →
     ∃ g' p',
       playCard text g = Ok false g'
       ∧ topCard g' = Some top
       ∧ item (players g') (turn g) = Some p'
       ∧ length (hand p')
         = (length (hand p) + 1 `min` length (discarded g))%nat
       ∧ turn g'
         = advance (length (players g)) (turn g) (direction g)).
Proof.
  intros Hp Hnpc Htop Hcatch.
  pose proof (item_lt _ _ _ Hp) as Ht.
  destruct (catchPrevious_same _ _ _ _ Hcatch) as [Hs Ht0].
  destruct Hs as (Hps & Hdisc & Htop0 & Hst & Hmk & Hpv & Hdir).
  assert (select text g = selectNPC text p g) as Hsel.
  { unfold select. rewrite (bind_Ok get _ g g g eq_refl).
    rewrite bool_decide_eq_false_2, Hp by lia.
    by rewrite (bind_Ok (the (Some p)) _ g p g eq_refl), Hnpc. }
  assert (item (players g0) (turn g0) = Some p) as Hp0
    by by rewrite Hps, Ht0.
  split.
  - intros i card Hi Hok Hlast.
    assert (scanHand (length (hand p)) (hand p) g0 = Ok (Some i) g0)
      as Hscan.
    { apply (scanHand_found _ _ _ top i card); try done.
      - congruence.
      - apply lookup_lt_Some in Hi. lia.
      - intros j c ?. apply Hlast. lia. }
    destruct (selectNPC_Pick text p g g0 i card Hcatch Hscan Hi)
      as (color & g1 & Hpick).
    rewrite <- Hsel in Hpick.
    destruct (select_Pick _ _ _ _ _ Hpick) as (Hs1 & Ht1 & Hcol).
    destruct Hs1 as (Hps1 & Hdisc1 & Htop1 & _).
    assert (resolve (paint color card)
              (taken i (paint color card) top p g1)
            = playCard text g) as Hplay.
    { unfold playCard, commit. rewrite (bind_Ok _ _ _ _ _ Hpick).
      by rewrite (bind_Ok _ _ _ _ _
                    (takeCard_Ok i color g1 p card top ltac:(lia)
                       ltac:(by rewrite Hps1, Ht1) Hi
                       ltac:(congruence))). }
    assert (playing (paint color card)
              (taken i (paint color card) top p g1)) as Hplaying.
    { split; [|done]. unfold taken. game_simpl. rewrite Hps1, Ht1.
      apply item_is_Some. by rewrite length_insert. }
    apply (resolve_total (paint color card)), wp_Ok in Hplaying
      as (b & g' & Heq & Htop').
    rewrite Hplay in Heq. exists color, b, g'. split_and!; [done..|].
    apply (Hcol (hand p) card); [|done].
    unfold currentHand. rewrite bool_decide_eq_false_2 by lia.
    by rewrite Hp.
  - intros Hnone.
    assert (scanHand (length (hand p)) (hand p) g0 = Ok None g0) as Hscan.
    { apply (scanHand_none _ _ _ top); [congruence|done|].
      intros j c _. apply Hnone. }
    destruct (drawCards_Ok 1 false g0 p Hp0)
      as (drawn & pool' & rs' & Hdraw & _ & _ & Hdrawn).
    cbv zeta in Hdraw.
    set (p' := setCalledUno false
                 (setHand (drawnHand p (resetWild <$> drawn)) p)) in *.
    set (g2 := setPlayers _ _) in Hdraw.
    assert (length (players g2) = length (players g)) as Hn2
      by (subst g2; game_simpl; by rewrite length_insert, Hps).
    assert (item (players g2) (turn g) = Some p') as Hp2.
    { apply item_Some. split; [lia|]. subst g2. game_simpl.
      rewrite Ht0. apply list_lookup_insert_eq. rewrite Hps. lia. }
    destruct (item_is_Some (players g2)
                (advance (length (players g)) (turn g) (direction g)))
      as [q Hq]; [rewrite Hn2; apply advance_range; lia|].
    set (G := setEffects (turnEffects false p' q ++ effects g2)
                (setTurn (advance (length (players g)) (turn g)
                            (direction g)) g2)).
    assert (nextTurn false g2 = Ok tt G) as Hnext.
    { subst G. rewrite <- Hn2, <- Hdir, <- Ht0.
      apply (nextTurn_Ok false g2 p' q).
      - change (turn g2) with (turn g0). by rewrite Ht0.
      - change (turn g2) with (turn g0).
        change (direction g2) with (direction g0).
        by rewrite Hn2, Ht0, Hdir. }
    exists G, p'. split_and!.
    + assert (drawAndSkip 1 g0 = Ok tt G) as Hskip
        by (unfold drawAndSkip; by rewrite (bind_Ok _ _ _ _ _ Hdraw)).
      assert (select text g = Ok (Stop false) G) as Hstop.
      { rewrite Hsel. unfold selectNPC.
        rewrite (bind_Ok _ _ _ _ _ Hcatch), (bind_Ok _ _ _ _ _ Hscan).
        by rewrite (bind_Ok _ _ _ _ _ Hskip). }
      unfold playCard. by rewrite (bind_Ok _ _ _ _ _ Hstop).
    + change (topCard G) with (topCard g0). congruence.
    + exact Hp2.
    + subst p'. game_simpl.
      rewrite length_drawnHand, length_fmap, Hdrawn, Hdisc. lia.
    + done.
Qed.
(** ** Removing the creator *)

(** C8.  [removePlayer] does not spare the creator of the game: called with
    the creator's id, bare or as the [id] of a member object, while the
    creator is the player at [index], it takes this player out of the list
    and puts the hand into the pool. *)
Theorem removePlayer_creator ref g index gone :
  maker g ≠ EmptyString →
  ref = ById (maker g) ∨ ref = ByObject (maker g) →
  list_find (λ player, id player = maker g) (players g)
  = Some (index, gone) →
  players (final (removePlayer ref g)) = delete index (players g)
  ∧ length (players (final (removePlayer ref g)))
    = (length (players g) - 1)%nat
  ∧ discarded (final (removePlayer ref g)) = discarded g ++ hand gone.
Proof.
  intros Hm Href Hfind.
  pose proof (proj1 (list_find_Some _ _ _ _) Hfind) as (Hi & _ & _).
  assert (length (delete index (players g))
          = (length (players g) - 1)%nat) as Hlen
    by (rewrite length_delete; eauto).
  apply (proj1 (wp_final (removePlayer ref)
                  (λ g', players g' = delete index (players g)
                         ∧ length (players g')
                           = (length (players g) - 1)%nat
                         ∧ discarded g' = discarded g ++ hand gone) g)).
  assert (match ref with ById i => i | ByObject i => i end = maker g)
    as Hid by (by destruct Href as [-> | ->]).
  unfold removePlayer. rewrite Hid.
  rewrite bool_decide_eq_false_2 by done. wp_steps.
  rewrite bool_decide_eq_false_2
    by (apply lookup_lt_Some in Hi; lia).
  cbn [idOfString looseEq orb]. rewrite Hfind.
  wp_steps. unfold when. case_bool_decide; [|by wp_steps].
  apply nextTurn_wp; intros g' (-> & -> & _); by intros.
Qed.

(** ** Runs of a game *)

(** The state after the events [es], one after the other. *)
Definition run (es : list Event) (g : Game) : Game :=
  foldl (λ g e, final (handle e g)) g es.

Lemma reachable_run es g : reachable g → reachable (run es g).
Proof.
  revert g. induction es as [|e es IH]; intros g Hg; [done|].
  apply IH. by apply reachable_handle.
Qed.

(** Every event of [es] comes in time. *)
Fixpoint inOrder (es : list Event) (g : Game) : bool :=
  match es with
  | [] => true
  | e :: es => timely e g && inOrder es (final (handle e g))
  end.

Lemma orderly_run es g :
  orderly g → inOrder es g = true → orderly (run es g).
Proof.
  revert g. induction es as [|e es IH]; intros g Hg Hes; [done|].
  simpl in Hes. apply andb_true_iff in Hes as [He Hes].
  apply IH; [|done]. by apply orderly_handle.
Qed.

Lemma orderly_reachable g : orderly g → reachable g.
Proof.
  induction 1; [apply reachable_new|by apply reachable_handle].
Qed.

(** *** Timers that are pending *)

(** The timers that effects set, oldest first. *)
Definition timersOf (es : list Effect) : list Callback :=
  reverse (omap (λ e, match e with
                      | SetTimeout cb _ => Some cb
                      | _ => None
                      end) es).

(** The timers that have been set on the way from [g] to [g']. *)
Definition newTimers (g g' : Game) : list Callback :=
  timersOf (take (length (effects g') - length (effects g)) (effects g')).

Global Instance Callback_eq_dec : EqDecision Callback.
Proof. solve_decision. Defined.

(** [cb] taken out of the pending timers, if it is there. *)
Fixpoint removeOne (cb : Callback) (ts : list Callback)
    : option (list Callback) :=
  match ts with
  | [] => None
  | t :: ts =>
      if decide (t = cb) then Some ts else (t ::.) <$> removeOne cb ts
  end.

(** The run of the events [es] from [g] with the timers [pending], in which
    a timer fires only if it has been set and has not fired yet; the result
    is [None] when an event of [es] is a timer that is not pending. *)
Fixpoint replay (es : list Event) (g : Game) (pending : list Callback)
    : option (Game * list Callback) :=
  match es with
  | [] => Some (g, pending)
  | Message author cmd :: es =>
      let g' := final (handle (Message author cmd) g) in
      replay es g' (pending ++ newTimers g g')
  | Timeout cb :: es =>
      match removeOne cb pending with
      | Some rest =>
          let g' := final (handle (Timeout cb) g) in
          replay es g' (rest ++ newTimers g g')
      | None => None
      end
  end.

Lemma replay_run es : ∀ g pending g' pending',
  replay es g pending = Some (g', pending') → g' = run es g.
Proof.
  induction es as [|[author cmd|cb] es IH]; intros g ts g' ts' H; simpl in *.
  - by injection H as <- _.
  - by apply IH in H.
  - destruct (removeOne cb ts); [|done]. by apply IH in H.
Qed.

(** ** The colours of the wild cards in a game *)



(** * Games played out

    Four games, from the lobby on.  The samples are the values that
    [Math.random] gives, in the order in which the game asks for them. *)

Module Demo.

Definition alice : Member := mkMember "alice" "Alice" false.
Definition bob : Member := mkMember "bob" "Bob" false.
Definition robot : Member := mkMember "robot" "Robot" true.

(** A message that names one face and one colour. *)
Definition say (face color : string) : option Text :=
  Some (mkText false [face] [color]).

(** The player of a state at an index. *)
Definition player (g : Game) (i : Z) : Player :=
  default (newPlayer alice) (item (players g) i).

Definition top (g : Game) : Card :=
  default (mkCard 0 0 0) (topCard g).

(** *** Bob plays red cards down to a Reverse *)

Definition g0 : Game :=
  newGame [bob; alice] "alice"
    [0; 3; 3; 9; 9; 15; 86; 0; 0; 0; 0; 0; 0; 0; 15; 1]%nat.

(** Bob holds seven red cards, a Reverse among them; a red 4 is on top. *)
Definition g1 : Game := Eval vm_compute in run [Message "alice" Start] g0.

Definition sixPlays : list Event :=
  [Message "bob" (Play (say "ZERO" "RED")); Message "alice" Draw;
   Message "bob" (Play (say "ONE" "RED")); Message "alice" Draw;
   Message "bob" (Play (say "1" "RED")); Message "alice" Draw;
   Message "bob" (Play (say "TWO" "RED")); Message "alice" Draw;
   Message "bob" (Play (say "TWO" "RED")); Message "alice" Draw;
   Message "bob" (Play (say "THREE" "RED"))].

(** Bob is left with the Reverse and has not called; it is Alice's turn. *)
Definition g2 : Game := Eval vm_compute in run sixPlays g1.

(** Alice has drawn; it is Bob's turn. *)
Definition g4 : Game := Eval vm_compute in run [Message "alice" Draw] g2.

(** *** Bob plays a wild card and draws it again *)

Definition b0 : Game :=
  newGame [bob; alice] "alice"
    [100; 76; 0; 0; 0; 0; 0; 0; 0; 0; 0; 0; 0; 0; 0; 1; 94]%nat.

(** Bob holds a Wild and a red Draw Two; a red 2 is on top. *)
Definition b1 : Game := Eval vm_compute in run [Message "alice" Start] b0.

(** The Wild is on top, in red. *)
Definition w1 : Game :=
  Eval vm_compute in run [Message "bob" (Play (say "WILD" "RED"))] b1.

Definition coverAndDraw : list Event :=
  [Message "alice" (Play (say "ONE" "RED")); Message "bob" Draw].

(** *** Players draw until the pool is empty *)

Definition d0 : Game :=
  newGame [alice; bob; robot] "alice"
    [1; 1; 1; 1; 1; 7; 7; 13; 13; 19; 19; 25; 25; 31;
     1; 1; 1; 1; 1; 1; 1; 0; 2;
     23; 29; 0; 28; 34; 0; 33; 39; 0; 38; 44; 0; 43; 49; 0; 48; 54; 0;
     53; 59; 0; 58; 58; 0; 57; 57; 0; 56; 56; 0; 55]%nat.

(** A red 0 is on top, and the NPC holds no card that goes with it. *)
Definition d1 : Game := Eval vm_compute in run [Message "alice" Start] d0.

Definition round : list Event :=
  [Message "alice" Draw; Message "bob" Draw; Timeout CbPlayCard].

Definition draws : list Event :=
  concat (replicate 28 round) ++ [Message "alice" Draw; Message "bob" Draw].

(** The pool is empty, and it is the turn of the NPC. *)
Definition dry : Game := Eval vm_compute in run draws d1.

(** *** An NPC begins *)

Definition e0 : Game := newGame [alice; robot] "alice" [].

(** A green 2 is on top; the NPC holds a green 1 in front and a red 2 at
    the end of its hand. *)
Definition e1 : Game := Eval vm_compute in run [Message "alice" Start] e0.

End Demo.

(** The states of these games are states of a game in which the timers fire
    in time. *)

Lemma g1_orderly : orderly Demo.g1.
Proof.
  assert (Demo.g1 = run [Message "alice" Start] Demo.g0)%string as ->
    by (vm_compute; reflexivity).
  apply orderly_run; [apply orderly_new|vm_compute; reflexivity].
Qed.

Lemma g2_orderly : orderly Demo.g2.
Proof.
  assert (Demo.g2 = run Demo.sixPlays Demo.g1)%string as ->
    by (vm_compute; reflexivity).
  apply orderly_run; [apply g1_orderly|vm_compute; reflexivity].
Qed.

Lemma g4_orderly : orderly Demo.g4.
Proof.
  assert (Demo.g4 = run [Message "alice" Draw] Demo.g2)%string as ->
    by (vm_compute; reflexivity).
  apply orderly_run; [apply g2_orderly|vm_compute; reflexivity].
Qed.

Lemma b1_orderly : orderly Demo.b1.
Proof.
  assert (Demo.b1 = run [Message "alice" Start] Demo.b0)%string as ->
    by (vm_compute; reflexivity).
  apply orderly_run; [apply orderly_new|vm_compute; reflexivity].
Qed.

Lemma w1_orderly : orderly Demo.w1.
Proof.
  assert (Demo.w1
          = run [Message "bob" (Play (Demo.say "WILD" "RED"))] Demo.b1)%string
    as -> by (vm_compute; reflexivity).
  apply orderly_run; [apply b1_orderly|vm_compute; reflexivity].
Qed.

Lemma d1_orderly : orderly Demo.d1.
Proof.
  assert (Demo.d1 = run [Message "alice" Start] Demo.d0)%string as ->
    by (vm_compute; reflexivity).
  apply orderly_run; [apply orderly_new|vm_compute; reflexivity].
Qed.

Lemma dry_orderly : orderly Demo.dry.
Proof.
  assert (Demo.dry = run Demo.draws Demo.d1)%string as ->
    by (vm_compute; reflexivity).
  apply orderly_run; [apply d1_orderly|vm_compute; reflexivity].
Qed.

Lemma e1_orderly : orderly Demo.e1.
Proof.
  assert (Demo.e1 = run [Message "alice" Start] Demo.e0)%string as ->
    by (vm_compute; reflexivity).
  apply orderly_run; [apply orderly_new|vm_compute; reflexivity].
Qed.

(** They are runs in which every timer that fires has been set and has not
    fired before; the NPC's timer is pending when the pool is empty. *)
Lemma games_replayed :
  (replay (Message "alice" Start :: Demo.sixPlays) Demo.g0 []
   = Some (Demo.g2, [])
   ∧ replay [Message "alice" Draw] Demo.g2 [] = Some (Demo.g4, [])
   ∧ replay [Message "alice" Start;
             Message "bob" (Play (Demo.say "WILD" "RED"))] Demo.b0 []
     = Some (Demo.w1, [])
   ∧ replay Demo.coverAndDraw Demo.w1 []
     = Some (run Demo.coverAndDraw Demo.w1, [])
   ∧ replay (Message "alice" Start :: Demo.draws) Demo.d0 []
     = Some (Demo.dry, [CbPlayCard])
   ∧ replay [Message "alice" Start] Demo.e0 []
     = Some (Demo.e1, [CbPlayCard]))%string.
Proof. split_and!; vm_compute; reflexivity. Qed.

(** No card of [h] goes with [top]. *)
Lemma none_legal h top :
  forallb (λ c, negb (checkCard c top)) h = true →
  ∀ (j : nat) c, h !! j = Some c → checkCard c top = false.
Proof.
  induction h as [|x h IH]; intros H [|j] c Hc; try done;
    apply andb_true_iff in H as [Hx Hh].
  - injection Hc as <-. by apply negb_true_iff.
  - by apply (IH Hh j).
Qed.

(** ** The laws on these games *)

(** Conservation on a game: after the Wild has been played and drawn again,
    the cards are 108. *)
Lemma conservation_witness :
  total (run Demo.coverAndDraw Demo.w1) = 108%nat.
Proof.
  apply (proj1 conservation_invariant).
  apply orderly_run; [apply w1_orderly|vm_compute; reflexivity].
Defined.

(** C2 on a game: Bob names the red Draw Two against the red 2, and it is
    played; he names the blue 0, which he holds, and is told that it is not
    valid. *)
Lemma legality_witness :
  playable (mkCard parsedCid CardFace.DRAW_TWO Color.RED) (Demo.top Demo.b1)
  = checkCard (mkCard parsedCid CardFace.DRAW_TWO Color.RED)
      (Demo.top Demo.b1)
  ∧ (∃ b g',
       playCard (Some (mkText false ["DRAW_TWO"] ["RED"])) Demo.b1
       = Ok b g'
       ∧ topCard g' = Some (mkCard 76 CardFace.DRAW_TWO Color.RED))
  ∧ playCard (Some (mkText false ["ZERO"] ["BLUE"])) Demo.b1
    = Ok false
        (setEffects
           (GroupSend (NotValid (Demo.top Demo.b1)) :: effects Demo.b1)
           Demo.b1).
Proof.
  destruct legality_law as (_ & Hsame & Hplay).
  split_and!.
  - apply (Hsame Demo.b1 (Demo.top Demo.b1)
             (mkText false ["DRAW_TWO"] ["RED"])%string Demo.b1).
    + exact (orderly_reachable _ b1_orderly).
    + reflexivity.
    + vm_compute. reflexivity.
  - destruct (Hplay Demo.b1 (Demo.player Demo.b1 0) (Demo.top Demo.b1)
                (mkText false ["DRAW_TWO"] ["RED"])%string Demo.b1
                (mkCard parsedCid CardFace.DRAW_TWO Color.RED))
      as [_ Hyes];
      [exact (orderly_reachable _ b1_orderly)|reflexivity|reflexivity
      |reflexivity|reflexivity|vm_compute; reflexivity|discriminate|].
    apply (proj1 (Hyes eq_refl) 6%nat
             (mkCard 76 CardFace.DRAW_TWO Color.RED)).
    + reflexivity.
    + split; [reflexivity|right; reflexivity].
    + intros j c Hj Hc [Hf _].
      do 6 (destruct j as [|j];
            [vm_compute in Hc; injection Hc as <-; vm_compute in Hf;
             discriminate|]).
      lia.
  - destruct (Hplay Demo.b1 (Demo.player Demo.b1 0) (Demo.top Demo.b1)
                (mkText false ["ZERO"] ["BLUE"])%string Demo.b1
                (mkCard parsedCid CardFace.ZERO Color.BLUE))
      as [Hno _];
      [exact (orderly_reachable _ b1_orderly)|reflexivity|reflexivity
      |reflexivity|reflexivity|vm_compute; reflexivity|discriminate|].
    apply Hno. reflexivity.
Defined.

(** C3 on a game: Alice calls on Bob, who is penalised; Bob calls himself
    and is excused. *)
Lemma callUno_enforcement_witness :
  (penalised "alice" Demo.g2 ∧ excused "bob" Demo.g2)%string.
Proof.
  split.
  - apply (callUno_enforcement "alice" Demo.g2 (Demo.player Demo.g2 0));
      [reflexivity|]. vm_compute. discriminate.
  - apply (callUno_enforcement "bob" Demo.g2 (Demo.player Demo.g2 0));
      reflexivity.
Defined.

(** C3, the counterexample: Bob, left with one card and no call, calls
    himself before anyone else does; his hand does not grow. *)
Lemma callUno_self_call :
  (reachable Demo.g2 ∧ ¬ penalised "bob" Demo.g2)%string.
Proof.
  split; [exact (orderly_reachable _ g2_orderly)|]. intros H.
  destruct (H (Demo.player Demo.g2 0))
    as (g' & q' & Heq & Hq' & Hlen & _);
    [by vm_compute; eauto|done|reflexivity|reflexivity|reflexivity
    |vm_compute; lia|].
  assert (g' = final (callUno "bob" Demo.g2)) as -> by (by rewrite Heq).
  vm_compute in Hq'. injection Hq' as <-. vm_compute in Hlen. lia.
Qed.

(** C4 on a game: Bob plays the red Reverse out of seven cards. *)
Lemma reverse_is_skip_witness :
  reverse_outcome (Demo.say "REVERSE" "RED") Demo.g1 Demo.g1 6
    (Demo.player Demo.g1 0) (mkCard 92 CardFace.REVERSE Color.RED).
Proof.
  apply (reverse_is_skip (Demo.say "REVERSE" "RED") Demo.g1
           (Demo.player Demo.g1 0) (Demo.top Demo.g1) 6 None Demo.g1
           (mkCard 92 CardFace.REVERSE Color.RED)).
  - reflexivity.
  - left. reflexivity.
  - reflexivity.
  - reflexivity.
  - vm_compute. reflexivity.
  - reflexivity.
  - reflexivity.
  - vm_compute. lia.
Defined.

(** C4, the counterexample: the Reverse is the last card of Bob.  The game
    is won, and the direction is what it was. *)
Lemma reverse_last_card :
  reachable Demo.g4 ∧ ¬ reverse_law (Demo.say "REVERSE" "RED") Demo.g4.
Proof.
  split; [exact (orderly_reachable _ g4_orderly)|]. intros H.
  destruct (H (Demo.player Demo.g4 0) (Demo.top Demo.g4) 0%nat None Demo.g4
              (mkCard 92 CardFace.REVERSE Color.RED))
    as (b & g' & q & Heq & Hdir & _);
    [reflexivity|by left|reflexivity|reflexivity|by vm_compute
    |reflexivity|reflexivity|].
  assert (g' = final (playCard (Demo.say "REVERSE" "RED") Demo.g4)) as ->
    by (by rewrite Heq).
  vm_compute in Hdir. discriminate.
Qed.

(** C5 on a game: Bob plays the red Draw Two; Alice has nine cards, and it
    is Bob's turn again. *)
Lemma draw_two_witness :
  ∃ g' q',
    playCard (Demo.say "DRAW_TWO" "RED") Demo.b1 = Ok false g'
    ∧ item (players g') 1 = Some q'
    ∧ length (hand q') = 9%nat
    ∧ turn g' = 0.
Proof.
  destruct (draw_two_law (Demo.say "DRAW_TWO" "RED") Demo.b1
              (Demo.player Demo.b1 0) (Demo.top Demo.b1) 6 None Demo.b1
              (mkCard 76 CardFace.DRAW_TWO Color.RED)
              (Demo.player Demo.b1 1))
    as (g' & q' & r & drawn & Hplay & Hq' & Hlen & Hturn & _).
  - reflexivity.
  - reflexivity.
  - vm_compute. reflexivity.
  - reflexivity.
  - reflexivity.
  - vm_compute. lia.
  - vm_compute. lia.
  - reflexivity.
  - exists g', q'. split_and!; [exact Hplay|exact Hq'|exact Hlen|exact Hturn].
Defined.

(** C6 on two games: the NPC that begins plays the red 2 at the end of its
    hand, not the green 1 in front; the NPC that finds the pool empty draws
    nothing and passes. *)
Lemma npc_policy_witness :
  (∃ color b g',
     playCard None Demo.e1 = Ok b g'
     ∧ topCard g' = Some (paint color (mkCard 13 CardFace.TWO Color.RED))
     ∧ (isWild (mkCard 13 CardFace.TWO Color.RED) = false → color = None))
  ∧ (∃ g' p',
       playCard None Demo.dry = Ok false g'
       ∧ topCard g' = Some (Demo.top Demo.dry)
       ∧ item (players g') 2 = Some p'
       ∧ length (hand p') = 35%nat
       ∧ turn g' = 0).
Proof.
  split.
  - apply (proj1 (npc_policy None Demo.e1 (Demo.player Demo.e1 1)
                    (Demo.top Demo.e1) Demo.e1
                    eq_refl eq_refl eq_refl eq_refl) 6%nat).
    + reflexivity.
    + reflexivity.
    + intros j c Hj Hc. apply lookup_lt_Some in Hc.
      change (j < 7)%nat in Hc. lia.
  - apply (proj2 (npc_policy None Demo.dry (Demo.player Demo.dry 2)
                    (Demo.top Demo.dry) Demo.dry
                    eq_refl eq_refl eq_refl eq_refl)).
    apply none_legal. vm_compute. reflexivity.
Defined.

(** What the specification says of an NPC with no card to play: it draws
    one card. *)
Definition npc_draws_one (g : Game) : Prop :=
  ∀ p top,
    item (players g) (turn g) = Some p → npc p = true →
    topCard g = Some top →
    (∀ (j : nat) c, hand p !! j = Some c → checkCard c top = false) →
    ∃ b g' p',
      playCard None g = Ok b g'
      ∧ item (players g') (turn g) = Some p'
      ∧ length (hand p') = (length (hand p) + 1)%nat.

(** C6, the counterexample: the pool is empty when the turn comes to the
    NPC, which has no card to play; its hand does not grow. *)
Lemma npc_dry_pool : reachable Demo.dry ∧ ¬ npc_draws_one Demo.dry.
Proof.
  split; [exact (orderly_reachable _ dry_orderly)|]. intros H.
  destruct (H (Demo.player Demo.dry 2) (Demo.top Demo.dry))
    as (b & g' & p' & Heq & Hp' & Hlen);
    [reflexivity|reflexivity|reflexivity
    |apply none_legal; vm_compute; reflexivity|].
  assert (g' = final (playCard None Demo.dry)) as -> by (by rewrite Heq).
  vm_compute in Hp'. injection Hp' as <-. vm_compute in Hlen. lia.
Qed.



(** C8 on a game that Alice has made for Bob and herself: in the game under
    way, where the collector calls [removePlayer] with the id of a player
    who leaves, and in the lobby, [removePlayer] takes Alice out. *)
Lemma removePlayer_creator_witness :
  (players (final (removePlayer (ById "alice") Demo.g2))
   = delete 1%nat (players Demo.g2)
   ∧ length (players (final (removePlayer (ById "alice") Demo.g2)))
     = 1%nat
   ∧ (id <$> players (final (removePlayer (ByObject "alice") Demo.g0)))
     = ["bob"])%string.
Proof.
  destruct (removePlayer_creator (ById "alice") Demo.g2 1
              (Demo.player Demo.g2 1)) as (Hps & Hlen & _);
    [done|by left|by vm_compute|].
  destruct (removePlayer_creator (ByObject "alice") Demo.g0 1
              (Demo.player Demo.g0 1)) as (Hps' & _);
    [done|by right|by vm_compute|].
  split_and!; [exact Hps|exact Hlen|]. by rewrite Hps'.
Defined.

(** C10 on a game: three cards are asked for when the pool is empty; the
    NPC keeps its 35 cards. *)
Lemma drawCards_exhausted_witness :
  ∃ g' p',
    drawCards 3 false Demo.dry = Ok tt g'
    ∧ item (players g') (turn Demo.dry) = Some p'
    ∧ length (hand p') = 35%nat
    ∧ calledUno p' = false.
Proof.
  destruct (drawCards_exhausted 3 false Demo.dry (Demo.player Demo.dry 2)
              eq_refl)
    as (g' & p' & Heq & _ & Hp' & Hlen & _ & Hflag & _).
  exists g', p'. split_and!; [exact Heq|exact Hp'|exact Hlen|exact Hflag].
Defined.

(** The same in a game that is under way: Alice, who has made the game,
    types [uno leave] when it is her turn, and the collector hands her id
    to [removePlayer]. *)
Lemma creator_leaves :
  (reachable Demo.g2 ∧ maker Demo.g2 = "alice"
   ∧ id <$> players (run [Message "alice" Leave] Demo.g2) = ["bob"])%string.
Proof.
  split_and!; [|reflexivity|by vm_compute].
  exact (orderly_reachable _ g2_orderly).
Qed.

(** * A timer that fires late

    [setTimeout(playCard, npcDelay)] is never cleared.  When the creator
    kicks a player while the timer of an NPC is pending, and the game is won
    before the timer fires, [playCard] runs in the lobby: it puts a first
    card on top and gives the turn to a player, and an NPC that gets the
    turn draws.  [startGame] then empties the hands without a look at what
    they hold, and the card of the NPC is in no hand, not in the pool and
    not on top. *)

Module Late.
Import Demo.

(** Bob, the NPC and Alice, who has made the game. *)
Definition l0 : Game :=
  newGame [bob; robot; alice] "alice"
    [1; 1; 1; 3; 3; 3; 3; 31; 31; 31; 31; 31; 31; 33; 0; 0; 0; 2; 2; 8; 8;
     14; 2; 0; 24; 0; 23; 0; 22; 0; 21; 0; 20; 0; 21; 0; 0; 1]%nat.

(** Bob draws, the NPC has no card to play and draws when its timer fires,
    Alice plays a red card. *)
Definition round (face : string) : list Event :=
  [Message "bob" Draw; Timeout CbPlayCard;
   Message "alice" (Play (say face "RED"))].

(** Alice plays six of her seven red cards; Bob draws, and the turn is with
    the NPC, whose timer is set. *)
Definition game : list Event :=
  Message "alice" Start
  :: round "ZERO" ++ round "ONE" ++ round "ONE" ++ round "TWO"
     ++ round "TWO" ++ round "THREE" ++ [Message "bob" Draw].

(** Before the timer fires, Alice kicks Bob, which makes her the current
    player, and plays her last card.  Then the timer fires, [finishSetup]
    runs, the timer that the late [playCard] has set for the NPC fires, and
    Alice starts the next game. *)
Definition events : list Event :=
  game
  ++ [Message "alice" (Kick ["bob"]);
      Message "alice" (Play (say "THREE" "RED"));
      Timeout CbPlayCard; Timeout CbFinishSetup; Timeout CbPlayCard;
      Message "alice" Start].

(** The second game, just started. *)
Definition restarted : Game := Eval vm_compute in run events l0.

End Late.

(** C1.  The code does not keep the 108 cards together in every state that a
    game can reach.  In the run [Late.events], every timer that fires has
    been set and has not fired before, the game begins with 108 cards, and
    the second game begins with 107: the card that the NPC has drawn in the
    lobby is gone. *)
Theorem late_timer_loses_a_card :
  replay Late.events Late.l0 [] = Some (Late.restarted, [])
  ∧ reachable Late.restarted
  ∧ total Late.l0 = 108%nat
  ∧ started Late.restarted = true
  ∧ total Late.restarted = 107%nat.
Proof.
  assert (replay Late.events Late.l0 [] = Some (Late.restarted, []))
    as Hrun by (vm_compute; reflexivity).
  split_and!; [done| |by vm_compute..].
  rewrite (replay_run _ _ _ _ _ Hrun).
  apply reachable_run, reachable_new.
Qed.

(** * More of the engine *)

(** ** The order of the turns *)

Lemma advance_mod n t d :
  0 ≤ t < Z.of_nat n → d = 1 ∨ d = -1 →
  advance n t d = (t + d) `mod` Z.of_nat n.
Proof.
  intros Ht Hd. unfold advance.
  destruct (decide (t + d < 0)) as [Hneg|Hpos].
  - rewrite (bool_decide_eq_true_2 _ Hneg).
    rewrite bool_decide_eq_false_2 by lia.
    assert (t + d = -1) as -> by lia.
    apply (Z.mod_unique_pos _ _ (-1)); lia.
  - rewrite (bool_decide_eq_false_2 _ Hpos). case_bool_decide.
    + assert (t + d = Z.of_nat n) as -> by lia.
      by rewrite Z.mod_same by lia.
    + rewrite Z.mod_small; lia.
Qed.

(** [nextTurn] goes round the players: from a current player, in a
    direction that is 1 or -1, the turn goes to the index
    [(turn + direction) mod n], where a player is; players, pool, top card
    and direction are untouched, the player who leaves the turn is sent the
    hand if human, and the play of the player who gets it is scheduled
    exactly when this player is an NPC and is not skipped. *)
Theorem nextTurn_cycles skip g p :
  item (players g) (turn g) = Some p →
  direction g = 1 ∨ direction g = -1 →
  ∃ g' q,
    nextTurn skip g = Ok tt g'
    ∧ turn g' = (turn g + direction g) `mod` Z.of_nat (length (players g))
    ∧ item (players g') (turn g') = Some q
    ∧ players g' = players g ∧ discarded g' = discarded g
    ∧ topCard g' = topCard g ∧ direction g' = direction g
    ∧ previousTurn g' = previousTurn g
    ∧ effects g' = turnEffects skip p q ++ effects g
    ∧ (SetTimeout CbPlayCard npcDelay ∈ turnEffects skip p q
       ↔ skip = false ∧ npc q = true).
Proof.
  intros Hp Hd. pose proof (item_lt _ _ _ Hp) as Ht.
  destruct (item_is_Some (players g)
              (advance (length (players g)) (turn g) (direction g)))
    as [q Hq]; [apply advance_range; lia|].
  exists (setEffects (turnEffects skip p q ++ effects g)
            (setTurn (advance (length (players g)) (turn g) (direction g))
               g)), q.
  split_and!; try done.
  - by apply nextTurn_Ok.
  - game_simpl. by apply advance_mod.
  - unfold turnEffects. destruct skip, (npc q), (npc p); simpl;
      rewrite ?elem_of_cons, ?elem_of_nil;
      intuition (discriminate || auto).
Qed.

(** ** The order of a hand *)








(** ** Leaving a game *)

(** The id that [removePlayer] looks for. *)
Definition refId (ref : PlayerRef) : string :=
  match ref with ById i => i | ByObject i => i end.

(** The state once [removePlayer] has taken the player at [index] out and
    the hand into the pool. *)
Definition removed (index : nat) (gone : Player) (g : Game) : Game :=
  setPlayers (delete index (players g))
    (setDiscarded (discarded g ++ hand gone) g).

Lemma removePlayer_found ref g index gone :
  refId ref ≠ EmptyString →
  list_find (λ player, id player = refId ref) (players g)
  = Some (index, gone) →
  removePlayer ref g
  = when (bool_decide (turn g = Z.of_nat index)) (nextTurn false)
      (removed index gone g).
Proof.
  intros Hid Hfind.
  pose proof (proj1 (list_find_Some _ _ _ _) Hfind) as (Hi & _ & _).
  unfold removePlayer. fold (refId ref).
  rewrite bool_decide_eq_false_2 by done.
  rewrite (bind_Ok get _ g g g eq_refl).
  rewrite bool_decide_eq_false_2 by (apply lookup_lt_Some in Hi; lia).
  cbn [idOfString looseEq orb]. by rewrite Hfind.
Qed.

Lemma removePlayer_missing ref g :
  refId ref = EmptyString ∨ refId ref ∉ (id <$> players g) →
  removePlayer ref g = Ok tt g.
Proof.
  intros Hid. unfold removePlayer. fold (refId ref).
  case_bool_decide as Hempty; [done|].
  destruct Hid as [?|Hid]; [done|].
  rewrite (bind_Ok get _ g g g eq_refl).
  destruct (_ || _); [done|].
  destruct (list_find _ _) as [[index gone]|] eqn:Hfind; [|done].
  apply list_find_Some in Hfind as (Hi & Hgone & _).
  destruct Hid. rewrite <- Hgone.
  apply list_elem_of_fmap_2. by eapply list_elem_of_lookup_2.
Qed.

(** [removePlayer] with an empty id, or with an id that no player bears,
    returns and leaves the game as it is. *)
Theorem removePlayer_absent ref g :
  refId ref = EmptyString ∨ refId ref ∉ (id <$> players g) →
  removePlayer ref g = Ok tt g.
Proof. apply removePlayer_missing. Qed.

(** When a player other than the current one leaves, the hand goes to the
    end of the pool, the other players stay in their order, and [turn] is
    not touched: after a player in front of the current one has left, the
    index is that of the player who followed the current one, who is
    current now without any announcement. *)
Theorem removePlayer_other ref g index gone :
  refId ref ≠ EmptyString →
  list_find (λ player, id player = refId ref) (players g)
  = Some (index, gone) →
  turn g ≠ Z.of_nat index →
  removePlayer ref g = Ok tt (removed index gone g)
  ∧ (Z.of_nat index < turn g →
     item (players (removed index gone g)) (turn g)
     = item (players g) (turn g + 1)).
Proof.
  intros Hid Hfind Hturn. rewrite (removePlayer_found _ _ _ _ Hid Hfind).
  rewrite bool_decide_eq_false_2 by done. split; [done|].
  intros Hlt. unfold removed, item. game_simpl.
  rewrite !bool_decide_eq_true_2 by lia.
  rewrite list_lookup_delete_ge by lia. f_equal. lia.
Qed.

(** When the current player leaves and is the last of the list,
    [nextTurn] reads [players[turn]] where no player is any more: the call
    ends in a [TypeError], with the player gone and [turn] one past the
    end of the list. *)
Theorem removePlayer_last_throws ref g index gone :
  refId ref ≠ EmptyString →
  list_find (λ player, id player = refId ref) (players g)
  = Some (index, gone) →
  turn g = Z.of_nat index → S index = length (players g) →
  removePlayer ref g = Threw (removed index gone g)
  ∧ turn (removed index gone g)
    = Z.of_nat (length (players (removed index gone g))).
Proof.
  intros Hid Hfind Hturn Hlast.
  pose proof (proj1 (list_find_Some _ _ _ _) Hfind) as (Hi & _ & _).
  rewrite (removePlayer_found _ _ _ _ Hid Hfind).
  rewrite bool_decide_eq_true_2 by done.
  assert (length (players (removed index gone g)) = index) as Hlen.
  { unfold removed. game_simpl. rewrite length_delete by eauto. lia. }
  split; [|by rewrite Hlen].
  unfold when, nextTurn. rewrite (bind_Ok get _ _ _ _ eq_refl).
  change (turn (removed index gone g)) with (turn g).
  rewrite bool_decide_eq_true_2 by lia.
  assert (item (players (removed index gone g)) (turn g) = None) as ->.
  { unfold item. rewrite bool_decide_eq_true_2 by lia.
    apply lookup_ge_None. lia. }
  reflexivity.
Qed.

(** When the current player leaves and is not the last of the list, the
    players behind move up by one and [nextTurn] then moves on by
    [direction].  In direction 1, with three players or more, the turn
    passes over the player who was next and goes to the player after;
    in direction -1 it goes to the player who was next in that
    direction. *)
Theorem removePlayer_current ref g index gone :
  refId ref ≠ EmptyString →
  list_find (λ player, id player = refId ref) (players g)
  = Some (index, gone) →
  turn g = Z.of_nat index → (S index < length (players g))%nat →
  (3 ≤ length (players g))%nat →
  direction g = 1 ∨ direction g = -1 →
  ∃ g',
    removePlayer ref g = Ok tt g'
    ∧ players g' = delete index (players g)
    ∧ is_Some (item (players g') (turn g'))
    ∧ item (players g') (turn g')
      = item (players g)
          ((turn g + (if bool_decide (direction g = 1) then 2 else -1))
             `mod` Z.of_nat (length (players g))).
Proof.
  intros Hid Hfind Hturn Hlast Hn Hd.
  pose proof (proj1 (list_find_Some _ _ _ _) Hfind) as (Hi & _ & _).
  rewrite (removePlayer_found _ _ _ _ Hid Hfind).
  rewrite bool_decide_eq_true_2 by done.
  set (g1 := removed index gone g).
  assert (length (players g1) = (length (players g) - 1)%nat) as Hlen.
  { subst g1. unfold removed. game_simpl. rewrite length_delete; eauto. }
  destruct (item_is_Some (players g1) (turn g1)) as [p Hp];
    [change (turn g1) with (turn g); lia|].
  destruct (item_is_Some (players g1)
              (advance (length (players g1)) (turn g1) (direction g1)))
    as [q Hq]; [apply advance_range; lia|].
  eexists. split; [exact (nextTurn_Ok false g1 p q Hp Hq)|].
  game_simpl. split_and!; [done|by rewrite Hq|].
  change (turn g1) with (turn g). change (direction g1) with (direction g).
  rewrite Hlen, advance_mod by lia.
  set (n := length (players g)) in *.
  unfold item. subst g1. unfold removed. game_simpl.
  assert (∀ x, 0 ≤ x `mod` Z.of_nat (n - 1)) as Hpos1
    by (intros; apply Z.mod_pos_bound; lia).
  assert (∀ x, 0 ≤ x `mod` Z.of_nat n) as Hpos
    by (intros; apply Z.mod_pos_bound; lia).
  rewrite !bool_decide_eq_true_2 by done.
  destruct Hd as [Hd|Hd]; rewrite Hd; simpl bool_decide; cbv iota.
  - destruct (decide (S (S index) < n)%nat).
    + rewrite !Z.mod_small by lia.
      rewrite list_lookup_delete_ge by lia. f_equal. lia.
    + assert (turn g + 1 = Z.of_nat (n - 1)) as -> by lia.
      assert (turn g + 2 = Z.of_nat n) as -> by lia.
      rewrite !Z.mod_same by lia.
      apply list_lookup_delete_lt. lia.
  - destruct (decide (index = 0)%nat) as [->|].
    + assert (turn g = 0) as -> by lia.
      replace (0 + -1) with (-1) by lia.
      rewrite <- (Z.mod_unique_pos (-1) (Z.of_nat (n - 1)) (-1)
                 (Z.of_nat (n - 1) - 1)) by lia.
      rewrite <- (Z.mod_unique_pos (-1) (Z.of_nat n) (-1)
                 (Z.of_nat n - 1)) by lia.
      rewrite list_lookup_delete_ge by lia. f_equal. lia.
    + rewrite !Z.mod_small by lia.
      apply list_lookup_delete_lt. lia.
Qed.

(** ** Kicking players *)

Lemma filter_delete_other {A} (Q : A → Prop) `{!∀ x, Decision (Q x)}
    (l : list A) i x :
  l !! i = Some x → ¬ Q x → filter Q (delete i l) = filter Q l.
Proof.
  intros Hi Hx. rewrite <- (take_drop_middle l i x Hi) at 2.
  rewrite delete_take_drop, !filter_app, filter_cons_False; done.
Qed.

(** What [removePlayer] and a kick keep of a game [g0]: the creator's id,
    the players who bear it, and the order of the players who stay. *)
Definition sparing (g0 g : Game) : Prop :=
  maker g = maker g0
  ∧ filter (λ p, id p = maker g0) (players g)
    = filter (λ p, id p = maker g0) (players g0)
  ∧ players g `sublist_of` players g0.

Lemma removePlayer_sparing ref g0 g :
  refId ref ≠ maker g0 → sparing g0 g →
  wp (removePlayer ref) (λ _, sparing g0) (sparing g0) g.
Proof.
  intros Hid (Hm & Hf & Hs). unfold removePlayer. fold (refId ref).
  case_bool_decide; [by apply wp_ret|]. wp_step. wp_step.
  destruct (_ || _); [by apply wp_ret|].
  destruct (list_find _ _) as [[index gone]|] eqn:Hfind;
    [|by apply wp_ret].
  apply list_find_Some in Hfind as (Hi & Hgone & _).
  assert (sparing g0 (setPlayers (delete index (players g))
                        (setDiscarded (discarded g ++ hand gone) g)))
    as Hg1.
  { split_and!; game_simpl; [done| |].
    - rewrite (filter_delete_other _ _ _ _ Hi); [done|]. congruence.
    - etrans; [apply sublist_delete|done]. }
  wp_steps. unfold when. case_bool_decide; [|by wp_steps].
  apply nextTurn_wp; intros g' (Hps & _ & _ & _ & Hmk & _);
    intros; unfold sparing; by rewrite Hps, Hmk.
Qed.

(** A kick never takes the creator out: whoever is named, the players who
    bear the creator's id stay, and so does the order of the others who
    stay.  (The kick ends early, in a [TypeError], when it takes out the
    current player at the end of the list.) *)
Theorem kick_spares_creator ids g :
  sparing g (final (kick ids g)).
Proof.
  apply (proj1 (wp_final (kick ids) (sparing g) g)).
  unfold kick. wp_step. wp_step.
  apply (forEach_wp (sparing g)); [|by split_and!].
  intros el g1 Hg1. unfold when. case_bool_decide as Hel; simpl.
  - by apply wp_ret.
  - by apply removePlayer_sparing.
Qed.

(** ** The colour that an NPC gives to a wild card *)

Lemma handColors_from acc h c :
  c ∈ foldl (λ acc el,
               if negb (color el =? Color.NONE)
                  && negb (bool_decide (color el ∈ acc))
               then acc ++ [color el] else acc) acc h
  ↔ c ∈ acc ∨ (c ≠ Color.NONE ∧ ∃ k, k ∈ h ∧ color k = c).
Proof.
  revert acc. induction h as [|el h IH]; intros acc; simpl.
  - split; [by left|]. intros [?|(_ & k & Hk%not_elem_of_nil & _)]; done.
  - rewrite IH. clear IH.
    destruct (color el =? Color.NONE) eqn:Hc; simpl;
      [apply Z.eqb_eq in Hc|apply Z.eqb_neq in Hc].
    + split; (intros [?|(Hne & k & Hk & Hkc)]; [by left|right]);
        (split; [done|]); exists k; (split; [|done]).
      * by right.
      * apply elem_of_cons in Hk as [->|?]; [congruence|done].
    + case_bool_decide as Hin; simpl.
      * split; (intros [?|(Hne & k & Hk & Hkc)]; [by left|]).
        -- right. split; [done|]. exists k. split; [by right|done].
        -- apply elem_of_cons in Hk as [->|?]; [left; congruence|].
           right. split; [done|]. by exists k.
      * rewrite elem_of_app, list_elem_of_singleton. split.
        -- intros [[?| ->]|(Hne & k & Hk & Hkc)]; [by left|right..].
           ++ split; [done|]. exists el. split; [by left|done].
           ++ split; [done|]. exists k. split; [by right|done].
        -- intros [?|(Hne & k & Hk & Hkc)]; [by left; left|].
           apply elem_of_cons in Hk as [->|?]; [left; by right|].
           right. split; [done|]. by exists k.
Qed.

(** The colours that the NPC chooses from: those of the cards of the
    hand. *)
Lemma handColors_spec h c :
  c ∈ handColors h ↔ c ≠ Color.NONE ∧ ∃ k, k ∈ h ∧ color k = c.
Proof.
  unfold handColors. rewrite handColors_from.
  split; [intros [?%not_elem_of_nil|?]; done|by right].
Qed.

(** When an NPC plays a card with a colour of its choice, the card is a
    wild card, the colour is not [NONE], and it is the colour of a card of
    the hand as long as the hand holds a card with a colour. *)
Theorem npc_wild_colour text g p i c g1 :
  item (players g) (turn g) = Some p → npc p = true →
  select text g = Ok (Pick i (Some c)) g1 →
  ∃ card,
    hand p !! i = Some card ∧ isWild card = true ∧ c ≠ Color.NONE
    ∧ ((∃ k, k ∈ hand p ∧ color k = c)
       ∨ (∀ k, k ∈ hand p → color k = Color.NONE)).
Proof.
  intros Hp Hnpc Hsel. pose proof (item_lt _ _ _ Hp) as Ht.
  assert (select text g = selectNPC text p g) as Heq.
  { unfold select. rewrite (bind_Ok get _ g g g eq_refl).
    rewrite bool_decide_eq_false_2, Hp by lia.
    by rewrite (bind_Ok (the (Some p)) _ g p g eq_refl), Hnpc. }
  rewrite Heq in Hsel. clear Heq.
  set (Q := λ (sel : Selection) (_ : Game), ∀ i c, sel = Pick i (Some c) →
    ∃ card,
      hand p !! i = Some card ∧ isWild card = true ∧ c ≠ Color.NONE
      ∧ ((∃ k, k ∈ hand p ∧ color k = c)
         ∨ (∀ k, k ∈ hand p → color k = Color.NONE))).
  cut (wp (selectNPC text p) Q (λ _, True) g).
  { unfold wp. rewrite Hsel. intros H. by apply H. }
  unfold selectNPC. wp_step.
  eapply wp_mono; [apply wp_any| |done]. intros catch g2 _.
  destruct catch.
  { wp_step. eapply wp_mono; [apply wp_any| |done]. intros ? g3 _.
    wp_step. wp_step. wp_step. by intros ? ? [=]. }
  wp_step. eapply wp_mono; [apply wp_any| |done]. intros [selected|] g3 _.
  2:{ wp_step. eapply wp_mono; [apply wp_any| |done]. intros ? g4 _.
      wp_step. by intros ? ? [=]. }
  wp_step. wp_step.
  destruct (hand p !! selected) as [card|] eqn:Hcard; [|done].
  wp_step.
  assert (∀ (o : option Z) g4,
    (∀ c', o = Some c' →
       isWild card = true ∧ c' ≠ Color.NONE
       ∧ ((∃ k, k ∈ hand p ∧ color k = c')
          ∨ (∀ k, k ∈ hand p → color k = Color.NONE))) →
    wp (when (bool_decide (length (hand p) = 2%nat))
          (r <- random;
           when (atMost r (probCallUno p))
             (emit (SetTimeout (CbCallUno (id p)) (delayCallUno p))));;
        ret (Pick selected o)) Q (λ _, True) g4) as Hlast.
  { intros o g4 Ho. wp_step.
    eapply wp_mono; [apply wp_any| |done]. intros ? g5 _. wp_step.
    intros i' c' [= <- ->]. destruct (Ho _ eq_refl) as (? & ? & ?).
    by exists card. }
  destruct (hasEffect _ _) eqn:Hw; [|wp_step; by apply Hlast].
  destruct (handColors (hand p)) as [|c0 cs] eqn:Hcs.
  - wp_step. apply randomColor_wp. intros c' g4 _ _ Hc'. wp_step.
    apply Hlast. intros ? [= <-]. split_and!; [done..|]. right.
    intros k Hk. destruct (decide (color k = Color.NONE)) as [|Hne];
      [done|].
    assert (color k ∈ handColors (hand p)) as Hin
      by (apply handColors_spec; eauto).
    rewrite Hcs in Hin. by apply not_elem_of_nil in Hin.
  - wp_step. wp_step. wp_step. wp_step.
    destruct ((c0 :: cs) !! _) as [c'|] eqn:Hc'; [|done]. wp_step.
    apply Hlast. intros ? [= <-].
    apply list_elem_of_lookup_2 in Hc'. rewrite <- Hcs in Hc'.
    apply handColors_spec in Hc' as [? ?]. split_and!; [done..|by left].
Qed.

(** ** What a human player may play *)



(** ** Removing NPCs *)

(** The players that [removeNPCs] takes out: NPCs that are not Discord
    bots. *)
Definition pureNPC (p : Player) : Prop := npc p = true ∧ bot p = false.

Global Instance pureNPC_dec p : Decision (pureNPC p).
Proof. unfold pureNPC. apply _. Defined.

Lemma pureNPC_test p : npc p && negb (bot p) = bool_decide (pureNPC p).
Proof.
  case_bool_decide as H.
  - by destruct H as [-> ->].
  - unfold pureNPC in H. destruct (npc p), (bot p); try done.
    by destruct H.
Qed.

Lemma spliceNPCs_others num : ∀ ps,
  filter (λ p, ¬ pureNPC p) (spliceNPCs num ps)
  = filter (λ p, ¬ pureNPC p) ps.
Proof.
  induction num as [|j IHnum]; intros ps.
  - by destruct ps.
  - induction ps as [|p ps IH]; [done|]. cbn [spliceNPCs].
    rewrite pureNPC_test. case_bool_decide as Hp.
    + rewrite IHnum. by rewrite (filter_cons_False _ p) by tauto.
    + by rewrite !filter_cons_True, IH by done.
Qed.

Lemma spliceNPCs_drop num : ∀ ps,
  filter pureNPC (spliceNPCs num ps) = drop num (filter pureNPC ps).
Proof.
  induction num as [|j IHnum]; intros ps.
  - by destruct ps.
  - induction ps as [|p ps IH]; [done|]. cbn [spliceNPCs].
    rewrite pureNPC_test. case_bool_decide as Hp.
    + by rewrite IHnum, filter_cons_True by done.
    + by rewrite !filter_cons_False by done.
Qed.

(** [removeNPCs(num)] takes the first [num] NPCs that are not Discord bots
    out of the game, or all of them when there are fewer: the other players
    stay, in their order, and so do the NPCs after the first [num].  The
    cards of the players that go are not put back into the pool. *)
Theorem removeNPCs_first num g :
  ∃ g', removeNPCs num g = Ok tt g'
    ∧ players g' `sublist_of` players g
    ∧ filter (λ p, ¬ pureNPC p) (players g')
      = filter (λ p, ¬ pureNPC p) (players g)
    ∧ filter pureNPC (players g') = drop num (filter pureNPC (players g))
    ∧ discarded g' = discarded g ∧ topCard g' = topCard g
    ∧ turn g' = turn g ∧ started g' = started g
    ∧ effects g' = effects g.
Proof.
  eexists. split; [reflexivity|]. game_simpl. split_and!; try done.
  - apply spliceNPCs_sublist.
  - apply spliceNPCs_others.
  - apply spliceNPCs_drop.
Qed.

(** ** The direction of play and the number of players *)





































(** ** A game without a current player *)

(** [stuck g]: the game is started and [turn] points behind the last
    player, as it does after [removePlayer] has thrown for the last player
    of the list, and after a player in front of the current one, who is
    the last, has left. *)
Definition stuck (g : Game) : Prop :=
  started g = true ∧ 0 ≤ turn g ∧ item (players g) (turn g) = None.

Lemma stuck_removePlayer ref g :
  stuck g →
  ∃ g', removePlayer ref g = Ok tt g' ∧ stuck g' ∧ turn g' = turn g
        ∧ maker g' = maker g ∧ topCard g' = topCard g
        ∧ players g' `sublist_of` players g.
Proof.
  intros (Hst & Ht & Hnone).
  destruct (decide (refId ref = EmptyString)) as [Hid|Hid].
  { exists g. by rewrite removePlayer_missing by by left. }
  destruct (list_find (λ player, id player = refId ref) (players g))
    as [[index gone]|] eqn:Hfind.
  - pose proof (proj1 (list_find_Some _ _ _ _) Hfind) as (Hi & _ & _).
    apply lookup_lt_Some in Hi.
    assert (Z.of_nat (length (players g)) ≤ turn g) as Hlen.
    { destruct (decide (turn g < Z.of_nat (length (players g)))); [|lia].
      destruct (item_is_Some (players g) (turn g)) as [? ?]; [lia|].
      congruence. }
    exists (removed index gone g).
    rewrite (removePlayer_found _ _ _ _ Hid Hfind).
    rewrite bool_decide_eq_false_2 by lia.
    split_and!; try done; [|apply sublist_delete].
    split_and!; try done. unfold removed, item. game_simpl.
    rewrite bool_decide_eq_true_2 by done.
    apply lookup_ge_None.
    pose proof (sublist_length _ _ (sublist_delete (players g) index)).
    lia.
  - exists g. rewrite removePlayer_missing; [done|]. right.
    intros (p & Hp & Hin)%list_elem_of_fmap.
    apply list_find_None in Hfind.
    by apply (proj1 (Forall_forall _ _) Hfind p).
Qed.

Lemma stuck_kick ids g :
  stuck g →
  ∃ g', kick ids g = Ok tt g' ∧ stuck g' ∧ turn g' = turn g
        ∧ maker g' = maker g ∧ topCard g' = topCard g
        ∧ players g' `sublist_of` players g.
Proof.
  intros Hg. unfold kick. rewrite (bind_Ok get _ g g g eq_refl).
  cut (∀ (mk : string) g, stuck g →
    ∃ g', forEach ids (λ el, when (negb (bool_decide (el = mk)))
                               (removePlayer (ByObject el))) g = Ok tt g'
          ∧ stuck g' ∧ turn g' = turn g ∧ maker g' = maker g
          ∧ topCard g' = topCard g
          ∧ players g' `sublist_of` players g).
  { intros Hall. by apply Hall. }
  clear g Hg. intros mk.
  induction ids as [|el ids IH]; intros g Hg; simpl; [by exists g|].
  assert (∃ g1, when (negb (bool_decide (el = mk)))
                  (removePlayer (ByObject el)) g = Ok tt g1
                ∧ stuck g1 ∧ turn g1 = turn g ∧ maker g1 = maker g
                ∧ topCard g1 = topCard g
                ∧ players g1 `sublist_of` players g)
    as (g1 & Heq & Hg1 & Ht1 & Hm1 & Htop1 & Hsub1).
  { destruct (bool_decide (el = mk)); [by exists g|].
    by apply stuck_removePlayer. }
  rewrite (bind_Ok _ _ _ _ _ Heq).
  destruct (IH g1 Hg1) as (g' & Heq' & Hg' & Ht' & Hm' & Htop' & Hsub').
  exists g'. split_and!; try done; try congruence. by etrans.
Qed.

(** A started game whose [turn] points behind the last player does not get
    out of that: every message and every timer ends in a [TypeError] at
    [players[turn]] and changes nothing, but for the timer of
    [finishSetup], which does nothing, and the kicks of the creator, which
    take players out and leave [turn] where it is.  (The events are those
    of [Event]; [uno end] is not one of them.) *)
Theorem stuck_for_good g e :
  started g = true → 0 ≤ turn g → item (players g) (turn g) = None →
  let g' := final (handle e g) in
  (started g' = true ∧ turn g' = turn g
   ∧ item (players g') (turn g') = None)
  ∧ topCard g' = topCard g
  ∧ ((∀ ids, e ≠ Message (maker g) (Kick ids)) →
     e ≠ Timeout CbFinishSetup → handle e g = Threw g).
Proof.
  intros Hst Ht Hnone.
  assert (stuck g) as Hg by done.
  assert (∀ B (k : Player → Act B),
    (p <- the (item (players g) (turn g)); k p) g = Threw g) as Hthe.
  { intros B k. unfold bind. by rewrite Hnone. }
  assert (callUno_throws : ∀ caller, callUno caller g = Threw g).
  { intros caller. unfold callUno.
    rewrite (bind_Ok get _ g g g eq_refl). apply Hthe. }
  assert (playCard_throws : ∀ text, playCard text g = Threw g).
  { intros text. unfold playCard. apply bind_Threw. unfold select.
    rewrite (bind_Ok get _ g g g eq_refl).
    rewrite bool_decide_eq_false_2 by lia. apply Hthe. }
  destruct e as [author cmd|cb]; cbn [handle].
  - unfold collect. rewrite (bind_Ok get _ g g g eq_refl), Hst.
    unfold gameCollector. rewrite (bind_Ok get _ g g g eq_refl).
    rewrite (bool_decide_eq_false_2 (turn g < 0)) by lia. cbn [negb when].
    destruct cmd as [| | | | |ids| | |];
      rewrite ?callUno_throws, ?Hthe; try (by split_and!).
    case_bool_decide as Hmaker; [|by rewrite Hthe].
    destruct (stuck_kick ids g Hg)
      as (g' & -> & (? & ? & ?) & ? & ? & ? & ?).
    cbn [final]. split_and!; try done. intros Hno _.
    destruct (Hno ids). by subst author.
  - destruct cb as [|i|]; cbn [fire].
    + rewrite (bind_Threw _ _ _ _ (playCard_throws None)). by split_and!.
    + rewrite callUno_throws. by split_and!.
    + by split_and!.
Qed.

(** ** The last card *)

(** The card that the first half of [playCard] picks in a turn of the game
    is a card of the hand. *)
Lemma select_held text g p i chosen g1 :
  item (players g) (turn g) = Some p →
  select text g = Ok (Pick i chosen) g1 → is_Some (hand p !! i).
Proof.
  intros Hp. pose proof (item_lt _ _ _ Hp) as Ht.
  set (Q := λ (sel : Selection) (_ : Game),
              ∀ i c, sel = Pick i c → is_Some (hand p !! i)).
  cut (wp (select text) Q (λ _, True) g).
  { unfold wp. intros H Heq. rewrite Heq in H. by eapply H. }
  assert (∀ g', wp (ret (Stop false)) Q (λ _, True) g') as Hstop
    by (intros g'; by apply wp_ret).
  unfold select. wp_step. wp_step.
  rewrite bool_decide_eq_false_2 by lia. wp_step. rewrite Hp. wp_step.
  destruct (npc p).
  - unfold selectNPC. wp_step.
    eapply wp_mono; [apply wp_any| |done]. intros catch g2 _.
    destruct catch.
    { wp_step. eapply wp_mono; [apply wp_any| |done]. intros ? g3 _.
      wp_step. wp_step. wp_step. apply Hstop. }
    wp_step. eapply wp_mono; [apply wp_any| |done].
    intros [selected|] g3 _.
    2:{ wp_step. eapply wp_mono; [apply wp_any| |done]. intros ? g4 _.
        apply Hstop. }
    wp_step. wp_step.
    destruct (hand p !! selected) as [card|] eqn:Hcard; [|done].
    wp_step. eapply wp_mono; [apply wp_any| |done]. intros c g4 _.
    wp_step. eapply wp_mono; [apply wp_any| |done]. intros ? g5 _.
    wp_step. intros ? ? [= <- _]. by rewrite Hcard.
  - unfold selectHuman.
    assert (∀ m g', wp (emit (GroupSend m);; ret (Stop false)) Q
                      (λ _, True) g')
      as Hsay by (intros m g'; wp_step; wp_step; apply Hstop).
    destruct text as [text|]; [|by apply Hsay].
    destruct (blank text); [by apply Hsay|].
    wp_step. eapply wp_mono; [apply wp_any| |done].
    intros [parsed|] g2 _; [|by apply Hsay].
    destruct (_ && _); [by apply Hsay|].
    wp_step. wp_step. wp_step. wp_step.
    destruct (topCard g2); [|done]. game_simpl.
    destruct (negb _); [by apply Hsay|].
    destruct (list_find _ _) as [[selected el]|] eqn:Hfind;
      [|by apply Hsay].
    wp_step. intros ? ? [= <- _].
    apply list_find_Some in Hfind as (Hel & _). by rewrite Hel.
Qed.

(** The NPC does not read the text. *)
Lemma select_npc text g p :
  item (players g) (turn g) = Some p → npc p = true →
  select None g = select text g.
Proof.
  intros Hp Hnpc. pose proof (item_lt _ _ _ Hp) as Ht.
  unfold select. rewrite !(bind_Ok get _ g g g eq_refl).
  rewrite bool_decide_eq_false_2, Hp by lia.
  by rewrite !(bind_Ok (the (Some p)) _ g p g eq_refl), Hnpc.
Qed.

(** The game once the player at [turn] has played the only card of the
    hand and [endGame] has run. *)
Definition won (card top : Card) (p : Player) (g : Game) : Game :=
  setPlayers (setHand [] <$> players g)
    (setDiscarded
       (discarded g ++ [top]
          ++ concat (<[Z.to_nat (turn g) := []]> (hands g)))
       (setTurn (-1)
          (setStarted false
             (setEffects
                (SetTimeout CbFinishSetup 5000
                   :: GroupSend (Winner (mention p))
                   :: GroupSend (ShowCard card) :: effects g)
                (setTopCard (Some card) g))))).

(** The play of the last card of a hand ends the game, for a player whose
    message is the play and for an NPC whose timer fires: the winner is
    announced, all hands go to the pool behind the card that lay on top,
    the card that was played lies on top, the game is not started any more
    and [finishSetup] is to run in five seconds.  [endGame] runs once. *)
Theorem last_card_ends_game text g p card top i chosen g1 :
  started g = true →
  item (players g) (turn g) = Some p → hand p = [card] →
  topCard g = Some top →
  select text g = Ok (Pick i chosen) g1 →
  handle (if npc p then Timeout CbPlayCard
          else Message (id p) (Play text)) g
  = Ok tt (won (paint chosen card) top p g1)
  ∧ players g1 = players g ∧ discarded g1 = discarded g
  ∧ turn g1 = turn g.
Proof.
  intros Hst Hp Hhand Htop Hsel. pose proof (item_lt _ _ _ Hp) as Ht.
  destruct (select_held _ _ _ _ _ _ Hp Hsel) as [card' Hcard].
  rewrite Hhand in Hcard. destruct i as [|i]; [|done].
  injection Hcard as <-.
  destruct (select_Pick _ _ _ _ _ Hsel)
    as ((Hps & Hd & Htop1 & Hst1 & Hmk & Hprev & Hdir) & Ht1 & _).
  split; [|done].
  assert (item (players g1) (turn g1) = Some p) as Hp1 by congruence.
  set (g2 := setEffects
                (GroupSend (Winner (mention p))
                   :: GroupSend (ShowCard (paint chosen card)) :: effects g1)
                (taken 0%nat (paint chosen card) top p g1)).
  assert (endGame g2 = Ok tt (won (paint chosen card) top p g1)) as Hend.
  { unfold endGame, bind, emit, modify, g2, taken, won. f_equal.
    game_simpl. rewrite Hhand. cbn [delete list_delete].
    apply item_Some in Hp1 as [_ Hp1].
    rewrite foldl_hands, list_fmap_insert, <- app_assoc. game_simpl.
    rewrite list_fmap_insert.
    rewrite (list_insert_id (setHand [] <$> players g1))
      by (by rewrite list_lookup_fmap, Hp1).
    destruct g1; reflexivity. }
  assert (playCard text g
          = Ok true (if npc p then won (paint chosen card) top p g1 else g2))
    as Hplay.
  { unfold playCard. rewrite (bind_Ok _ _ _ _ _ Hsel). unfold commit.
    rewrite (bind_Ok _ _ _ _ _
      (takeCard_Ok 0%nat chosen g1 p card top ltac:(lia) Hp1
         ltac:(by rewrite Hhand) ltac:(congruence))).
    unfold resolve, taken.
    rewrite (bind_Ok get _ _ _ _ eq_refl). game_simpl.
    rewrite (bool_decide_eq_false_2 (turn g1 = -1)) by lia.
    assert (item (<[Z.to_nat (turn g1) := setHand (delete 0%nat (hand p)) p]>
                    (players g1)) (turn g1)
            = Some (setHand [] p)) as Hp2.
    { apply item_Some. split; [lia|]. rewrite Hhand.
      apply list_lookup_insert_eq. apply item_Some in Hp1 as [_ Hp1].
      by eapply lookup_lt_Some. }
    rewrite !Hp2. unfold bind at 1 2. unfold the, ret. game_simpl.
    rewrite andb_false_r.
    rewrite (bind_Ok (emit _) _ _ tt _ eq_refl).
    rewrite bool_decide_eq_true_2 by done.
    rewrite (bind_Ok (λ g, Ok (setHand [] p) g) _ _ _ _ eq_refl).
    rewrite (bind_Ok (emit _) _ _ tt _ eq_refl). game_simpl.
    destruct (npc p); cbn [when].
    - by rewrite (bind_Ok _ _ _ _ _ Hend).
    - done. }
  destruct (npc p) eqn:Hnpc; cbn [handle fire].
  - assert (playCard None g = playCard text g) as Hnone
      by (unfold playCard, bind; by rewrite (select_npc text g p Hp Hnpc)).
    rewrite Hplay in Hnone. by rewrite (bind_Ok _ _ _ _ _ Hnone).
  - unfold collect. rewrite (bind_Ok get _ g g g eq_refl), Hst.
    unfold gameCollector. rewrite (bind_Ok get _ g g g eq_refl).
    rewrite (bool_decide_eq_false_2 (turn g < 0)) by lia.
    rewrite Hp. rewrite (bind_Ok (the (Some p)) _ g p g eq_refl).
    rewrite bool_decide_eq_true_2 by done. cbn [negb].
    by rewrite (bind_Ok _ _ _ _ _ Hplay).
Qed.

(** ** Dealing *)

(** [seated n ids g]: the game has the [n] players [ids], each with seven
    cards or more, one of them is the current player and a card lies on
    top. *)
Definition seated (n : nat) (ids : list string) (g : Game) : Prop :=
  length (players g) = n ∧ id <$> players g = ids
  ∧ Forall (λ p, 7 ≤ length (hand p))%nat (players g)
  ∧ started g = true ∧ is_Some (topCard g)
  ∧ is_Some (item (players g) (turn g)).

Lemma nextTurn_seated skip n ids g :
  seated n ids g →
  wp (nextTurn skip) (λ _, seated n ids) (λ _, False) g.
Proof.
  intros (Hn & Hids & Hall & Hst & Htop & [p Hp]).
  pose proof (item_lt _ _ _ Hp) as Ht.
  destruct (item_is_Some (players g)
              (advance (length (players g)) (turn g) (direction g)))
    as [q Hq]; [apply advance_range; lia|].
  eapply wp_eq; [by apply (nextTurn_Ok skip g p q)|].
  split_and!; game_simpl; eauto.
Qed.

Lemma drawCards_seated num silent n ids g :
  seated n ids g →
  wp (drawCards num silent) (λ _, seated n ids) (λ _, False) g.
Proof.
  intros (Hn & Hids & Hall & Hst & Htop & [p Hp]).
  destruct (drawCards_Ok num silent g p Hp) as (? & ? & ? & Heq & _).
  eapply wp_eq; [exact Heq|].
  pose proof (proj1 (item_Some _ _ _) Hp) as [? Hp'].
  split_and!; game_simpl; try done.
  - by rewrite length_insert.
  - rewrite list_fmap_insert. game_simpl. rewrite list_insert_id; [done|].
    by rewrite list_lookup_fmap, Hp'.
  - apply Forall_insert; [done|]. game_simpl. rewrite length_drawnHand.
    pose proof (proj1 (Forall_forall _ _) Hall p
                  (list_elem_of_lookup_2 _ _ _ Hp')). simpl in *. lia.
  - apply item_is_Some. rewrite length_insert.
    apply lookup_lt_Some in Hp'. lia.
Qed.

(** The first turn: [nextTurn] begins at a random player. *)
Lemma nextTurn_first skip n ids g :
  turn g = -1 → (1 ≤ n)%nat →
  length (players g) = n → id <$> players g = ids →
  Forall (λ p, 7 ≤ length (hand p))%nat (players g) →
  started g = true → is_Some (topCard g) →
  wp (nextTurn skip) (λ _, seated n ids) (λ _, False) g.
Proof.
  intros Ht Hn Hlen Hids Hall Hst Htop. unfold nextTurn.
  wp_step. wp_step. rewrite (bool_decide_eq_false_2 (turn g > -1)) by lia.
  wp_step. wp_step. wp_step. rewrite bool_decide_eq_true_2 by done.
  wp_step. wp_step. wp_step. wp_step. wp_step. wp_step. wp_step. wp_step.
  wp_step. wp_step. wp_step.
  set (g1 := (if bool_decide _ then _ else _) : Game).
  assert (same g g1 ∧ 0 ≤ turn g1 < Z.of_nat n) as [Hs Ht1].
  { subst g1. game_simpl.
    pose proof (below_lt (length (players g)) (hd 0%nat (entropy g))
                  ltac:(lia)).
    repeat match goal with
           | |- context [bool_decide ?P] =>
               lazymatch P with
               | context [bool_decide _] => fail
               | _ => destruct (bool_decide_reflect P)
               end; game_simpl
           end; (split; [same_solve|lia]). }
  destruct Hs as (Hps & ? & Htop1 & Hst1 & ? & ? & ?).
  destruct (item_is_Some (players g1) (turn g1)) as [q Hq];
    [rewrite Hps; lia|].
  wp_step. rewrite Hq. wp_step.
  assert (∀ effs, seated n ids (setEffects effs g1)) as Hdone.
  { intros effs. split_and!; game_simpl; [congruence..|by rewrite Hst1
      |by rewrite Htop1|eauto]. }
  destruct skip; [wp_step; apply Hdone|].
  wp_step. wp_step. destruct (npc q); wp_run; apply Hdone.
Qed.

(** [playCard()] at the beginning of a game: the first card comes from the
    pool, and its effects are those of a card that is played. *)
Lemma playCard_first n ids g :
  turn g = -1 → (1 ≤ n)%nat →
  length (players g) = n → id <$> players g = ids →
  Forall (λ p, 7 ≤ length (hand p))%nat (players g) →
  started g = true → (2 ≤ length (discarded g))%nat →
  wp (playCard None) (λ _, seated n ids) (λ _, False) g.
Proof.
  intros Ht Hn Hlen Hids Hall Hst Hpool.
  unfold playCard. wp_step.
  apply (wp_mono _
    (λ sel g1, same g g1 ∧ turn g1 = -1
               ∧ ∃ i c, sel = Pick i c ∧ (i < length (discarded g))%nat)
    _ (λ _, False)); [| |done].
  { unfold select. wp_step. wp_step. rewrite bool_decide_eq_true_2 by done.
    unfold selectFirst. wp_step. wp_step. wp_step. wp_step. cbv zeta.
    wp_step. wp_step. game_simpl.
    pose proof (below_lt (length (discarded g)) (hd 0%nat (entropy g))
                  ltac:(lia)) as Hi.
    destruct (lookup_lt_is_Some_2 _ _ Hi) as [card Hcard]. rewrite Hcard.
    destruct (hasEffect _ _).
    - wp_step. apply randomColor_wp. intros c g2 Hs Ht2 _. wp_step.
      destruct Hs as (?&?&?&?&?&?&?).
      split_and!; [same_solve|by rewrite Ht2|eauto].
    - wp_step. split_and!; [same_solve|done|eauto]. }
  intros sel g1 ((Hps & Hd & Htop & Hst1 & _) & Ht1 & i & c & -> & Hi).
  unfold commit. wp_step.
  destruct (lookup_lt_is_Some_2 _ _ Hi) as [card Hcard].
  rewrite <- Hd in Hcard.
  apply (wp_mono _
    (λ _ g2, players g2 = players g ∧ turn g2 = -1 ∧ started g2 = true
             ∧ is_Some (topCard g2) ∧ (1 ≤ length (discarded g2))%nat)
    _ (λ _, False)); [| |done].
  { unfold takeCard. wp_step. wp_step. cbv zeta.
    rewrite !(bool_decide_eq_true_2 (turn g1 = -1)) by done.
    wp_step. wp_step. wp_step. wp_step. wp_step.
    apply (wp_mono _
      (λ _ g2, players g2 = players g ∧ turn g2 = -1 ∧ started g2 = true
               ∧ (1 ≤ length (discarded g2))%nat)
      _ (λ _, False)); [| |done].
    { assert (1 ≤ length (delete i (discarded g1)))%nat
        by (rewrite length_delete by eauto; rewrite Hd; lia).
      destruct (topCard g1); wp_step; game_simpl;
        split_and!; rewrite ?length_app; try done; try congruence; lia. }
    intros ? g2 (Hps2 & Ht2 & Hst2 & Hpool2). wp_step. wp_step. wp_step.
    rewrite Hcard. wp_step. wp_step. wp_step. wp_step. game_simpl. eauto. }
  intros card' g2 (Hps2 & Ht2 & Hst2 & Htop2 & Hpool2).
  unfold resolve. wp_step. wp_step. rewrite bool_decide_eq_true_2 by done.
  wp_step. wp_step. wp_step.
  rewrite (bool_decide_eq_false_2 (turn g2 > -1)) by lia. cbn [andb].
  wp_step. rewrite bool_decide_eq_false_2 by lia.
  wp_step. wp_step. wp_step.
  apply (wp_mono _
    (λ _ g3, players g3 = players g ∧ turn g3 = -1 ∧ started g3 = true
             ∧ is_Some (topCard g3))
    _ (λ _, False)); [| |done].
  { destruct (hasEffect _ _); wp_steps; by game_simpl. }
  intros skipping g3 (Hps3 & Ht3 & Hst3 & Htop3).
  wp_step.
  eapply wp_mono; [apply (nextTurn_first _ n ids); try done; congruence| |done].
  intros ? g4 Hg4. wp_step.
  apply (wp_mono _ (λ _, seated n ids) _ (λ _, False)); [| |done].
  { destruct (hasEffect _ _); [by apply drawCards_seated|by apply wp_ret]. }
  intros ? g5 Hg5. wp_step.
  apply (wp_mono _ (λ _, seated n ids) _ (λ _, False)); [| |done].
  { destruct (hasEffect _ _); [by apply drawCards_seated|by apply wp_ret]. }
  intros ? g6 Hg6. wp_step.
  apply (wp_mono _ (λ _, seated n ids) _ (λ _, False)); [| |done].
  { destruct (_ || _); [by apply nextTurn_seated|by apply wp_ret]. }
  intros ? g7 Hg7. by wp_step.
Qed.

(** [dealtTo n i ids pool top g]: the first [i] of the [n] players [ids]
    have seven cards each, and the pool has [pool] cards. *)
Definition dealtTo (n i : nat) (ids : list string) (pool : nat)
    (top : option Card) (st : bool) (g : Game) : Prop :=
  length (players g) = n ∧ id <$> players g = ids
  ∧ (∀ j p, (j < i)%nat → players g !! j = Some p →
            length (hand p) = 7%nat)
  ∧ length (discarded g) = pool ∧ topCard g = top ∧ started g = st.

Lemma deal_dealtTo n i ids pool top st g :
  dealtTo n i ids (7 + pool) top st g → (i < n)%nat →
  wp (deal i) (λ _, dealtTo n (S i) ids pool top st) (λ _, False) g.
Proof.
  intros (Hn & Hids & Hall & Hpool & Htop & Hst) Hi. unfold deal.
  wp_step. wp_step. wp_step. wp_step. game_simpl.
  destruct (lookup_lt_is_Some_2 (players g) i) as [p Hp]; [lia|].
  rewrite Nat2Z.id, (alter_insert _ _ _ _ Hp).
  set (g1 := setPlayers _ _).
  assert (item (players g1) (turn g1) = Some (setHand [] p)) as Hp1.
  { subst g1. game_simpl. rewrite item_of_nat.
    apply list_lookup_insert_eq. by eapply lookup_lt_Some. }
  destruct (drawCards_Ok 7 true g1 _ Hp1)
    as (taken & pool' & rs' & Heq & Hperm & _ & Htaken).
  cbv zeta in Heq. unfold wp. rewrite Heq. subst g1. game_simpl.
  cbn [discarded setPlayers setTurn] in Htaken, Hperm.
  rewrite Nat2Z.id, list_insert_insert_eq.
  assert (length taken = 7%nat) as Htaken' by lia.
  split_and!; game_simpl; try done.
  - by rewrite length_insert.
  - rewrite list_fmap_insert. game_simpl. rewrite list_insert_id; [done|].
    by rewrite list_lookup_fmap, Hp.
  - intros j q Hj. destruct (decide (j = i)) as [->|Hne].
    + rewrite list_lookup_insert_eq by (by eapply lookup_lt_Some).
      intros [= <-]. game_simpl.
      rewrite length_drawnHand, length_fmap. game_simpl. simpl. lia.
    + rewrite list_lookup_insert_ne by done. apply Hall. lia.
  - apply Permutation_length in Hperm. rewrite length_app in Hperm. lia.
Qed.

Lemma dealAll_dealtTo n ids top st k : ∀ i pool g,
  dealtTo n i ids (7 * k + pool) top st g → (i + k ≤ n)%nat →
  wp (dealAll (seq i k)) (λ _, dealtTo n (i + k) ids pool top st)
    (λ _, False) g.
Proof.
  induction k as [|k IH]; intros i pool g Hg Hk; simpl.
  - apply wp_ret. by rewrite Nat.add_0_r.
  - wp_step. eapply wp_mono; [apply (deal_dealtTo n i ids (7 * k + pool) top st)| |done].
    + by replace (7 + (7 * k + pool))%nat with (7 * S k + pool)%nat by lia.
    + lia.
    + intros ? g1 Hg1. replace (i + S k)%nat with (S i + k)%nat by lia.
      apply IH; [done|lia].
Qed.

Lemma handCards_sevens (ps : list Player) :
  (∀ j p, ps !! j = Some p → length (hand p) = 7%nat) →
  handCards ps = (7 * length ps)%nat.
Proof.
  unfold handCards. induction ps as [|p ps IH]; intros Hall; [done|].
  simpl. rewrite (Hall 0%nat p eq_refl), IH; [lia|].
  intros j q Hq. by apply (Hall (S j)).
Qed.

(** [startGame] with a player or more and a pool of seven cards for each
    and two more returns with the game started: the players are those of
    before, each with seven cards or more (the effects of the first card
    are those of a card that is played), one of them is the current player
    and a card lies on top.  All cards come from the pool: the cards that
    the players held before belong to the game no more. *)
Theorem startGame_deals g :
  (1 ≤ length (players g))%nat →
  (7 * length (players g) + 2 ≤ length (discarded g))%nat →
  ∃ g', startGame g = Ok tt g' ∧ started g' = true
    ∧ id <$> players g' = id <$> players g
    ∧ Forall (λ p, 7 ≤ length (hand p))%nat (players g')
    ∧ is_Some (item (players g') (turn g'))
    ∧ is_Some (topCard g')
    ∧ total g' = (length (discarded g) + topCount (topCard g))%nat.
Proof.
  intros Hn Hpool.
  set (n := length (players g)) in *.
  set (pool := (length (discarded g) - 7 * n)%nat).
  cut (wp startGame
         (λ _ g', seated n (id <$> players g) g'
                  ∧ total g' = (7 * n + pool + topCount (topCard g))%nat)
         (λ _, False) g).
  { intros H. apply wp_Ok in H as ([] & g' & Heq & Hg' & Htotal).
    destruct Hg' as (? & ? & ? & ? & ? & ?).
    exists g'. split_and!; try done. subst pool. lia. }
  unfold startGame. wp_step. wp_step. wp_step.
  eapply wp_mono;
    [apply (dealAll_dealtTo n (id <$> players g) (topCard g) (started g)
              n 0 pool)| |done].
  { split_and!; try done; [lia|subst pool; lia]. }
  { lia. }
  intros ? g1 (Hn1 & Hids1 & Hall1 & Hpool1 & Htop1 & Hst1).
  wp_step. wp_step. wp_step. wp_step. wp_step. wp_step. wp_step.
  set (g2 := setStarted true _).
  assert (total g2 = (7 * n + pool + topCount (topCard g))%nat) as Htotal.
  { unfold total. subst g2. game_simpl.
    rewrite handCards_sevens, Hn1, Hpool1, Htop1; [done|].
    intros j p Hj. apply (Hall1 j); [|done]. apply lookup_lt_Some in Hj.
    lia. }
  pose proof (preserved_total (playCard None) g2
                (λ P HP, playCard_holds P None g2)) as Hkeep.
  pose proof (playCard_first n (id <$> players g) g2) as Hfirst.
  unfold wp in Hfirst |- *.
  destruct (playCard None g2) as [b g3|g3].
  - cbn [final] in Hkeep. split; [|congruence].
    apply Hfirst; subst g2; game_simpl; try done; [|subst pool; lia].
    apply Forall_forall. intros p [j Hj]%list_elem_of_lookup.
    rewrite (Hall1 j p); [done| |done]. apply lookup_lt_Some in Hj. lia.
  - apply Hfirst; subst g2; game_simpl; try done; [|subst pool; lia].
    apply Forall_forall. intros p [j Hj]%list_elem_of_lookup.
    rewrite (Hall1 j p); [done| |done]. apply lookup_lt_Some in Hj. lia.
Qed.

(** ** Adding NPCs *)

(** The name loop with as many further draws as there are samples: it
    returns a name of the list that no player bears, or it does not end,
    with the samples used up and the first name of the list borne. *)
Lemma drawName_ends more names (Q : string → Game → Prop) E g :
  (length (entropy g) ≤ more)%nat →
  (∀ name g', same g g' → turn g' = turn g → effects g' = effects g →
              name ∈ npcNames → name ∉ names → Q name g') →
  (∀ g', same g g' → turn g' = turn g → effects g' = effects g →
         entropy g' = [] → "HAL"%string ∈ names → E g') →
  wp (drawName more names) Q E g.
Proof.
  revert g. induction more as [|more IH]; intros g Hmore HQ HE;
    cbn [drawName]; wp_step; wp_step; wp_step; wp_step.
  - destruct (entropy g) as [|r rs] eqn:Hent; [|simpl in Hmore; lia].
    cbn [hd tail]. change (npcNames !! below (length npcNames) 0)
      with (Some "HAL"%string). cbv beta iota.
    case_bool_decide as Hin.
    + apply wp_throw, HE; first [done|same_solve].
    + wp_step. apply HQ; first [done|same_solve|idtac].
      by apply (list_elem_of_lookup_2 _ 0%nat).
  - destruct (npcNames !! below _ _) as [name|] eqn:Hname.
    2:{ apply lookup_ge_None in Hname.
        pose proof (below_lt (length npcNames) (hd 0%nat (entropy g))
                      ltac:(simpl; lia)). lia. }
    case_bool_decide as Hin.
    + apply IH.
      * game_simpl. destruct (entropy g); simpl in *; lia.
      * intros nm g' (?&?&?&?&?&?&?) ? ? ? ?.
        apply HQ; first [done|same_solve].
      * intros g' (?&?&?&?&?&?&?) ? ? ? ?.
        apply HE; first [done|same_solve].
    + wp_step. apply HQ; first [done|same_solve|idtac].
      by eapply list_elem_of_lookup_2.
Qed.

(** What [addNPCs] has added: NPCs with the names [names], behind the
    players; nothing else but the samples has changed. *)
Definition joined (names : list string) (g g' : Game) : Prop :=
  players g' = players g ++ ((λ name, newNPC name None) <$> names)
  ∧ discarded g' = discarded g ∧ topCard g' = topCard g
  ∧ started g' = started g ∧ turn g' = turn g
  ∧ effects g' = effects g.

(** The names are names of [npcNames], all different, and none is the name
    of a player of [g]. *)
Definition fresh (names : list string) (g : Game) : Prop :=
  NoDup names
  ∧ ∀ nm, nm ∈ names → nm ∈ npcNames ∧ nm ∉ (name <$> players g).

Lemma addRounds_spec num rounds : ∀ i g,
  (maxPlayerCount - length (players g) ≤ rounds)%nat →
  ∃ names,
    joined names g (final (addRounds rounds num i g))
    ∧ fresh names g
    ∧ (length names ≤ maxPlayerCount - length (players g))%nat
    ∧ (∀ j, (i ≤ j < i + length names)%nat → belowNum j num = true)
    ∧ match addRounds rounds num i g with
      | Ok added _ =>
          added = (i + length names)%nat
          ∧ ((length names < maxPlayerCount - length (players g))%nat →
             belowNum (i + length names) num = false)
      | Threw g' =>
          (length names < maxPlayerCount - length (players g))%nat
          ∧ belowNum (i + length names) num = true
          ∧ entropy g' = []
          ∧ "HAL"%string ∈ (name <$> players g')
      end.
Proof.
  assert (∀ g, joined [] g g) as Hj0
    by (intros g; unfold joined; rewrite app_nil_r; done).
  assert (∀ g, fresh [] g) as Hf0.
  { intros g. split; [constructor|]. by intros nm ?%not_elem_of_nil. }
  induction rounds as [|rounds IH]; intros i g Hrounds;
    cbn [addRounds]; rewrite (bind_Ok get _ g g g eq_refl).
  - rewrite (bool_decide_eq_false_2 (_ < _)%nat) by lia.
    rewrite andb_false_r. exists []. cbn [final length].
    rewrite Nat.add_0_r.
    split; [apply Hj0|]. split; [apply Hf0|]. split; [lia|].
    split; [intros; lia|]. split; [done|lia].
  - destruct (belowNum i num) eqn:Hbelow; cbn [andb].
    2:{ exists []. cbn [final length]. rewrite Nat.add_0_r.
        split; [apply Hj0|]. split; [apply Hf0|]. split; [lia|].
        split; [intros; lia|]. split; done. }
    case_bool_decide as Hroom.
    2:{ exists []. cbn [final length]. rewrite Nat.add_0_r.
        split; [apply Hj0|]. split; [apply Hf0|]. split; [lia|].
        split; [intros; lia|]. split; [done|lia]. }
    pose proof (drawName_ends (length (entropy g)) (name <$> players g)
      (λ nm g', same g g' ∧ turn g' = turn g ∧ effects g' = effects g
                ∧ nm ∈ npcNames ∧ nm ∉ (name <$> players g))
      (λ g', same g g' ∧ turn g' = turn g ∧ effects g' = effects g
             ∧ entropy g' = [] ∧ "HAL"%string ∈ (name <$> players g))
      g (le_n _)) as Hdraw.
    unfold wp in Hdraw.
    destruct (drawName _ _ g) as [nm g1|g1] eqn:Hdn.
    + destruct Hdraw as ((Hps & Hd & Htop & Hst & _) & Ht & Heff & Hnm & Hnew);
        [by intros|by intros|].
      rewrite (bind_Ok _ _ _ _ _ Hdn).
      rewrite (bind_Ok (modify _) _ g1 tt _ eq_refl).
      set (g2 := setPlayers _ g1).
      assert (length (players g2) = S (length (players g))) as Hlen2
        by (subst g2; game_simpl; rewrite length_app, Hps; simpl; lia).
      destruct (IH (S i) g2) as (names & Hj & [Hnd Hfresh] & Hlen & Hall & Hres);
        [lia|].
      exists (nm :: names). cbn [length].
      destruct Hj as (Hps' & Hd' & Htop' & Hst' & Ht' & Heff').
      split; [|split; [|split; [|split]]].
      * unfold joined. rewrite Hps', Hd', Htop', Hst', Ht', Heff'.
        subst g2. game_simpl. rewrite Hps, <- app_assoc.
        split_and!; done.
      * split.
        -- constructor; [|done]. intros Hin.
           destruct (Hfresh nm Hin) as [_ Hno]. apply Hno.
           subst g2. game_simpl. rewrite fmap_app. apply elem_of_app.
           right. apply list_elem_of_singleton. done.
        -- intros nm' [->|Hin]%elem_of_cons; [done|].
           destruct (Hfresh nm' Hin) as [? Hno]. split; [done|].
           intros Hold. apply Hno. subst g2. game_simpl.
           rewrite fmap_app, Hps. apply elem_of_app. by left.
      * lia.
      * intros j Hj. destruct (decide (j = i)) as [->|]; [done|].
        apply Hall. lia.
      * rewrite Hlen2 in Hres.
        destruct (addRounds rounds num (S i) g2) as [added g3|g3].
        -- destruct Hres as [-> Hend]. split; [lia|]. intros Hlt.
           replace (i + S (length names))%nat
             with (S i + length names)%nat by lia.
           apply Hend. lia.
        -- destruct Hres as (Hlt & Hb & Hent & Hhal).
           replace (i + S (length names))%nat
             with (S i + length names)%nat by lia.
           split_and!; [lia|done..].
    + destruct Hdraw as ((Hps & Hd & Htop & Hst & _) & Ht & Heff & Hent & Hhal);
        [by intros|by intros|].
      rewrite (bind_Threw _ _ _ _ Hdn).
      exists []. cbn [final length]. rewrite Nat.add_0_r.
      split.
      { unfold joined. rewrite app_nil_r, Hps, Hd, Htop, Hst, Ht, Heff.
        done. }
      split; [apply Hf0|]. split; [lia|]. split; [intros; lia|].
      split_and!; [lia|done|done|by rewrite Hps].
Qed.

(** [addNPCs(num)] adds an NPC for every whole number from 0 on that is
    below [num], as long as there is room below [maxPlayerCount]; the names
    are names of [npcNames], all different and none of them the name of a
    player.  It returns [true] exactly when [num] is the number of a whole
    number of NPCs that it has room for, and [false] for more, for a
    fraction such as [2.5], for which it adds 3, and for a negative
    number.  The call does not end when it is left without samples in a
    round in which the first name of [npcNames] is borne. *)
Theorem addNPCs_fills num g :
  let room := (maxPlayerCount - length (players g))%nat in
  ∃ names,
    joined names g (final (addNPCs num g))
    ∧ fresh names g
    ∧ (length names ≤ room)%nat
    ∧ (∀ j, (j < length names)%nat → belowNum j num = true)
    ∧ match addNPCs num g with
      | Ok ok _ =>
          ((length names < room)%nat →
           belowNum (length names) num = false)
          ∧ ok = equalsNum (length names) num
          ∧ (ok = true ↔ ∃ n, (n ≤ room)%nat ∧ equalsNum n num = true)
      | Threw g' =>
          (length names < room)%nat
          ∧ belowNum (length names) num = true
          ∧ entropy g' = []
          ∧ "HAL"%string ∈ (name <$> players g')
      end.
Proof.
  intros room.
  destruct (addRounds_spec num maxPlayerCount 0 g ltac:(lia))
    as (names & Hj & Hfresh & Hlen & Hall & Hres).
  exists names. unfold addNPCs, bind.
  destruct (addRounds maxPlayerCount num 0 g) as [added g'|g'];
    cbn [final] in *;
    (split; [done|]; split; [done|]; split; [done|];
     split; [intros; apply Hall; lia|]).
  - destruct Hres as [-> Hend]. cbn [Nat.add]. split_and!; [done|done|].
    split.
    + intros Hok. by exists (length names).
    + intros (n & Hn & Heq).
      assert (∀ j, belowNum j num = bool_decide (j < n)%nat) as Hb.
      { intros j. destruct num as [nu d|neg]; [|done]. simpl in *.
        apply Z.eqb_eq in Heq. subst nu.
        case_bool_decide; [apply Z.ltb_lt|apply Z.ltb_ge]; nia. }
      assert (length names = n) as ->; [|done].
      destruct (decide (length names < n)%nat) as [Hlt|Hge].
      * rewrite Hb, bool_decide_eq_true_2 in Hend by done.
        specialize (Hend ltac:(fold room; lia)). done.
      * destruct (decide (n < length names)%nat) as [Hgt|]; [|lia].
        specialize (Hall n ltac:(lia)).
        rewrite Hb, bool_decide_eq_false_2 in Hall by lia. done.
  - done.
Qed.

(** ** The names of the cards *)

(** Strings are sequences of characters; the functions below change the
    case of the letters [a] to [z] only, which are the only letters of the
    keys of the two enumerations and the only ones that the two regular
    expressions match. *)
Definition toUpperChar (c : ascii) : ascii :=
  let n := nat_of_ascii c in
  if (97 <=? n)%nat && (n <=? 122)%nat then ascii_of_nat (n - 32) else c.

Definition toLowerChar (c : ascii) : ascii :=
  let n := nat_of_ascii c in
  if (65 <=? n)%nat && (n <=? 90)%nat then ascii_of_nat (n + 32) else c.

Fixpoint mapString (f : ascii → ascii) (s : string) : string :=
  match s with
  | EmptyString => EmptyString
  | String c s => String (f c) (mapString f s)
  end.

Definition toUpperCase : string → string := mapString toUpperChar.
Definition toLowerCase : string → string := mapString toLowerChar.

(** [s.replace(/a/g, b)] for characters [a] and [b]. *)
Definition replaceAll (a b : ascii) : string → string :=
  mapString (λ c, if Ascii.eqb c a then b else c).

(** [s.split(' ')]: the current piece is [piece], back to front. *)
Fixpoint splitFrom (piece : string) (s : string) : list string :=
  match s with
  | EmptyString => [String.rev piece]
  | String c s =>
      if Ascii.eqb c " " then String.rev piece :: splitFrom EmptyString s
      else splitFrom (String c piece) s
  end.

Definition splitAtSpaces : string → list string := splitFrom EmptyString.

(** [a.join(' ')] *)
Fixpoint joinWithSpaces (a : list string) : string :=
  match a with
  | [] => EmptyString
  | [s] => s
  | s :: a => s +:+ String " " (joinWithSpaces a)
  end.

(** [el.charAt(0).toUpperCase() + el.substring(1).toLowerCase()] *)
Definition capitalise (el : string) : string :=
  match el with
  | EmptyString => EmptyString
  | String c s => String (toUpperChar c) (toLowerCase s)
  end.

Definition formatCard (txt : string) : string :=
  joinWithSpaces (capitalise <$> splitAtSpaces (replaceAll "_" " " txt)).

(** [Card.toString], [None] for a [TypeError]: the name of the colour,
    unless it is [NONE], and the name of the face, each the first key of
    its enumeration with the value.  The name that the method keeps for a
    card that is not wild is the one it would compute again, the colour of
    such a card being assigned once. *)
Definition toString (card : Card) : option string :=
  face ← fst <$> head (filter (λ el, snd el = face card) cardFacePairs);
  let face := formatCard face in
  if bool_decide (color card = Color.NONE) then Some face
  else
    colorName ← fst <$> head (filter (λ el, snd el = color card) colorPairs);
    Some (formatCard colorName +:+ String " " face).

(** [pattern] matches at the beginning of [s], the case of the letters
    being ignored. *)
Fixpoint matchesAt (pattern s : string) : bool :=
  match pattern, s with
  | EmptyString, _ => true
  | String a pattern, String c s =>
      Ascii.eqb (toUpperChar a) (toUpperChar c) && matchesAt pattern s
  | String _ _, EmptyString => false
  end.

(** The match at the beginning of [s] of a regular expression that is an
    alternation of the strings [alternatives]: the first that matches. *)
Definition matchAt (alternatives : list string) (s : string)
    : option string :=
  (λ pattern, String.substring 0 (String.length pattern) s)
    <$> head (filter (λ pattern, matchesAt pattern s = true) alternatives).

(** [s.match(re)] for such a regular expression [re] with the flags [ig]:
    the matches from left to right, each search beginning where the match
    before ended ([skip] characters from here); the empty list is
    [null]. *)
Fixpoint matches (alternatives : list string) (skip : nat) (s : string)
    : list string :=
  match s with
  | EmptyString => []
  | String _ rest =>
      match skip with
      | S skip => matches alternatives skip rest
      | O =>
          match matchAt alternatives s with
          | Some found =>
              found :: matches alternatives (String.length found - 1) rest
          | None => matches alternatives 0 rest
          end
      end
  end.

(** The alternatives of [colorRegExp] and of [cardFaceRegExp]. *)
Definition colorAlternatives : list string := fst <$> colorPairs.
Definition cardFaceAlternatives : list string :=
  (λ el, replaceAll "_" " " (fst el)) <$> cardFacePairs.

(** What [parseToCard] makes of its argument before it looks the matches
    up in the enumerations. *)
Definition readText (text : string) (isBlank : bool) : Text :=
  let replaced := replaceAll "_" " " text in
  {| blank := isBlank;
     faceMatch := (λ found, toUpperCase (replaceAll " " "_" found))
                    <$> matches cardFaceAlternatives 0 replaced;
     colorMatch := toUpperCase <$> matches colorAlternatives 0 replaced |}.

(** The name of a card reads as the card: [parseToCard] makes a card with
    the face and the colour of [card] of the string that [toString] makes
    of [card], for every face and colour of the two enumerations, but for a
    card without a colour that is not wild, which has a name that
    [parseToCard] does not accept. *)
Theorem parseToCard_toString card isBlank g :
  face card ∈ faceValues → color card ∈ colorValues →
  ∃ name,
    toString card = Some name
    ∧ if isWild card || negb (color card =? Color.NONE) then
        ∃ parsed,
          parseToCard (readText name isBlank) g = Ok (Some parsed) g
          ∧ face parsed = face card ∧ color parsed = color card
      else parseToCard (readText name isBlank) g = Ok None g.
Proof.
  destruct card as [i f c]. cbn [face color]. intros Hf Hc.
  unfold faceValues in Hf. unfold colorValues in Hc.
  elem_cases Hf; elem_cases Hc;
    (eexists; split; [vm_compute; reflexivity|]);
    cbv [isWild hasEffect truthy face color orb negb];
    (lazymatch goal with
     | |- context [Z.land ?a ?b] =>
         let v := eval vm_compute in (Z.land a b) in
         change (Z.land a b) with v
     end);
    cbn [Z.eqb negb orb Pos.eqb];
    first [ eexists; split_and!; [vm_compute; reflexivity|done..]
          | vm_compute; reflexivity ].
Qed.

(** ** Between two games *)

(** While a game in which the timers fire in time is not started, nobody
    holds a card: the hands are empty before the first game and after every
    game. *)
Theorem lobby_hands_empty g :
  orderly g → started g = false → Forall (λ p, hand p = []) (players g).
Proof.
  intros Hg Hst.
  destruct (orderly_inv (conserving (ident <$> getHand)) g conserving_new Hg)
    as [_ Hlobby].
  specialize (Hlobby Hst). unfold hands in Hlobby.
  by apply Forall_fmap in Hlobby.
Qed.

(** ** Drawing a card instead of playing *)

(** The current player who writes [draw] gets a card from the pool, if
    there is one, and the turn goes on to the next player in the direction
    of play: the card cannot be played in this turn.  The top card stays;
    it is shown again at the end. *)
Theorem draw_passes_turn g p top :
  started g = true →
  item (players g) (turn g) = Some p → topCard g = Some top →
  direction g = 1 ∨ direction g = -1 →
  ∃ g' p' q drawn,
    collect (id p) Draw g = Ok tt g'
    ∧ turn g' = (turn g + direction g) `mod` Z.of_nat (length (players g))
    ∧ item (players g') (turn g') = Some q
    ∧ item (players g') (turn g) = Some p'
    ∧ id <$> players g' = id <$> players g
    ∧ hand p' ≡ₚ drawn ++ hand p
    ∧ length drawn = (1 `min` length (discarded g))%nat
    ∧ (length (discarded g') + length drawn)%nat = length (discarded g)
    ∧ topCard g' = Some top
    ∧ head (effects g') = Some (GroupSend (ShowCard top)).
Proof.
  intros Hst Hp Htop Hd. pose proof (item_lt _ _ _ Hp) as Ht.
  destruct (drawCards_Ok 1 false g p Hp)
    as (taken & pool' & rs' & Hdraw & Hperm & _ & Htaken).
  cbv zeta in Hdraw.
  set (p' := setCalledUno false
               (setHand (drawnHand p (resetWild <$> taken)) p)) in *.
  set (g1 := setPlayers _ _) in Hdraw.
  pose proof (proj1 (item_Some _ _ _) Hp) as [_ Hp0].
  assert (length (players g1) = length (players g)) as Hlen
    by (subst g1; game_simpl; by rewrite length_insert).
  assert (item (players g1) (turn g1) = Some p') as Hp1.
  { subst g1. game_simpl. apply item_Some. split; [lia|].
    apply list_lookup_insert_eq. by eapply lookup_lt_Some. }
  destruct (item_is_Some (players g1)
              (advance (length (players g1)) (turn g1) (direction g1)))
    as [q Hq]; [apply advance_range; lia|].
  pose proof (nextTurn_Ok false g1 p' q Hp1 Hq) as Hnext.
  set (g2 := setEffects _ _) in Hnext.
  assert (drawAndSkip 1 g = Ok tt g2) as Hskip
    by (unfold drawAndSkip; by rewrite (bind_Ok _ _ _ _ _ Hdraw)).
  exists (setEffects (GroupSend (ShowCard top) :: effects g2) g2), p', q,
    (resetWild <$> taken).
  split_and!.
  - unfold collect. rewrite (bind_Ok get _ g g g eq_refl), Hst.
    unfold gameCollector. rewrite (bind_Ok get _ g g g eq_refl).
    rewrite (bool_decide_eq_false_2 (turn g < 0)) by lia.
    rewrite Hp, (bind_Ok (the (Some p)) _ g p g eq_refl).
    rewrite bool_decide_eq_true_2 by done. cbn [negb].
    rewrite (bind_Ok _ _ _ _ _ Hskip).
    rewrite (bind_Ok get _ g2 g2 g2 eq_refl).
    assert (topCard g2 = Some top) as -> by done.
    by rewrite (bind_Ok (the (Some top)) _ g2 top g2 eq_refl).
  - rewrite <- Hlen. apply (advance_mod (length (players g1)));
      [by rewrite Hlen|done].
  - by game_simpl.
  - change (item (<[Z.to_nat (turn g) := p']> (players g)) (turn g)
            = Some p').
    apply item_Some. split; [lia|].
    apply list_lookup_insert_eq. by eapply lookup_lt_Some.
  - change (id <$> <[Z.to_nat (turn g) := p']> (players g)
            = id <$> players g).
    rewrite list_fmap_insert. apply list_insert_id.
    by rewrite list_lookup_fmap, Hp0.
  - subst p'. game_simpl. apply drawnHand_Permutation.
  - by rewrite length_fmap.
  - change (length pool' + length (resetWild <$> taken)
            = length (discarded g))%nat.
    apply Permutation_length in Hperm. rewrite length_app in Hperm.
    rewrite length_fmap. lia.
  - done.
  - done.
Qed.

(** ** No card twice *)

(** The cards are cards of the deck, each at most once. *)
Definition ofDeck (hs : list (list Card)) (pool : list Card)
    (top : option Card) : Prop :=
  ident <$> cardsIn hs pool top ⊆+ ident <$> getHand.

Global Instance ofDeck_moves : Moves ofDeck.
Proof.
  apply (moves_of_ident (λ l, l ⊆+ ident <$> getHand)).
  intros l l' Hl. by rewrite Hl.
Qed.

Lemma concat_sublist {A} (hs hs' : list (list A)) :
  hs' `sublist_of` hs → concat hs' `sublist_of` concat hs.
Proof.
  induction 1 as [|h hs' hs _ IH|h hs' hs _ IH]; simpl.
  - done.
  - by apply sublist_app.
  - by apply sublist_inserts_l.
Qed.

Lemma concat_clear {A} (hs : list (list A)) : ∀ i : nat,
  concat (<[i:=[]]> hs) `sublist_of` concat hs.
Proof.
  induction hs as [|h hs IH]; intros [|i]; simpl; try done.
  - apply sublist_inserts_l. done.
  - by apply sublist_app.
Qed.

Lemma ofDeck_hands hs hs' pool top :
  concat hs' `sublist_of` concat hs →
  ofDeck hs pool top → ofDeck hs' pool top.
Proof.
  unfold ofDeck, cardsIn. intros Hsub H. etrans; [|exact H].
  apply sublist_submseteq, fmap_sublist. by apply sublist_app.
Qed.

Global Instance ofDeck_sheds : Sheds ofDeck.
Proof.
  split.
  - intros hs pool top. apply ofDeck_hands.
    by rewrite concat_app, app_nil_r.
  - intros hs hs' pool top H Hsub. revert H.
    by apply ofDeck_hands, concat_sublist.
  - intros hs pool top i. apply ofDeck_hands, concat_clear.
Qed.




(** ** What a card does when it is played *)

(** The numbers of cards of the hands, player by player. *)
Definition handSizes (g : Game) : list nat :=
  (λ p, length (hand p)) <$> players g.

(** What [resolve] leaves alone between its steps. *)
Definition table (g : Game) : list string * option Card * Z * bool :=
  (id <$> players g, topCard g, previousTurn g, started g).

Lemma when_drawCards b num g p :
  item (players g) (turn g) = Some p →
  let k := if b : bool then (num `min` length (discarded g))%nat else 0%nat in
  ∃ g',
    when b (drawCards num false) g = Ok tt g'
    ∧ handSizes g'
      = alter (λ x, x + k)%nat (Z.to_nat (turn g)) (handSizes g)
    ∧ (length (discarded g') + k)%nat = length (discarded g)
    ∧ turn g' = turn g ∧ direction g' = direction g
    ∧ table g' = table g.
Proof.
  intros Hp k. subst k.
  pose proof (proj1 (item_Some _ _ _) Hp) as [Ht Hp0].
  destruct b; cbn [when].
  - destruct (drawCards_Ok num false g p Hp)
      as (taken & pool' & rs' & Heq & Hperm & _ & Htaken).
    cbv zeta in Heq. eexists. split; [exact Heq|].
    unfold handSizes, table. game_simpl. split_and!; try done.
    + rewrite list_fmap_insert. game_simpl.
      rewrite length_drawnHand, length_fmap, Htaken.
      rewrite (alter_insert _ _ _ (length (hand p)))
        by (by rewrite list_lookup_fmap, Hp0).
      f_equal. lia.
    + apply Permutation_length in Hperm. rewrite length_app in Hperm. lia.
    + do 3 f_equal. rewrite list_fmap_insert. apply list_insert_id.
      by rewrite list_lookup_fmap, Hp0.
  - exists g. split_and!; try done.
    symmetry. apply list_alter_id. intros. lia.
Qed.

Lemma when_nextTurn b skip g p :
  item (players g) (turn g) = Some p →
  direction g = 1 ∨ direction g = -1 →
  ∃ g' q,
    when b (nextTurn skip) g = Ok tt g'
    ∧ turn g'
      = (if b : bool
         then (turn g + direction g) `mod` Z.of_nat (length (players g))
         else turn g)
    ∧ item (players g') (turn g') = Some q
    ∧ players g' = players g ∧ discarded g' = discarded g
    ∧ direction g' = direction g ∧ table g' = table g.
Proof.
  intros Hp Hd. pose proof (item_lt _ _ _ Hp) as Ht.
  destruct b; cbn [when]; [|by exists g, p].
  destruct (item_is_Some (players g)
              (advance (length (players g)) (turn g) (direction g)))
    as [q Hq]; [apply advance_range; lia|].
  eexists _, q. split; [by apply (nextTurn_Ok skip g p q)|].
  game_simpl. split_and!; try done. by apply advance_mod.
Qed.

Lemma face_paint color card : face (paint color card) = face card.
Proof. unfold paint. destruct color as [c|]; [|done]. by destruct (truthy c). Qed.

(** The effects of a card, read off the bits of its face. *)
Definition reverses (card : Card) : bool :=
  hasEffect (face card) CardFace.REVERSE_EFFECT.
Definition skips (card : Card) : bool :=
  hasEffect (face card) CardFace.SKIP_EFFECT.
Definition cardsDue (card : Card) : nat :=
  ((if hasEffect (face card) CardFace.DRAW_TWO_EFFECT then 2 else 0)
   + (if hasEffect (face card) CardFace.DRAW_FOUR_EFFECT then 4 else 0))%nat.

(** When the current player plays a card that is not the last of the
    hand, the card lies on top and the card that lay there goes to the
    pool; a card that reverses flips the direction of play; the next
    player in the direction of play draws the cards that are due, as far
    as the pool goes; and the turn goes to the next player, or to the
    player after the next when the card skips, or reverses between two
    players. *)
Theorem card_effects text g p top i chosen g1 card :
  let n := length (players g) in
  let d := if reverses card then - direction g else direction g in
  let skip := (reverses card && bool_decide (n = 2%nat)) || skips card in
  let next := (turn g + d) `mod` Z.of_nat n in
  let drawn := (cardsDue card `min` (length (discarded g) + 1))%nat in
  item (players g) (turn g) = Some p → topCard g = Some top →
  direction g = 1 ∨ direction g = -1 →
  select text g = Ok (Pick i chosen) g1 →
  hand p !! i = Some card → (2 ≤ length (hand p))%nat →
  ∃ g',
    playCard text g = Ok false g'
    ∧ topCard g' = Some (paint chosen card)
    ∧ direction g' = d ∧ previousTurn g' = turn g
    ∧ turn g' = (if skip then (next + d) `mod` Z.of_nat n else next)
    ∧ is_Some (item (players g') (turn g'))
    ∧ id <$> players g' = id <$> players g
    ∧ handSizes g'
      = alter (λ x, x + drawn)%nat (Z.to_nat next)
          (alter pred (Z.to_nat (turn g)) (handSizes g))
    ∧ (length (discarded g') + drawn)%nat = (length (discarded g) + 1)%nat.
Proof.
  intros n d skip next drawn Hp Htop Hd Hsel Hcard Hlen.
  pose proof (item_lt _ _ _ Hp) as Ht. fold n in Ht.
  destruct (select_Pick _ _ _ _ _ Hsel)
    as ((Hps & Hdisc & Htop1 & Hst & Hmk & Hpv & Hdir) & Ht1 & _).
  assert (item (players g1) (turn g1) = Some p) as Hp1
    by by rewrite Hps, Ht1.
  unfold playCard, commit. rewrite (bind_Ok _ _ _ _ _ Hsel).
  rewrite (bind_Ok _ _ _ _ _
             (takeCard_Ok i chosen g1 p card top ltac:(lia) Hp1 Hcard
                ltac:(congruence))).
  set (gt := taken i (paint chosen card) top p g1).
  pose proof (proj1 (item_Some _ _ _) Hp) as [Hi Hp0].
  assert (players gt = <[Z.to_nat (turn g) := without i p]> (players g))
    as Hpst by (subst gt; unfold taken; game_simpl; by rewrite Ht1, Hps).
  assert (item (players gt) (turn g) = Some (without i p)) as Hpt.
  { apply item_Some. split; [done|]. rewrite Hpst.
    apply list_lookup_insert_eq. by eapply lookup_lt_Some. }
  assert (length (players gt) = n) as Hnt
    by (rewrite Hpst, length_insert; done).
  assert (length (hand (without i p)) = (length (hand p) - 1)%nat) as Hlw
    by (unfold without; game_simpl; rewrite length_delete; eauto).
  assert (handSizes gt = alter pred (Z.to_nat (turn g)) (handSizes g))
    as Hsizes.
  { unfold handSizes. rewrite Hpst, list_fmap_insert, Hlw.
    rewrite (alter_insert _ _ _ (length (hand p)))
      by (by rewrite list_lookup_fmap, Hp0).
    f_equal. lia. }
  assert (id <$> players gt = id <$> players g) as Hids.
  { rewrite Hpst, list_fmap_insert. apply list_insert_id.
    by rewrite list_lookup_fmap, Hp0. }
  (* the state in which [nextTurn] is called *)
  set (g2 := setDirection d
               (setPreviousTurn (turn g)
                  (setEffects
                     (GroupSend (HasCards (name (without i p))
                                   (length (hand p) - 1)
                                   (paint chosen card)) :: effects gt)
                     gt))).
  assert (item (players g2) (turn g2) = Some (without i p)) as Hp2
    by (subst g2; game_simpl; by change (turn gt) with (turn g1);
        rewrite Ht1).
  assert (direction g2 = 1 ∨ direction g2 = -1) as Hd2.
  { subst g2 d. game_simpl. destruct (reverses card); lia. }
  destruct (when_nextTurn true skip g2 _ Hp2 Hd2)
    as (g3 & q & Hnext & Ht3 & Hq3 & Hps3 & Hdisc3 & Hdir3 & Htab3).
  cbn [when] in Hnext.
  destruct (when_drawCards
              (hasEffect (face card) CardFace.DRAW_TWO_EFFECT) 2 g3 q Hq3)
    as (g4 & Hdraw2 & Hsizes4 & Hdisc4 & Ht4 & Hdir4 & Htab4).
  assert (is_Some (item (players g4) (turn g4))) as [q4 Hq4].
  { rewrite Ht4. apply item_is_Some.
    replace (length (players g4)) with (length (handSizes g4))
      by apply length_fmap.
    rewrite Hsizes4, length_alter. unfold handSizes. rewrite length_fmap.
    by eapply item_lt. }
  destruct (when_drawCards
              (hasEffect (face card) CardFace.DRAW_FOUR_EFFECT) 4 g4 q4 Hq4)
    as (g5 & Hdraw4 & Hsizes5 & Hdisc5 & Ht5 & Hdir5 & Htab5).
  assert (is_Some (item (players g5) (turn g5))) as [q5 Hq5].
  { rewrite Ht5. apply item_is_Some.
    replace (length (players g5)) with (length (handSizes g5))
      by apply length_fmap.
    rewrite Hsizes5, length_alter. unfold handSizes. rewrite length_fmap.
    by eapply item_lt. }
  assert (direction g5 = 1 ∨ direction g5 = -1) as Hd5 by congruence.
  destruct (when_nextTurn skip false g5 q5 Hq5 Hd5)
    as (g6 & q6 & Hnext6 & Ht6 & Hq6 & Hps6 & Hdisc6 & Hdir6 & Htab6).
  assert (length (players g5) = n) as Hn5.
  { replace (length (players g5)) with (length (handSizes g5))
      by apply length_fmap.
    rewrite Hsizes5, length_alter, Hsizes4, length_alter.
    unfold handSizes. by rewrite length_fmap, Hps3. }
  assert (turn g3 = next) as Hnext3.
  { rewrite Ht3. subst g2 next. game_simpl.
    change (turn gt) with (turn g1). by rewrite Ht1, Hnt. }
  exists g6. split.
  - unfold resolve. rewrite (bind_Ok get _ gt gt gt eq_refl).
    change (turn gt) with (turn g1). rewrite Ht1.
    rewrite (bool_decide_eq_false_2 (turn g = -1)) by lia.
    rewrite !Hpt.
    rewrite (bind_Ok
               (p0 <- the (Some (without i p)); ret (length (hand p0)))
               _ gt (length (hand p) - 1)%nat gt)
      by (by rewrite <- Hlw).
    rewrite (bool_decide_eq_true_2 (turn g > -1)) by lia.
    rewrite (bool_decide_eq_true_2 (_ ≠ 0%nat)) by lia.
    rewrite (bool_decide_eq_false_2 (_ = 0%nat)) by lia. cbn [andb].
    rewrite (bind_Ok
               (p0 <- the (Some (without i p));
                emit (GroupSend (HasCards (name p0) (length (hand p) - 1)
                                   (paint chosen card))))
               _ gt tt _ eq_refl).
    rewrite (bind_Ok (modify _) _ _ tt _ eq_refl).
    rewrite face_paint. fold (reverses card) (skips card).
    rewrite (bind_Ok
               (if reverses card
                then modify (λ g, setDirection (direction g * -1) g);;
                     ret (bool_decide (length (players gt) = 2%nat))
                else ret false)
               _ _ (reverses card && bool_decide (n = 2%nat)) g2).
    2:{ subst g2 d. rewrite Hnt. rewrite <- Hdir.
        destruct (reverses card); cbn [andb].
        - unfold bind, modify, ret. game_simpl.
          do 2 f_equal; change (direction gt) with (direction g1); lia.
        - reflexivity. }
    fold skip. rewrite (bind_Ok _ _ _ _ _ Hnext).
    rewrite (bind_Ok _ _ _ _ _ Hdraw2), (bind_Ok _ _ _ _ _ Hdraw4).
    by rewrite (bind_Ok _ _ _ _ _ Hnext6).
  - assert (table g6 = table g2) as Htab by congruence.
    assert (length (discarded g3) = (length (discarded g) + 1)%nat)
      as Hpool.
    { rewrite Hdisc3. subst g2 gt. unfold taken. game_simpl.
      rewrite length_app, Hdisc. simpl. lia. }
    rewrite Hpool in Hdisc4, Hsizes4.
    set (k2 := if hasEffect (face card) CardFace.DRAW_TWO_EFFECT
               then (2 `min` (length (discarded g) + 1))%nat else 0%nat)
      in *.
    set (k4 := if hasEffect (face card) CardFace.DRAW_FOUR_EFFECT
               then (4 `min` length (discarded g4))%nat else 0%nat) in *.
    assert (k2 + k4 = drawn)%nat as Hdrawn.
    { subst k2 k4 drawn. unfold cardsDue.
      destruct (hasEffect _ CardFace.DRAW_TWO_EFFECT),
        (hasEffect _ CardFace.DRAW_FOUR_EFFECT); lia. }
    injection Htab as Hids6 Htop6 Hprev6 Hst6.
    split_and!.
    + by rewrite Htop6.
    + by rewrite Hdir6, Hdir5, Hdir4, Hdir3.
    + by rewrite Hprev6.
    + rewrite Ht6, Ht5, Ht4, Hnext3, Hdir5, Hdir4, Hdir3, Hn5.
      by subst g2.
    + by rewrite Hq6.
    + by rewrite Hids6.
    + unfold handSizes at 1. rewrite Hps6. fold (handSizes g5).
      rewrite Hsizes5, Hsizes4, Ht4, Hnext3.
      unfold handSizes at 1. rewrite Hps3. fold (handSizes g2).
      change (handSizes g2) with (handSizes gt). rewrite Hsizes.
      rewrite list_alter_alter_eq. apply list_alter_ext; [|done].
      intros x _. unfold compose. lia.
    + rewrite Hdisc6. lia.
Qed.

(** * The further laws on games

    The states are those of the games played out above, and three more. *)

Module More.

(** Alice has left the game [Demo.g2] at her turn, the last of the list:
    [turn] is 1, and Bob is the only player. *)
Definition stranded : Game :=
  Eval vm_compute in final (removePlayer (ById "alice") Demo.g2).

(** The game [Demo.e1] with a Wild at the end of the hand of the NPC, behind
    a green 1. *)
Definition wildHeld : Game :=
  setPlayers
    (alter (setHand [mkCard 7 CardFace.ONE Color.GREEN;
                     mkCard 100 CardFace.WILD Color.NONE])
       1%nat (players Demo.e1)) Demo.e1.

(** Bob has played his last card in the game [Demo.g4]. *)
Definition over : Game :=
  Eval vm_compute in
    run [Message "bob" (Play (Demo.say "REVERSE" "RED"))] Demo.g4.

End More.

(** From Bob, the first of two players, the turn goes to Alice. *)
Lemma nextTurn_cycles_witness :
  ∃ g', nextTurn false Demo.g1 = Ok tt g' ∧ turn g' = 1
        ∧ players g' = players Demo.g1.
Proof.
  destruct (nextTurn_cycles false Demo.g1 (Demo.player Demo.g1 0))
    as (g' & q & Heq & Ht & _ & Hps & _); [reflexivity|by left|].
  exists g'. split_and!; [exact Heq|exact Ht|exact Hps].
Defined.


(** Nobody in the game of Alice and Bob is Carol. *)
Lemma removePlayer_absent_witness :
  removePlayer (ById "carol") Demo.g1 = Ok tt Demo.g1.
Proof.
  apply (removePlayer_absent (ById "carol") Demo.g1). right.
  apply (bool_decide_unpack _). vm_compute. exact I.
Defined.

(** Bob, in front of Alice, leaves at her turn: [turn] is 1 as before,
    where Alice was and where nobody is now. *)
Lemma removePlayer_other_witness :
  removePlayer (ById "bob") Demo.g2
  = Ok tt (removed 0 (Demo.player Demo.g2 0) Demo.g2)
  ∧ item (players (removed 0 (Demo.player Demo.g2 0) Demo.g2))
      (turn Demo.g2) = None.
Proof.
  destruct (removePlayer_other (ById "bob") Demo.g2 0
              (Demo.player Demo.g2 0)) as [Heq Hturn];
    [done|by vm_compute|done|].
  split; [exact Heq|]. rewrite Hturn; [reflexivity|]. vm_compute.
  reflexivity.
Defined.

(** Alice, the last of the list, leaves at her turn. *)
Lemma removePlayer_last_throws_witness :
  removePlayer (ById "alice") Demo.g2 = Threw More.stranded
  ∧ turn More.stranded = 1
  ∧ length (players More.stranded) = 1%nat.
Proof.
  destruct (removePlayer_last_throws (ById "alice") Demo.g2 1
              (Demo.player Demo.g2 1)) as [Heq Hturn];
    [done|by vm_compute|done|done|].
  split_and!; [exact Heq|reflexivity|reflexivity].
Defined.

(** Alice, the first of three, leaves at her turn: the turn passes over Bob
    and goes to the NPC. *)
Lemma removePlayer_current_witness :
  ∃ g' q,
    removePlayer (ById "alice") Demo.d1 = Ok tt g'
    ∧ item (players g') (turn g') = Some q
    ∧ id q = "robot"%string.
Proof.
  destruct (removePlayer_current (ById "alice") Demo.d1 0
              (Demo.player Demo.d1 0))
    as (g' & Heq & _ & _ & Hq);
    [done|by vm_compute|done|vm_compute; lia|vm_compute; lia|by left|].
  exists g', (Demo.player Demo.d1 2).
  split_and!; [exact Heq|exact Hq|reflexivity].
Defined.

(** The NPC plays the Wild in green, the colour of its other card. *)
Lemma npc_wild_colour_witness :
  ∃ card,
    hand (Demo.player More.wildHeld 1) !! 1%nat = Some card
    ∧ isWild card = true ∧ Color.GREEN ≠ Color.NONE
    ∧ ((∃ k, k ∈ hand (Demo.player More.wildHeld 1)
             ∧ color k = Color.GREEN)
       ∨ (∀ k, k ∈ hand (Demo.player More.wildHeld 1) →
               color k = Color.NONE)).
Proof.
  apply (npc_wild_colour None More.wildHeld (Demo.player More.wildHeld 1)
           1%nat Color.GREEN (final (select None More.wildHeld)));
    [reflexivity|reflexivity|vm_compute; reflexivity].
Defined.



(** Once Alice has left, Bob cannot draw. *)
Lemma stuck_for_good_witness :
  handle (Message "bob" Draw) More.stranded = Threw More.stranded.
Proof.
  destruct (stuck_for_good More.stranded (Message "bob" Draw))
    as (_ & _ & Hthrows); [reflexivity|done|reflexivity|].
  apply Hthrows; [intros ids|]; discriminate.
Defined.

(** Bob plays the red Reverse, his last card, and has won. *)
Lemma last_card_ends_game_witness :
  handle (Message "bob" (Play (Demo.say "REVERSE" "RED"))) Demo.g4
  = Ok tt More.over
  ∧ started More.over = false
  ∧ Forall (λ p, hand p = []) (players More.over).
Proof.
  destruct (last_card_ends_game (Demo.say "REVERSE" "RED") Demo.g4
              (Demo.player Demo.g4 0)
              (mkCard 92 CardFace.REVERSE Color.RED) (Demo.top Demo.g4)
              0%nat None Demo.g4) as [Heq _];
    [reflexivity|reflexivity|reflexivity|reflexivity
    |vm_compute; reflexivity|].
  split_and!; [exact Heq|reflexivity|]. repeat constructor.
Defined.

(** Alice starts the game with Bob from the full pool. *)
Lemma startGame_deals_witness :
  ∃ g', startGame Demo.g0 = Ok tt g' ∧ started g' = true
        ∧ total g' = 108%nat.
Proof.
  destruct (startGame_deals Demo.g0)
    as (g' & Heq & Hst & _ & _ & _ & _ & Htotal);
    [vm_compute; lia|vm_compute; lia|].
  exists g'. split_and!; [exact Heq|exact Hst|exact Htotal].
Defined.

(** The red Draw Two is called [Red Draw Two], and is read as such. *)
Lemma parseToCard_toString_witness :
  ∃ name,
    toString (mkCard 76 CardFace.DRAW_TWO Color.RED) = Some name
    ∧ ∃ parsed,
        parseToCard (readText name false) Demo.b1 = Ok (Some parsed) Demo.b1
        ∧ face parsed = CardFace.DRAW_TWO ∧ color parsed = Color.RED.
Proof.
  apply (parseToCard_toString (mkCard 76 CardFace.DRAW_TWO Color.RED)
           false Demo.b1);
    apply (bool_decide_unpack _); vm_compute; exact I.
Defined.

(** After the game that Bob has won, nobody holds a card. *)
Lemma lobby_hands_empty_witness :
  Forall (λ p, hand p = []) (players More.over).
Proof.
  apply (lobby_hands_empty More.over); [|reflexivity].
  assert (More.over
          = run [Message "bob" (Play (Demo.say "REVERSE" "RED"))] Demo.g4)
    as -> by (vm_compute; reflexivity).
  apply orderly_run; [apply g4_orderly|vm_compute; reflexivity].
Defined.

(** Alice draws at her turn, and the turn goes to Bob. *)
Lemma draw_passes_turn_witness :
  ∃ g', collect "alice" Draw Demo.g2 = Ok tt g' ∧ turn g' = 0
        ∧ topCard g' = topCard Demo.g2.
Proof.
  destruct (draw_passes_turn Demo.g2 (Demo.player Demo.g2 1)
              (Demo.top Demo.g2))
    as (g' & p' & q & drawn & Heq & Ht & _ & _ & _ & _ & _ & _ & Htop & _);
    [reflexivity|reflexivity|reflexivity|by left|].
  exists g'. split_and!; [exact Heq|exact Ht|exact Htop].
Defined.


(** Bob plays the Wild in red, the sixth of his seven cards: it lies on top
    in red, and it is Alice's turn. *)
Lemma card_effects_witness :
  ∃ g',
    playCard (Demo.say "WILD" "RED") Demo.b1 = Ok false g'
    ∧ topCard g' = Some (mkCard 100 CardFace.WILD Color.RED)
    ∧ turn g' = 1
    ∧ handSizes g' = [6; 7]%nat.
Proof.
  destruct (card_effects (Demo.say "WILD" "RED") Demo.b1
              (Demo.player Demo.b1 0) (Demo.top Demo.b1) 5
              (Some Color.RED) Demo.b1
              (mkCard 100 CardFace.WILD Color.NONE))
    as (g' & Heq & Htop & _ & _ & Ht & _ & _ & Hsizes & _);
    [reflexivity|reflexivity|by left|vm_compute; reflexivity|reflexivity
    |vm_compute; lia|].
  exists g'. split_and!; [exact Heq|exact Htop|exact Ht|exact Hsizes].
Defined.
